(** * Oracle voting: argument encoding, contract economics and deferred votes

    A shallow embedding of [screens/oracles/utils.js] and
    [screens/oracles/hooks.js].

    - JavaScript numbers are IEEE-754 binary64 values: they are modelled by
      [spec_float] with the operations of [SpecFloat] at precision 53 and
      maximal exponent 1024 (round to nearest, ties to even).
    - JavaScript strings are modelled by [string], read as the UTF-8 bytes
      of well-formed text.
    - Exceptions are modelled by sum types, [undefined] results by [option].
    - The calls into bn.js and decimal.js are modelled by what these
      libraries compute on decimal text ([BN], [DecimalJs]).
    - The queue of deferred votes (an IndexedDB table keyed by id) is a
      [gmap]; [sendVote] passes the state of the application along.
    - Dates are their time values in milliseconds ([JsDate]). *)

From Stdlib Require Import ZArith Ascii String Floats.SpecFloat.
From Stdlib Require Import DecimalString DecimalN.
From stdpp Require Import gmap strings list sorting.

Local Open Scope Z_scope.

(** ** JavaScript numbers *)

Module JsNumber.

Definition prec : Z := 53.
Definition emax : Z := 1024.

Definition number : Type := spec_float.

Definition NaN : number := S754_nan.

(** The number denoted by an integer literal (correctly rounded). *)
Definition of_Z (z : Z) : number := binary_normalize prec emax z 0 false.

Definition add : number → number → number := SFadd prec emax.
Definition sub : number → number → number := SFsub prec emax.
Definition mul : number → number → number := SFmul prec emax.
Definition div : number → number → number := SFdiv prec emax.

(** [a >= b]; it is false as soon as one side is NaN. *)
Definition ge (a b : number) : bool := SFleb b a.

(** [Number.isNaN] on a value that is a number. *)
Definition isNaN (x : number) : bool :=
  match x with S754_nan => true | _ => false end.

(** The literal [1.1]: the binary64 value nearest to 11/10, that is
    4953959590107546 * 2^-52. *)
Definition lit_1_1 : number := S754_finite false 4953959590107546 (-52).

(** [Math.ceil].  A finite value with a non-negative exponent is already
    an integer; otherwise the value is [±m * 2^e] with [e < 0], its
    ceiling [- floor (- (±m) / 2^-e)] (the floor is the arithmetic right
    shift) is at most 2^53 in magnitude and therefore a number itself.
    A negative value above -1 gives -0. *)
Definition ceil (x : number) : number :=
  match x with
  | S754_finite s m e =>
      if 0 <=? e then x
      else
        let z := - Z.shiftr (- cond_Zopp s (Z.pos m)) (- e) in
        if z =? 0 then S754_zero s else of_Z z
  | _ => x
  end.

(** [Math.max] of two numbers: NaN if either is NaN, and +0 is larger
    than -0. *)
Definition max (a b : number) : number :=
  match SFcompare a b with
  | None => NaN
  | Some Lt => b
  | Some Gt => a
  | Some Eq => match a with S754_zero true => b | _ => a end
  end.

End JsNumber.

(** ** Transaction fee: [contractMaxFee] *)

(** [Math.ceil((Number(gasCost) + Number(txFee)) * 1.1)]; the arguments
    are numbers already, on which [Number] is the identity. *)
Definition contractMaxFee (gasCost txFee : JsNumber.number) : JsNumber.number :=
  JsNumber.ceil (JsNumber.mul (JsNumber.add gasCost txFee) JsNumber.lit_1_1).

(** The ceiling of [n * 1.1] in exact arithmetic. *)
Definition exact_ceil_110 (n : Z) : Z := - ((- (n * 11)) / 10).

(** ** Contract economics *)

Section Economics.
Import JsNumber.

(** One entry of [votes]. *)
Record VoteOption := { count : number }.

(** [Math.ceil((committeeSize * quorum) / 100)] *)
Definition quorumVotesCount (quorum committeeSize : number) : number :=
  ceil (div (mul committeeSize quorum) (of_Z 100)).

(** [Math.ceil((votesCount * winnerThreshold) / 100)] *)
Definition winnerVotesCount (winnerThreshold votesCount : number) : number :=
  ceil (div (mul votesCount winnerThreshold) (of_Z 100)).

Definition hasQuorum (votesCount quorum committeeSize : number) : bool :=
  let requiredVotesCount := quorumVotesCount quorum committeeSize in
  ge votesCount requiredVotesCount.

Definition hasWinner (votes : list VoteOption)
    (votesCount winnerThreshold quorum committeeSize : number) : bool :=
  let requiredVotesCountByVotes :=
    winnerVotesCount winnerThreshold
      (fold_left (λ prev cur, add prev (count cur)) votes (of_Z 0)) in
  let didReachQuorum := hasQuorum votesCount quorum committeeSize in
  didReachQuorum
  && existsb (λ v, ge (count v) requiredVotesCountByVotes) votes.

(** A field of the voting record that [oracleReward] reads.  The record
    is built from JSON and from the state of the page, so a field is a
    number, or [undefined] when it is absent, or a value of another type
    (null, a string, a boolean), which is given by the number that
    arithmetic converts it to: 0 for null, the number a numeric string
    denotes, NaN for any other string.  Values on which arithmetic throws
    (a BigInt, a Symbol) do not come from JSON and are left out. *)
Inductive Field :=
| FNumber (x : number)
| FUndefined
| FOther (toNumber : number).

(** [ToNumber], which [*], [/], [-] and [Math.max] apply to an operand. *)
Definition ToNumber (v : Field) : number :=
  match v with
  | FNumber x => x
  | FUndefined => NaN
  | FOther x => x
  end.

(** [Number.isNaN(v)]: it converts nothing, and is true of the number NaN
    only. *)
Definition Number_isNaN (v : Field) : bool :=
  match v with
  | FNumber x => isNaN x
  | _ => false
  end.

(** [None] is the [undefined] result.  The arithmetic of the [return]
    converts its operands; [quorumVotesCount] multiplies its two fields
    first. *)
Definition oracleReward
    (balance votesCount quorum committeeSize ownerFee : Field)
    : option number :=
  if existsb Number_isNaN [balance; votesCount; quorum; committeeSize]
  then None
  else
    Some (div (mul (ToNumber balance)
                   (sub (of_Z 1) (div (ToNumber ownerFee) (of_Z 100))))
              (max (quorumVotesCount (ToNumber quorum)
                                     (ToNumber committeeSize))
                   (ToNumber votesCount))).

End Economics.

(** ** Strings *)

Module JsString.

(** The byte a character of the model stands for. *)
Definition code (c : ascii) : Z := Z.of_N (N_of_ascii c).

(** When [s] starts with a white space or line terminator character of
    JavaScript (the class [\s]), the rest of [s] after that character.
    The characters are TAB, LF, VT, FF, CR, SP, then U+00A0, U+1680,
    U+2000 to U+200A, U+2028, U+2029, U+202F, U+205F, U+3000 and U+FEFF
    in their UTF-8 encodings. *)
Definition white_space (s : string) : option string :=
  match s with
  | String a r1 =>
      let c1 := code a in
      if (9 <=? c1) && (c1 <=? 13) || (c1 =? 32) then Some r1
      else
        match r1 with
        | String b r2 =>
            let c2 := code b in
            if (c1 =? 194) && (c2 =? 160) then Some r2
            else
              match r2 with
              | String d r3 =>
                  let c3 := code d in
                  if (c1 =? 225) && (c2 =? 154) && (c3 =? 128)
                     || (c1 =? 226) && (c2 =? 128)
                        && ((128 <=? c3) && (c3 <=? 138)
                            || (c3 =? 168) || (c3 =? 169) || (c3 =? 175))
                     || (c1 =? 226) && (c2 =? 129) && (c3 =? 159)
                     || (c1 =? 227) && (c2 =? 128) && (c3 =? 128)
                     || (c1 =? 239) && (c2 =? 187) && (c3 =? 191)
                  then Some r3 else None
              | EmptyString => None
              end
        | EmptyString => None
        end
  | EmptyString => None
  end.

Fixpoint trimStart_fuel (fuel : nat) (s : string) : string :=
  match fuel with
  | O => s
  | S fuel' =>
      match white_space s with
      | Some r => trimStart_fuel fuel' r
      | None => s
      end
  end.

(** Leading white space removed. *)
Definition trimStart (s : string) : string :=
  trimStart_fuel (String.length s) s.

Fixpoint remove_white_space_fuel (fuel : nat) (s : string) : string :=
  match fuel with
  | O => s
  | S fuel' =>
      match white_space s with
      | Some r => remove_white_space_fuel fuel' r
      | None =>
          match s with
          | String a r => String a (remove_white_space_fuel fuel' r)
          | EmptyString => EmptyString
          end
      end
  end.

(** [s.replace(/\s+/g, '')] *)
Definition remove_white_space (s : string) : string :=
  remove_white_space_fuel (String.length s) s.

Definition digit (c : ascii) : option Z :=
  let n := code c in
  if (48 <=? n) && (n <=? 57) then Some (n - 48) else None.

(** The longest prefix of decimal digits, and what follows it. *)
Fixpoint span_digits (s : string) : list Z * string :=
  match s with
  | String a r =>
      match digit a with
      | Some d => let '(ds, rest) := span_digits r in (d :: ds, rest)
      | None => ([], s)
      end
  | EmptyString => ([], EmptyString)
  end.

(** The value of a sequence of decimal digits, most significant first. *)
Definition decimal_value (ds : list Z) : Z :=
  fold_left (λ acc d, 10 * acc + d) ds 0.

(** [parseInt(s, 10)], with [None] for NaN: leading white space is
    skipped, one sign is read, and the longest run of digits that follows
    is the value; whatever comes after the digits is ignored.  The result
    is exact as an integer, which is what the range test on it needs (the
    number [parseInt] returns is the nearest binary64 value, and -0 for
    ["-0"], which compares and is stored as 0). *)
Definition parseInt10 (s : string) : option Z :=
  let s1 := trimStart s in
  let '(neg, s2) :=
    match s1 with
    | String "-"%char r => (true, r)
    | String "+"%char r => (false, r)
    | _ => (false, s1)
    end in
  match fst (span_digits s2) with
  | [] => None
  | ds => Some (if neg : bool then - decimal_value ds else decimal_value ds)
  end.

(** The decimal numeral of a natural number. *)
Definition of_N (n : N) : string := NilZero.string_of_uint (N.to_uint n).

(** [Buffer.from(s)]: the UTF-8 bytes of the text.  A string of this
    development is well-formed text, given by these bytes; a JavaScript
    string with an unpaired surrogate, which [Buffer.from] encodes as
    EF BF BD, has no counterpart here. *)
Definition bytes (s : string) : list Z := map code (list_ascii_of_string s).

End JsString.

(** ** Byte arrays of integers *)

(** Base-256 digits of [n], least significant first. *)
Fixpoint le_digits_fuel (fuel : nat) (n : Z) : list Z :=
  match fuel with
  | O => []
  | S fuel' =>
      if n <=? 0 then [] else (n mod 256) :: le_digits_fuel fuel' (n / 256)
  end.

(** The base-256 digits of [n > 0] without leading zero digit, least
    significant first; a number of [k] bits needs at most [k] digits. *)
Definition le_digits (n : Z) : list Z :=
  le_digits_fuel (S (Z.to_nat (Z.log2 n))) n.

(** The value of base-256 digits given least significant first. *)
Definition le_value (bs : list Z) : Z :=
  foldr (λ b acc, b + 256 * acc) 0 bs.

(** ** bn.js *)

Module BN.

(** What [new BN(string)] leaves (bn.js 5): an integer, or, when a string
    that is not empty holds no digit at all, an object without words whose
    sign flag is set by a leading ["-"]. *)
Inductive t :=
| Int (z : Z)
| NoWords (negative : bool).

(** The string constructor on text that is not empty.  White space is
    removed everywhere, one leading ["-"] is the sign, and every other
    character has to be a decimal digit: bn.js rejects anything else with
    an assertion ("Invalid character"), which is [None] here. *)
Definition init_string (s : string) : option t :=
  let number := JsString.remove_white_space s in
  let '(negative, body) :=
    match number with
    | String "-"%char r => (true, r)
    | _ => (false, number)
    end in
  match body with
  | EmptyString => Some (NoWords negative)
  | _ =>
      match JsString.span_digits body with
      | (ds, EmptyString) =>
          Some (Int (if negative : bool
                     then - JsString.decimal_value ds
                     else JsString.decimal_value ds))
      | _ => None
      end
  end.

(** [new BN(s)] in base 10.  The constructor initialises from
    [number || 0]: the empty string is falsy and gives the number 0; any
    other string is read by [init_string]. *)
Definition new (s : string) : option t :=
  match s with
  | EmptyString => Some (Int 0)
  | String _ _ => init_string s
  end.

Definition isNeg (x : t) : bool :=
  match x with
  | Int z => z <? 0
  | NoWords negative => negative
  end.

(** [toArray('le')]: the bytes of the magnitude, least significant first,
    at least one byte; reading the words of an object that has none
    raises a [TypeError] ([None]). *)
Definition toArray_le (x : t) : option (list Z) :=
  match x with
  | Int z =>
      Some (match le_digits (Z.abs z) with [] => [0] | bs => bs end)
  | NoWords _ => None
  end.

(** [toArray()]: the same bytes, most significant first. *)
Definition toArray (x : t) : option (list Z) := reverse <$> toArray_le x.

End BN.

(** ** decimal.js *)

Module DecimalJs.

(** Configuration.  The file sets [toExpPos] to 10000 and leaves every
    other setting at the library's default: 20 significant digits,
    rounding mode 4 (half away from zero), [toExpNeg] -7 and exponent
    limits of ±9e15. *)
Definition precision : Z := 20.
Definition toExpNeg : Z := -7.
Definition toExpPos : Z := 10000.
Definition maxE : Z := 9 * 10 ^ 15.
Definition minE : Z := - (9 * 10 ^ 15).

(** A finite value is [± coef * 10 ^ exp] with [coef] free of trailing
    zeros (and [coef = 0], [exp = 0] for zero, which keeps its sign). *)
Inductive t :=
| Finite (neg : bool) (coef : N) (exp : Z)
| Infinite (neg : bool)
| NaN.

Definition digits_of (c : N) : string := JsString.of_N c.
Definition ndigits (c : N) : Z := Z.of_nat (String.length (digits_of c)).

Fixpoint strip_zeros (fuel : nat) (c : N) (q : Z) : N * Z :=
  match fuel with
  | O => (c, q)
  | S fuel' =>
      if (c mod 10 =? 0)%N && negb (c =? 0)%N
      then strip_zeros fuel' (c / 10)%N (q + 1)
      else (c, q)
  end.

(** The value [± c * 10 ^ q] in normal form, with the exponent limits
    applied to the exponent of its leading digit. *)
Definition make (neg : bool) (c : N) (q : Z) : t :=
  if (c =? 0)%N then Finite neg 0 0
  else
    let '(c', q') := strip_zeros (Z.to_nat (ndigits c)) c q in
    let e := ndigits c' - 1 + q' in
    if maxE <? e then Infinite neg
    else if e <? minE then Finite neg 0 0
    else Finite neg c' q'.

(** The exponent part of a literal: empty, or [e] followed by an optional
    sign and at least one digit. *)
Definition parse_exponent (s : string) : option Z :=
  match s with
  | EmptyString => Some 0
  | String c r =>
      if (JsString.code c =? 101) || (JsString.code c =? 69) then
        let '(neg, r') :=
          match r with
          | String "-"%char r' => (true, r')
          | String "+"%char r' => (false, r')
          | _ => (false, r)
          end in
        match JsString.span_digits r' with
        | (d :: ds, EmptyString) =>
            let v := JsString.decimal_value (d :: ds) in
            Some (if neg : bool then - v else v)
        | _ => None
        end
      else None
  end.

(** A decimal literal: [digits], [digits.], [digits.digits] or [.digits],
    then an optional exponent ([None] for any other text).  No rounding
    takes place here. *)
Definition parse_decimal (neg : bool) (v : string) : option t :=
  let '(int, r1) := JsString.span_digits v in
  let '(frac, r2) :=
    match r1 with
    | String "."%char r => JsString.span_digits r
    | _ => ([], r1)
    end in
  let well_formed :=
    match int, frac, r1 with
    | [], [], _ => false
    | _, _, _ => true
    end in
  if well_formed then
    match parse_exponent r2 with
    | Some e =>
        Some (make neg (Z.to_N (JsString.decimal_value (int ++ frac)))
                   (e - Z.of_nat (length frac)))
    | None => None
    end
  else None.

(** The letter after the leading [0] of a literal in another base ([x],
    [b] or [o], in either case): the base, and the number of bits of one of
    its digits. *)
Definition radix (c : ascii) : option (Z * Z) :=
  let n := JsString.code c in
  if (n =? 120) || (n =? 88) then Some (16, 4)
  else if (n =? 98) || (n =? 66) then Some (2, 1)
  else if (n =? 111) || (n =? 79) then Some (8, 3)
  else None.

(** A digit of a literal in base 2, 8 or 16; the letters of base 16 are
    read in either case. *)
Definition radix_digit (base : Z) (c : ascii) : option Z :=
  let n := JsString.code c in
  let d :=
    if (48 <=? n) && (n <=? 57) then n - 48
    else if (97 <=? n) && (n <=? 102) then n - 87
    else if (65 <=? n) && (n <=? 70) then n - 55
    else 16 in
  if d <? base then Some d else None.

Fixpoint span_radix (base : Z) (s : string) : list Z * string :=
  match s with
  | String a r =>
      match radix_digit base a with
      | Some d => let '(ds, rest) := span_radix base r in (d :: ds, rest)
      | None => ([], s)
      end
  | EmptyString => ([], EmptyString)
  end.

Definition radix_value (base : Z) (ds : list Z) : Z :=
  fold_left (λ acc d, base * acc + d) ds 0.

(** The binary exponent of a literal in another base: empty, or [p]
    followed by an optional sign and at least one decimal digit. *)
Definition parse_binary_exponent (s : string) : option Z :=
  match s with
  | EmptyString => Some 0
  | String c r =>
      if (JsString.code c =? 112) || (JsString.code c =? 80) then
        let '(neg, r') :=
          match r with
          | String "-"%char r' => (true, r')
          | String "+"%char r' => (false, r')
          | _ => (false, r)
          end in
        match JsString.span_digits r' with
        | (d :: ds, EmptyString) =>
            let v := JsString.decimal_value (d :: ds) in
            Some (if neg : bool then - v else v)
        | _ => None
        end
      else None
  end.

(** For [p = -24 - i], the decimal that JavaScript prints for the number
    [2^p] (the shortest text that reads back as this number), as a
    coefficient and an exponent of ten; these texts are not exact. *)
Definition pow2_shortest : list (Z * Z) :=
  [ (5960464477539063, -23); (29802322387695312, -24);
    (14901161193847656, -24); (7450580596923828, -24);
    (3725290298461914, -24); (1862645149230957, -24);
    (9313225746154785, -25); (4656612873077393, -25);
    (23283064365386963, -26); (11641532182693481, -26);
    (5820766091346741, -26); (29103830456733704, -27);
    (14551915228366852, -27); (7275957614183426, -27);
    (3637978807091713, -27); (18189894035458565, -28);
    (9094947017729282, -28); (4547473508864641, -28);
    (22737367544323206, -29); (11368683772161603, -29);
    (5684341886080802, -29); (2842170943040401, -29);
    (14210854715202004, -30); (7105427357601002, -30);
    (3552713678800501, -30); (17763568394002505, -31);
    (8881784197001252, -31); (4440892098500626, -31);
    (2220446049250313, -31); (11102230246251565, -32) ].

(** [new Decimal(Math.pow(2, p))] for a binary exponent [-54 < p < 54]:
    the decimal read from the text of the number [2^p], which is exact
    for [-24 < p].  For the other exponents the library computes
    [Decimal.pow(2, p)]; they are outside this model ([None]). *)
Definition pow2 (p : Z) : option (Z * Z) :=
  if (0 <=? p) && (p <? 54) then Some (2 ^ p, 0)
  else if (-24 <? p) && (p <? 0) then Some (5 ^ (- p), p)
  else if (-54 <? p) && (p <=? -24) then pow2_shortest !! Z.to_nat (- p - 24)
  else None.

(** A literal in base 16, 2 or 8: [0x], [0b] or [0o], then digits with an
    optional point as in a decimal literal, then an optional binary
    exponent.  The digits give an integer [n]; with [k] bits after the
    point the value is [n / 2^k = n * 5^k / 10^k], and it is multiplied by
    the decimal of [2^p].  Nothing is rounded.  (The exponent limits of
    [make] are out of reach of such a literal.) *)
Definition parse_radix (neg : bool) (v : string) : option t :=
  match v with
  | String "0"%char (String c r) =>
      match radix c with
      | Some (base, bits) =>
          let '(int, r1) := span_radix base r in
          let '(frac, r2) :=
            match r1 with
            | String "."%char r' => span_radix base r'
            | _ => ([], r1)
            end in
          match int, frac with
          | [], [] => None
          | _, _ =>
              match parse_binary_exponent r2 with
              | Some p =>
                  let n := radix_value base (int ++ frac) in
                  let k := bits * Z.of_nat (length frac) in
                  if n =? 0 then Some (Finite neg 0 0)
                  else if p =? 0
                  then Some (make neg (Z.to_N (n * 5 ^ k)) (- k))
                  else
                    match pow2 p with
                    | Some (c2, q2) =>
                        Some (make neg (Z.to_N (n * 5 ^ k * c2)) (- k + q2))
                    | None => None
                    end
              | None => None
              end
          end
      | None => None
      end
  | _ => None
  end.

(** What is not a decimal literal: [Infinity], [NaN], or a literal in
    another base. *)
Definition parse_other (neg : bool) (v : string) : option t :=
  if (v =? "Infinity")%string then Some (Infinite neg)
  else if (v =? "NaN")%string then Some NaN
  else parse_radix neg v.

(** [new Decimal(s)]: one leading ["-"] or ["+"] is the sign; what follows
    is a decimal literal, or else one of the other literals; any other
    text is rejected ([None]).  Underscores between digits, which the
    library accepts from version 10.3 on, are not read. *)
Definition new (s : string) : option t :=
  let '(neg, v) :=
    match s with
    | String "-"%char r => (true, r)
    | String "+"%char r => (false, r)
    | _ => (false, s)
    end in
  match parse_decimal neg v with
  | Some x => Some x
  | None => parse_other neg v
  end.

(** Rounding of a coefficient to [precision] significant digits, half
    away from zero. *)
Definition round_sd (c : N) (q : Z) : N * Z :=
  let n := ndigits c in
  if n <=? precision then (c, q)
  else
    let k := n - precision in
    let p := (10 ^ Z.to_N k)%N in
    (((c + p / 2) / p)%N, q + k).

(** [x.mul(y)]: the exact product, rounded to [precision] significant
    digits. *)
Definition mul (x y : t) : t :=
  match x, y with
  | NaN, _ | _, NaN => NaN
  | Infinite s1, Infinite s2 => Infinite (xorb s1 s2)
  | Infinite s1, Finite s2 c _ | Finite s1 c _, Infinite s2 =>
      if (c =? 0)%N then NaN else Infinite (xorb s1 s2)
  | Finite s1 c1 q1, Finite s2 c2 q2 =>
      if (c1 =? 0)%N || (c2 =? 0)%N then Finite (xorb s1 s2) 0 0
      else
        let '(c, q) := round_sd (c1 * c2) (q1 + q2) in
        make (xorb s1 s2) c q
  end.

Definition zeros (k : Z) : string :=
  string_of_list_ascii (replicate (Z.to_nat k) "0"%char).

(** [x.toString()]: exponential notation when the exponent [e] of the
    leading digit is at most [toExpNeg] or at least [toExpPos], plain
    notation otherwise. *)
Definition toString (x : t) : string :=
  match x with
  | NaN => "NaN"
  | Infinite neg => if neg then "-Infinity" else "Infinity"
  | Finite neg c q =>
      let str := digits_of c in
      let len := Z.of_nat (String.length str) in
      let e := len - 1 + q in
      let body :=
        if (e <=? toExpNeg) || (toExpPos <=? e) then
          ((if (1 <? len)%Z
            then substring 0 1 str ++ "."
                 ++ substring 1 (String.length str - 1) str
            else str)
           ++ (if (e <? 0)%Z then "e-" else "e+")
           ++ JsString.of_N (Z.to_N (Z.abs e)))%string
        else if e <? 0 then ("0." ++ zeros (- e - 1) ++ str)%string
        else if len <=? e then (str ++ zeros (e + 1 - len))%string
        else if e + 1 <? len then
          (substring 0 (Z.to_nat (e + 1)) str ++ "."
           ++ substring (Z.to_nat (e + 1))
                (String.length str - Z.to_nat (e + 1)) str)%string
        else str in
      if neg && negb (c =? 0)%N then ("-" ++ body)%string else body
  end.

End DecimalJs.

(** ** Hexadecimal text *)

Definition hex_digit (c : ascii) : option Z :=
  let n := JsString.code c in
  if (48 <=? n) && (n <=? 57) then Some (n - 48)
  else if (97 <=? n) && (n <=? 102) then Some (n - 87)
  else if (65 <=? n) && (n <=? 70) then Some (n - 55)
  else None.

Fixpoint hex_pairs (s : string) : option (list Z) :=
  match s with
  | EmptyString => Some []
  | String a (String b r) =>
      match hex_digit a, hex_digit b, hex_pairs r with
      | Some h, Some l, Some bs => Some (16 * h + l :: bs)
      | _, _, _ => None
      end
  | String _ EmptyString => None
  end.

(** Modelled from the spec: [hexToUint8Array] of [shared/utils/buffers],
    which this development does not embed.  The value is a 0x-prefixed or bare
    hex string that is decoded to its raw bytes; odd length and non-hex
    characters fail ([None]). *)
Definition hexToUint8Array (s : string) : option (list Z) :=
  match s with
  | String "0"%char (String "x"%char r) => hex_pairs r
  | _ => hex_pairs s
  end.

(** ** The argument encoder *)

Definition DNA_BASE : string := "1000000000000000000".

(** An argument as [buildDynamicArgs] hands it to the encoder. *)
Record Arg := { arg_index : nat; arg_format : string; arg_value : string }.

(** What is thrown inside [argToBytes]: one of its own three errors, or
    an exception raised by a library call (whose message is the
    library's). *)
Inductive Reason :=
| InvalidByteValue
| InvalidInt8Value
| InvalidUint64Value
| LibraryFailure.

(** The error [argToBytes] rethrows. *)
Record EncodingError :=
  { err_format : string; err_index : nat; err_reason : Reason }.

(** Its message up to the inner message:
    [cannot parse ${data.format} at index ${data.index}: ]. *)
Definition error_message_prefix (e : EncodingError) : string :=
  ("cannot parse " ++ err_format e ++ " at index "
   ++ JsString.of_N (N.of_nat (err_index e)) ++ ": ")%string.

Definition reason_message (r : Reason) : option string :=
  match r with
  | InvalidByteValue => Some "invalid byte value"
  | InvalidInt8Value => Some "invalid int8 value"
  | InvalidUint64Value => Some "invalid uint64 value"
  | LibraryFailure => None
  end.

Definition from_library {A} (x : option A) : Reason + A :=
  match x with Some a => inr a | None => inl LibraryFailure end.

(** The body of the [try] block. *)
Definition argToBytes_try (data : Arg) : Reason + list Z :=
  let fmt := arg_format data in
  if (fmt =? "byte")%string then
    match JsString.parseInt10 (arg_value data) with
    | Some val => if (0 <=? val) && (val <=? 255) then inr [val]
                  else inl InvalidByteValue
    | None => inl InvalidByteValue
    end
  else if (fmt =? "int8")%string then
    match JsString.parseInt10 (arg_value data) with
    | Some val => if (0 <=? val) && (val <=? 255) then inr [val]
                  else inl InvalidInt8Value
    | None => inl InvalidInt8Value
    end
  else if (fmt =? "uint64")%string then
    match BN.new (arg_value data) with
    | Some res =>
        if BN.isNeg res then inl InvalidUint64Value
        else
          match BN.toArray_le res with
          | Some arr => inr (take 8 (arr ++ replicate 8 0))
          | None => inl LibraryFailure
          end
    | None => inl LibraryFailure
    end
  else if (fmt =? "int64")%string then
    match BN.new (arg_value data) ≫= BN.toArray_le with
    | Some arr => inr (take 8 (arr ++ replicate 8 0))
    | None => inl LibraryFailure
    end
  else if (fmt =? "string")%string then
    inr (JsString.bytes (arg_value data))
  else if (fmt =? "bigint")%string then
    from_library (BN.new (arg_value data) ≫= BN.toArray)
  else if (fmt =? "hex")%string then
    from_library (hexToUint8Array (arg_value data))
  else if (fmt =? "dna")%string then
    from_library
      (x ← DecimalJs.new (arg_value data);
       base ← DecimalJs.new DNA_BASE;
       BN.new (DecimalJs.toString (DecimalJs.mul x base)) ≫= BN.toArray)
  else
    from_library (hexToUint8Array (arg_value data)).

(** [argToBytes]: whatever the [try] block throws is rethrown with the
    format and the index of the argument. *)
Definition argToBytes (data : Arg) : EncodingError + list Z :=
  match argToBytes_try data with
  | inr bs => inr bs
  | inl r =>
      inl {| err_format := arg_format data;
             err_index := arg_index data;
             err_reason := r |}
  end.

(** ** The argument slice *)

(** An element of a JavaScript array: a hole left by an assignment past
    the end, the [null] placeholder, or an encoded argument. *)
Inductive Slot :=
| Hole
| Null
| Bytes (bs : list Z).

(** [a[i] = v]: in range the element is replaced; past the end the array
    grows, and the positions in between are holes. *)
Definition array_set (a : list Slot) (i : nat) (v : Slot) : list Slot :=
  if decide (i < length a)%nat then <[i := v]> a
  else a ++ replicate (i - length a) Hole ++ [v].

(** [Math.max(...args.map(x => x.index))], for a list that is not empty. *)
Definition max_index (args : list Arg) : nat :=
  foldr Nat.max 0%nat (arg_index <$> args).

(** One round of the [forEach]; an exception ends the whole call. *)
Definition place (acc : EncodingError + list Slot) (element : Arg)
    : EncodingError + list Slot :=
  match acc with
  | inl e => inl e
  | inr result =>
      match argToBytes element with
      | inl e => inl e
      | inr bs => inr (array_set result (arg_index element) (Bytes bs))
      end
  end.

Definition argsToSlice (args : list Arg) : EncodingError + list Slot :=
  if decide (length args = 0%nat) then inr []
  else
    let maxIndex := max_index args in
    let result := replicate maxIndex Null in
    fold_left place args (inr result).

(** ** Normalisation of arguments: [buildDynamicArgs] *)

(** The values an argument can carry: [undefined], [null], a string, or
    anything else, which is given by what its [toString()] returns
    ([None] when that is [null] or [undefined]). *)
Inductive JsValue :=
| JsUndefined
| JsNull
| JsStr (s : string)
| JsOther (toString : option string).

Record RawArg := { raw_format : option string; raw_value : JsValue }.

(** An argument after the [map] step; [None] is [null]. *)
Record MappedArg :=
  { m_index : nat; m_format : string; m_value : option string }.

(** [typeof value !== 'string' ? value?.toString() ?? null : value] *)
Definition coerce (v : JsValue) : option string :=
  match v with
  | JsStr s => Some s
  | JsUndefined | JsNull => None
  | JsOther s => s
  end.

Definition map_arg (index : nat) (a : RawArg) : MappedArg :=
  {| m_index := index;
     m_format := default "hex"%string (raw_format a);
     m_value := coerce (raw_value a) |}.

(** After the filter every value is a string. *)
Definition as_arg (m : MappedArg) : option Arg :=
  (λ v, {| arg_index := m_index m; arg_format := m_format m; arg_value := v |})
  <$> m_value m.

Definition buildDynamicArgs (args : list RawArg) : list Arg :=
  omap as_arg (filter (λ m, m_value m ≠ None) (imap map_arg args)).


(** ** Deferred votes *)

(** Modelled from the spec: [DeferredVoteType] of [./types], with the
    three members the data model names. *)
Inductive DeferredVoteType := VoteNone | VoteSuccess | VoteFailed.

(** A record of the [deferredVotes] table, with the fields the scheduler
    reads or writes; block numbers are integers. *)
Record DeferredVote :=
  { vote_id : Z;
    vote_coinbase : string;
    vote_contractHash : string;
    vote_block : Z;
    vote_type : DeferredVoteType;
    vote_txHash : option string }.

(** What the user is shown: [showError(message)], or the prompt to
    prolong the voting of a contract. *)
Inductive Toast :=
| ScheduledTxError (message : string)
| ProlongPrompt (contractHash : string).

(** The table, the toasts shown so far (oldest first), the number of
    errors written to the console and the number of cache invalidations. *)
Record World :=
  { table : gmap Z DeferredVote;
    toasts : list Toast;
    console_errors : nat;
    invalidations : nat }.

(** What the node answers during one run of [sendVote]: the submission
    (estimate, then call) throws a message or returns a transaction hash;
    each read of contract data returns a number or fails; the dry run of
    [prolongVoting] succeeds or not. *)
Record Node :=
  { submission : string + string;
    read_startBlock : option Z;
    read_votingDuration : option Z;
    prolong_succeeds : bool }.

Definition with_table (f : gmap Z DeferredVote → gmap Z DeferredVote)
    (w : World) : World :=
  {| table := f (table w); toasts := toasts w;
     console_errors := console_errors w; invalidations := invalidations w |}.

(** [db.table('deferredVotes').update(id, changes)]: a record that exists
    is changed, nothing happens otherwise. *)
Definition updateDeferredVote (id : Z) (changes : DeferredVote → DeferredVote)
    : World → World :=
  with_table (alter changes id).

Definition deleteDeferredVote (id : Z) : World → World :=
  with_table (delete id).

Definition invalidateQueries (w : World) : World :=
  {| table := table w; toasts := toasts w;
     console_errors := console_errors w;
     invalidations := S (invalidations w) |}.

Definition failToast (t : Toast) (w : World) : World :=
  {| table := table w; toasts := toasts w ++ [t];
     console_errors := console_errors w; invalidations := invalidations w |}.

Definition console_error (w : World) : World :=
  {| table := table w; toasts := toasts w;
     console_errors := S (console_errors w);
     invalidations := invalidations w |}.

Definition showError (message : string) : World → World :=
  failToast (ScheduledTxError message).

Definition deleteVote (id : Z) (w : World) : World :=
  invalidateQueries (deleteDeferredVote id w).

Definition set_block (b : Z) (v : DeferredVote) : DeferredVote :=
  {| vote_id := vote_id v; vote_coinbase := vote_coinbase v;
     vote_contractHash := vote_contractHash v; vote_block := b;
     vote_type := vote_type v; vote_txHash := vote_txHash v |}.

Definition set_success (txHash : string) (v : DeferredVote) : DeferredVote :=
  {| vote_id := vote_id v; vote_coinbase := vote_coinbase v;
     vote_contractHash := vote_contractHash v; vote_block := vote_block v;
     vote_type := VoteSuccess; vote_txHash := Some txHash |}.

Definition too_early : string := "too early to accept open vote".
Definition too_late : string := "too late to accept open vote".
Definition quorum_not_reachable : string := "quorum is not reachable".
Definition insufficient_funds : string := "insufficient funds".

(** [sendVote(vote)] of [useDeferredVotes]. *)
Definition sendVote (vote : DeferredVote) (node : Node) (w : World) : World :=
  match submission node with
  | inr voteResponse =>
      invalidateQueries
        (updateDeferredVote (vote_id vote) (set_success voteResponse) w)
  | inl message =>
      if (message =? too_early)%string then
        let tried :=
          match read_startBlock node with
          | Some startBlock =>
              match read_votingDuration node with
              | Some votingDuration =>
                  let nextVoteBlock := startBlock + votingDuration in
                  if nextVoteBlock >? vote_block vote then
                    invalidateQueries
                      (updateDeferredVote (vote_id vote)
                         (set_block nextVoteBlock) w)
                  else w
              | None => console_error w
              end
          | None => console_error w
          end in
        showError message tried
      else if (message =? too_late)%string
              || (message =? quorum_not_reachable)%string then
        if prolong_succeeds node
        then failToast (ProlongPrompt (vote_contractHash vote)) w
        else deleteVote (vote_id vote) (showError message w)
      else if (message =? insufficient_funds)%string then
        showError message w
      else
        deleteVote (vote_id vote) (showError message w)
  end.

(** [deferredVotes.filter(x => x.block < currentBlock)]; the current block
    is [undefined] ([None]) until the node has answered, and a comparison
    with [undefined] is false. *)
Definition available (deferredVotes : list DeferredVote)
    (currentBlock : option Z) : list DeferredVote :=
  List.filter
    (λ x, match currentBlock with
          | Some b => vote_block x <? b
          | None => false
          end)
    deferredVotes.


(** ** Notions used in the statements *)

(** The sum [votes.reduce((prev, cur) => prev + cur.count, 0)] of the
    option counts, added from the left starting at 0. *)
Definition sum_of_counts (votes : list VoteOption) : JsNumber.number :=
  fold_left JsNumber.add (count <$> votes) (JsNumber.of_Z 0).

(** A vote option with an integer count. *)
Definition option_count (z : Z) : VoteOption := {| count := JsNumber.of_Z z |}.

(** A byte. *)
Definition byte_range (b : Z) : Prop := 0 ≤ b < 256.

(** The value of bytes given most significant first. *)
Definition be_value (bs : list Z) : Z := le_value (reverse bs).

(** The argument [buildDynamicArgs] makes of the element at position [i]
    when its value coerces to the string [v]. *)
Definition kept_arg (i : nat) (a : RawArg) (v : string) : Arg :=
  {| arg_index := i;
     arg_format := default "hex"%string (raw_format a);
     arg_value := v |}.

(** A queue of one vote scheduled at [block], and a node that rejects its
    submission as too early and reports start block 100 and voting
    duration 50. *)
Definition example_vote (block : Z) : DeferredVote :=
  {| vote_id := 7; vote_coinbase := "0xc0"; vote_contractHash := "0xab";
     vote_block := block; vote_type := VoteNone; vote_txHash := None |}.

Definition example_world (block : Z) : World :=
  {| table := {[ 7 := example_vote block ]}; toasts := [];
     console_errors := 0; invalidations := 0 |}.

Definition example_node : Node :=
  {| submission := inl too_early;
     read_startBlock := Some 100; read_votingDuration := Some 50;
     prolong_succeeds := false |}.

(** The decimal digits of a numeral, most significant first. *)
Fixpoint uint_digits (d : Decimal.uint) : list Z :=
  match d with
  | Decimal.Nil => []
  | Decimal.D0 l => 0 :: uint_digits l
  | Decimal.D1 l => 1 :: uint_digits l
  | Decimal.D2 l => 2 :: uint_digits l
  | Decimal.D3 l => 3 :: uint_digits l
  | Decimal.D4 l => 4 :: uint_digits l
  | Decimal.D5 l => 5 :: uint_digits l
  | Decimal.D6 l => 6 :: uint_digits l
  | Decimal.D7 l => 7 :: uint_digits l
  | Decimal.D8 l => 8 :: uint_digits l
  | Decimal.D9 l => 9 :: uint_digits l
  end.

(** The exponent of the last digit kept in binary64 for a value whose
    leading digit has exponent [e]. *)
Definition fexp64 (e : Z) : Z := fexp 53 1024 e.

(** The position of the remainder [r] of a division by [my] between two
    consecutive quotients. *)
Definition loc_of_remainder (my r : Z) : location :=
  if r =? 0 then loc_Exact else loc_Inexact (2 * r ?= my).

(** The exact ceiling of [a / 100]. *)
Definition exact_ceil_div_100 (a : Z) : Z := - (- a / 100).

(** The sum of a list of integers. *)
Definition sum_Z (l : list Z) : Z := foldr Z.add 0 l.

(** *** The text [parseInt] reads *)

(** The white space and line terminator characters of JavaScript, each by
    the bytes of its UTF-8 encoding: U+0009 to U+000D, U+0020, U+00A0,
    U+1680, U+2000 to U+200A, U+2028, U+2029, U+202F, U+205F, U+3000 and
    U+FEFF. *)
Definition white_space_codes : list (list Z) :=
  [ [9]; [10]; [11]; [12]; [13]; [32]; [194; 160]; [225; 154; 128];
    [226; 128; 128]; [226; 128; 129]; [226; 128; 130]; [226; 128; 131];
    [226; 128; 132]; [226; 128; 133]; [226; 128; 134]; [226; 128; 135];
    [226; 128; 136]; [226; 128; 137]; [226; 128; 138]; [226; 128; 168];
    [226; 128; 169]; [226; 128; 175]; [226; 129; 159]; [227; 128; 128];
    [239; 187; 191] ].

(** Text made of white space only. *)
Inductive white_spaces : string → Prop :=
| white_spaces_nil : white_spaces EmptyString
| white_spaces_cons c r :
    JsString.bytes c ∈ white_space_codes → white_spaces r →
    white_spaces (c ++ r).

(** The character of a decimal digit. *)
Definition digit_char (d : Z) : ascii := ascii_of_N (Z.to_N (48 + d)).

Definition decimal_text (ds : list Z) : string :=
  string_of_list_ascii (digit_char <$> ds).

(** The value in positional notation of digits given most significant
    first. *)
Fixpoint positional_value (ds : list Z) : Z :=
  match ds with
  | [] => 0
  | d :: r => d * 10 ^ Z.of_nat (length r) + positional_value r
  end.

Definition no_leading_digit (s : string) : Prop :=
  ∀ d r, 0 ≤ d ≤ 9 → s ≠ String (digit_char d) r.

(** The text that is read as the integer [v]: white space, an optional
    sign, decimal digits (at least one) whose value is the magnitude of
    [v], and then any text that does not go on with a digit. *)
Definition reads_integer (s : string) (v : Z) : Prop :=
  ∃ ws sign ds rest,
    s = (ws ++ sign ++ decimal_text ds ++ rest)%string
    ∧ white_spaces ws
    ∧ (((sign = "" ∨ sign = "+")%string ∧ v = positional_value ds)
       ∨ (sign = "-"%string ∧ v = - positional_value ds))
    ∧ ds ≠ [] ∧ Forall (λ d, 0 ≤ d ≤ 9) ds
    ∧ no_leading_digit rest.

(** ** Rounding to an integer *)

Module JsMath.

(** [Math.round]: the nearest integer, the larger one of two that are
    equally near.  A finite value with a non-negative exponent is an
    integer already; otherwise the value is [±m * 2^e] with [e < 0] and the
    result is [floor (±m * 2^e + 1/2)], at most 2^53 in magnitude and
    therefore a number itself.  A result of zero keeps the sign of the
    argument. *)
Definition round (x : JsNumber.number) : JsNumber.number :=
  match x with
  | S754_finite s m e =>
      if 0 <=? e then x
      else
        let z := Z.shiftr (2 * cond_Zopp s (Z.pos m) + 2 ^ (- e)) (- e + 1) in
        if z =? 0 then S754_zero s else JsNumber.of_Z z
  | _ => x
  end.

End JsMath.

(** ** Vote totals and durations *)

(** [votes?.reduce((agg, curr) => agg + curr?.count, 0) ?? 0]; a list that
    is [undefined] is [None], and so is an entry that is [undefined], whose
    count is [undefined] and adds as NaN. *)
Definition sumAccountableVotes (votes : option (list (option VoteOption)))
    : JsNumber.number :=
  match votes with
  | None => JsNumber.of_Z 0
  | Some vs =>
      fold_left
        (λ agg curr,
           JsNumber.add agg
             (match curr with Some v => count v | None => JsNumber.NaN end))
        vs (JsNumber.of_Z 0)
  end.

(** [blocksPerInterval({weeks, days = weeks * 7, hours = days * 24})]: a
    field that is [undefined] is [None]; [weeks] is then NaN in the default
    of [days]. *)
Definition blocksPerInterval (weeks days hours : option JsNumber.number)
    : JsNumber.number :=
  let days :=
    default (JsNumber.mul (default JsNumber.NaN weeks) (JsNumber.of_Z 7)) days in
  let hours := default (JsNumber.mul days (JsNumber.of_Z 24)) hours in
  JsMath.round
    (JsNumber.div
       (JsNumber.mul (JsNumber.mul hours (JsNumber.of_Z 60)) (JsNumber.of_Z 60))
       (JsNumber.of_Z 20)).

(** ** Deployment arguments *)

(** The lower-case hexadecimal digit of a number below 16. *)
Definition hex_char (n : Z) : ascii :=
  ascii_of_N (Z.to_N (if n <? 10 then 48 + n else 87 + n)).

(** [Buffer.from(new TextEncoder().encode(str)).toString('hex')]: two
    hexadecimal digits for every byte of the UTF-8 encoding. *)
Fixpoint stringToHex (str : string) : string :=
  match str with
  | EmptyString => EmptyString
  | String c r =>
      String (hex_char (JsString.code c / 16))
        (String (hex_char (JsString.code c mod 16)) (stringToHex r))
  end.

(** [objectToHex(obj)] as the template literal reads it, for an object
    whose [JSON.stringify] is [json]: the buffer holds the characters of
    the hexadecimal text, which its [toString()] gives back. *)
Definition objectToHex (json : string) : string := stringToHex json.

(** What [buildContractDeploymentArgs] reads of a voting: the text
    [JSON.stringify] makes of [{title, desc, options: stripOptions(options),
    adCid}], the decimal text of the number
    [dayjs(shouldStartImmediately ? Date.now() : startDate).unix()], the
    two flags as booleans, and the other fields as they are. *)
Record Voting :=
  { v_fact_json : string;
    v_start_unix : string;
    v_votingDuration : JsValue;
    v_publicVotingDuration : JsValue;
    v_winnerThreshold : JsValue;
    v_quorum : JsValue;
    v_committeeSize : JsValue;
    v_votingMinPayment : JsValue;
    v_ownerFee : JsValue;
    v_isFreeVoting : bool;
    v_isCustomOwnerAddress : bool;
    v_ownerAddress : JsValue;
    v_rewardsFund : JsValue }.

(** A parameter whose default is a number: the default replaces
    [undefined] only, and [text] is what [toString()] makes of it. *)
Definition or_number (text : string) (v : JsValue) : JsValue :=
  match v with JsUndefined => JsOther (Some text) | _ => v end.

Definition buildContractDeploymentArgs (v : Voting) : list Arg :=
  buildDynamicArgs
    [ {| raw_format := None;
         raw_value := JsStr ("0x" ++ objectToHex (v_fact_json v)) |};
      {| raw_format := Some "uint64"%string;
         raw_value := JsOther (Some (v_start_unix v)) |};
      {| raw_format := Some "uint64"%string;
         raw_value := v_votingDuration v |};
      {| raw_format := Some "uint64"%string;
         raw_value := v_publicVotingDuration v |};
      {| raw_format := Some "byte"%string;
         raw_value := or_number "66" (v_winnerThreshold v) |};
      {| raw_format := Some "byte"%string; raw_value := v_quorum v |};
      {| raw_format := Some "uint64"%string;
         raw_value := v_committeeSize v |};
      {| raw_format := Some "dna"%string;
         raw_value := if v_isFreeVoting v then JsOther (Some "0"%string)
                      else or_number "0" (v_votingMinPayment v) |};
      {| raw_format := Some "byte"%string;
         raw_value := or_number "0" (v_ownerFee v) |};
      {| raw_format := Some "dna"%string; raw_value := v_rewardsFund v |};
      {| raw_format := None;
         raw_value := if v_isCustomOwnerAddress v then v_ownerAddress v
                      else JsNull |} ].

(** ** The table of deferred votes *)

(** What [addDeferredVote] is given: the fields of a vote with its id, of
    which [type] may be absent. *)
Record DeferredVoteData :=
  { data_id : Z;
    data_coinbase : string;
    data_contractHash : string;
    data_block : Z;
    data_type : option DeferredVoteType;
    data_txHash : option string }.

(** [{type: DeferredVoteType.None, ...data}] *)
Definition with_default_type (data : DeferredVoteData) : DeferredVote :=
  {| vote_id := data_id data; vote_coinbase := data_coinbase data;
     vote_contractHash := data_contractHash data;
     vote_block := data_block data;
     vote_type := default VoteNone (data_type data);
     vote_txHash := data_txHash data |}.

(** [db.table('deferredVotes').put({type: DeferredVoteType.None, ...data})]:
    the table is keyed by the id of the vote, as [update] and [delete]
    address it; [put] adds the record, or replaces the one stored under the
    same id. *)
Definition addDeferredVote (data : DeferredVoteData) : World → World :=
  with_table (<[data_id data := with_default_type data]>).

Definition is_VoteNone (t : DeferredVoteType) : bool :=
  match t with VoteNone => true | _ => false end.

(** The order of the keys. *)
Definition key_le (p q : Z * DeferredVote) : Prop := p.1 ≤ q.1.

#[local] Instance key_le_dec : RelDecision key_le :=
  λ p q, decide (p.1 ≤ q.1).

(** The records of the table in the order of their keys. *)
Definition records (w : World) : list DeferredVote :=
  snd <$> merge_sort key_le (map_to_list (table w)).

(** [where('type').equals(DeferredVoteType.None)
      .filter(x => x.coinbase === coinbase).toArray()] *)
Definition getDeferredVotes (coinbase : string) (w : World)
    : list DeferredVote :=
  List.filter (λ x, (vote_coinbase x =? coinbase)%string)
    (List.filter (λ x, is_VoteNone (vote_type x)) (records w)).

(** [db.table('deferredVotes').get(id)], [None] for [undefined]. *)
Definition getDeferredVote (id : Z) (w : World) : option DeferredVote :=
  table w !! id.

(** ** Comparison of identifiers *)

Module JsCase.

(** The upper-case and the lower-case form of a character of the ASCII
    range. *)
Definition upper (c : ascii) : ascii :=
  let n := JsString.code c in
  if (97 <=? n) && (n <=? 122) then ascii_of_N (Z.to_N (n - 32)) else c.

Definition lower (c : ascii) : ascii :=
  let n := JsString.code c in
  if (65 <=? n) && (n <=? 90) then ascii_of_N (Z.to_N (n + 32)) else c.

Fixpoint map_chars (f : ascii → ascii) (s : string) : string :=
  match s with
  | EmptyString => EmptyString
  | String c r => String (f c) (map_chars f r)
  end.

(** [toUpperCase()] and [toLowerCase()] on text of the ASCII range, which
    is what statuses and contract hashes are; the case mapping of other
    characters is not modelled, their bytes are left as they are. *)
Definition toUpperCase : string → string := map_chars upper.
Definition toLowerCase : string → string := map_chars lower.

(** Text of the ASCII range. *)
Definition is_ascii (s : string) : bool :=
  forallb (λ c, JsString.code c <? 128) (list_ascii_of_string s).

End JsCase.

(** [a?.toUpperCase() === b?.toUpperCase()]; [None] is a value that is
    [undefined] or [null]. *)
Definition areSameCaseInsensitive (a b : option string) : bool :=
  bool_decide (JsCase.toUpperCase <$> a = JsCase.toUpperCase <$> b).

(** [id?.toLowerCase()] *)
Definition normalizeId (id : option string) : option string :=
  JsCase.toLowerCase <$> id.

(** [isVotingStatus(targetStatus)({status})] *)
Definition isVotingStatus (targetStatus status : option string) : bool :=
  areSameCaseInsensitive status targetStatus.

(** [eitherStatus(...statuses)({status})] *)
Definition eitherStatus (statuses : list (option string))
    (status : option string) : bool :=
  existsb (λ s, areSameCaseInsensitive s status) statuses.

(** ** Dates *)

Module JsDate.

(** The time value of a date, in milliseconds; NaN for an invalid date. *)
Definition time : Type := JsNumber.number.

(** [TimeClip], which [new Date(value)] applies to a number: NaN when the
    value is not finite or beyond 8.64e15 in magnitude, the value without
    its fraction otherwise (a finite value with a negative exponent is
    below 2^52). *)
Definition time_clip (x : JsNumber.number) : time :=
  match x with
  | S754_zero _ => JsNumber.of_Z 0
  | S754_finite s m e =>
      if 0 <=? e then
        if Z.pos m * 2 ^ e <=? 8640000000000000 then x else JsNumber.NaN
      else JsNumber.of_Z (Z.quot (cond_Zopp s (Z.pos m)) (2 ^ (- e)))
  | _ => JsNumber.NaN
  end.

(** [dayjs(d).add(n, 's')] of dayjs: the time value plus [n * 1000], made
    a date again. *)
Definition add_seconds (d : time) (n : JsNumber.number) : time :=
  time_clip (JsNumber.add d (JsNumber.mul n (JsNumber.of_Z 1000))).

End JsDate.

(** [BLOCK_TIME] and [defaultVotingDuration] *)
Definition BLOCK_TIME : JsNumber.number := JsNumber.of_Z 20.
Definition defaultVotingDuration : JsNumber.number := JsNumber.of_Z 4320.

(** [votingFinishDate({startDate, votingDuration, publicVotingDuration})],
    with the time value of [dayjs(startDate)] for [startDate]; a duration
    that is [undefined] is [None]. *)
Definition votingFinishDate (startDate : JsDate.time)
    (votingDuration publicVotingDuration : option JsNumber.number)
    : JsDate.time :=
  JsDate.add_seconds
    (JsDate.add_seconds startDate
       (JsNumber.mul (default defaultVotingDuration votingDuration) BLOCK_TIME))
    (JsNumber.mul (default defaultVotingDuration publicVotingDuration)
       BLOCK_TIME).

(** ** More notions used in the statements *)

(** The format of the deployment argument at each position. *)
Definition deployment_formats : list string :=
  [ "hex"; "uint64"; "uint64"; "uint64"; "byte"; "byte"; "uint64"; "dna";
    "byte"; "dna"; "hex" ]%string.

(** A free voting without custom owner address that leaves the winner
    threshold and the owner fee to their defaults, and its slice. *)
Definition example_voting : Voting :=
  {| v_fact_json := "{}"; v_start_unix := "1700000000";
     v_votingDuration := JsOther (Some "4320"%string);
     v_publicVotingDuration := JsOther (Some "2160"%string);
     v_winnerThreshold := JsUndefined;
     v_quorum := JsOther (Some "20"%string);
     v_committeeSize := JsOther (Some "100"%string);
     v_votingMinPayment := JsStr "2.5";
     v_ownerFee := JsUndefined;
     v_isFreeVoting := true;
     v_isCustomOwnerAddress := false;
     v_ownerAddress := JsStr "0xab";
     v_rewardsFund := JsStr "1000" |}.

Definition example_deployment_slice : list Slot :=
  [ Bytes [123; 125]; Bytes [0; 241; 83; 101; 0; 0; 0; 0];
    Bytes [224; 16; 0; 0; 0; 0; 0; 0]; Bytes [112; 8; 0; 0; 0; 0; 0; 0];
    Bytes [66]; Bytes [20]; Bytes [100; 0; 0; 0; 0; 0; 0; 0];
    Bytes [0]; Bytes [0]; Bytes [54; 53; 201; 173; 197; 222; 160; 0; 0] ].

(** A node that accepts the submission with a transaction hash. *)
Definition accepting_node : Node :=
  {| submission := inr "0xf00d"%string; read_startBlock := None;
     read_votingDuration := None; prolong_succeeds := false |}.

(** * Properties *)

(** ** The models of the JavaScript operations on some inputs *)

Lemma ceil_examples :
  let q a b := JsNumber.div (JsNumber.of_Z a) (JsNumber.of_Z b) in
  JsNumber.ceil (q 3 2) = JsNumber.of_Z 2
  ∧ JsNumber.ceil (q (-3) 2) = JsNumber.of_Z (-1)
  ∧ JsNumber.ceil (q (-1) 2) = S754_zero true
  ∧ JsNumber.ceil (q 1 3) = JsNumber.of_Z 1
  ∧ JsNumber.ceil (JsNumber.of_Z 7) = JsNumber.of_Z 7
  ∧ JsNumber.ceil (JsNumber.of_Z (2 ^ 60 + 2 ^ 10)) = JsNumber.of_Z (2 ^ 60 + 2 ^ 10)
  ∧ JsNumber.ceil JsNumber.NaN = JsNumber.NaN.
Proof. by vm_compute. Qed.

Lemma max_examples :
  JsNumber.max (JsNumber.of_Z 40) (JsNumber.of_Z 50) = JsNumber.of_Z 50
  ∧ JsNumber.max (JsNumber.of_Z 50) (JsNumber.of_Z 40) = JsNumber.of_Z 50
  ∧ JsNumber.max (S754_zero true) (S754_zero false) = S754_zero false
  ∧ JsNumber.max (JsNumber.of_Z 1) JsNumber.NaN = JsNumber.NaN.
Proof. by vm_compute. Qed.

Lemma parseInt10_examples :
  JsString.parseInt10 " 12abc" = Some 12
  ∧ JsString.parseInt10 "-1" = Some (-1)
  ∧ JsString.parseInt10 "+7" = Some 7
  ∧ JsString.parseInt10 "1.9" = Some 1
  ∧ JsString.parseInt10 "0x10" = Some 0
  ∧ JsString.parseInt10 "abc" = None
  ∧ JsString.parseInt10 "" = None.
Proof. by vm_compute. Qed.

Lemma BN_new_examples :
  BN.new "258" = Some (BN.Int 258)
  ∧ BN.new " -0 " = Some (BN.Int 0)
  ∧ BN.new "-" = Some (BN.NoWords true)
  ∧ BN.new " " = Some (BN.NoWords false)
  ∧ BN.new "" = Some (BN.Int 0)
  ∧ BN.new "1.5" = None
  ∧ BN.toArray (BN.Int 258) = Some [1; 2]
  ∧ BN.toArray_le (BN.Int 0) = Some [0].
Proof. by vm_compute. Qed.

Lemma DecimalJs_toString_examples :
  DecimalJs.toString <$> DecimalJs.new "123.456" = Some "123.456"%string
  ∧ DecimalJs.toString <$> DecimalJs.new "123456e-3" = Some "123.456"%string
  ∧ DecimalJs.toString <$> DecimalJs.new "12e3" = Some "12000"%string
  ∧ DecimalJs.toString <$> DecimalJs.new "0.000000123" = Some "1.23e-7"%string
  ∧ DecimalJs.toString <$> DecimalJs.new "-0.00" = Some "0"%string
  ∧ DecimalJs.toString <$> DecimalJs.new "5." = Some "5"%string
  ∧ DecimalJs.toString <$> DecimalJs.new "+1.5" = Some "1.5"%string
  ∧ DecimalJs.toString <$> DecimalJs.new "-Infinity" = Some "-Infinity"%string
  ∧ DecimalJs.toString <$> DecimalJs.new "0x10" = Some "16"%string
  ∧ DecimalJs.toString <$> DecimalJs.new "-0XfF.8" = Some "-255.5"%string
  ∧ DecimalJs.toString <$> DecimalJs.new "0b101.01p3" = Some "42"%string
  ∧ DecimalJs.toString <$> DecimalJs.new "0o17p-2" = Some "3.75"%string
  ∧ DecimalJs.toString <$> DecimalJs.new "0x1p-24"
    = Some "5.960464477539063e-8"%string
  ∧ DecimalJs.toString <$> DecimalJs.new "-0x0.0" = Some "0"%string
  ∧ DecimalJs.toString <$> DecimalJs.new "NaN" = Some "NaN"%string
  ∧ DecimalJs.new "." = None
  ∧ DecimalJs.new "1e" = None
  ∧ DecimalJs.new "0x" = None
  ∧ DecimalJs.new "0b12" = None
  ∧ DecimalJs.new "abc" = None.
Proof. by vm_compute. Qed.

(** ** Arithmetic of binary64 on integers *)

Lemma digits2_pos_bounds p :
  2 ^ (Z.pos (digits2_pos p) - 1) ≤ Z.pos p < 2 ^ Z.pos (digits2_pos p).
Proof.
  induction p as [p IH|p IH|]; simpl digits2_pos.
  - rewrite Pos2Z.inj_succ.
    replace (Z.succ (Z.pos (digits2_pos p)) - 1) with (Z.succ (Z.pos (digits2_pos p) - 1)) by lia.
    rewrite !Z.pow_succ_r by lia. lia.
  - rewrite Pos2Z.inj_succ.
    replace (Z.succ (Z.pos (digits2_pos p)) - 1) with (Z.succ (Z.pos (digits2_pos p) - 1)) by lia.
    rewrite !Z.pow_succ_r by lia. lia.
  - simpl. lia.
Qed.

Lemma digits2_pos_unique p d :
  2 ^ (d - 1) ≤ Z.pos p < 2 ^ d → Z.pos (digits2_pos p) = d.
Proof.
  intros [Hlo Hhi]. pose proof (digits2_pos_bounds p) as [Hlo' Hhi'].
  assert (0 < d).
  { destruct (Z.ltb_spec 0 d); [done|]. exfalso.
    destruct (decide (d = 0)) as [->|]; [simpl in Hhi; lia|].
    rewrite Z.pow_neg_r in Hhi by lia. lia. }
  destruct (Z.lt_trichotomy (Z.pos (digits2_pos p)) d) as [Hlt|[Heq|Hgt]]; [|done|].
  - assert (2 ^ Z.pos (digits2_pos p) ≤ 2 ^ (d - 1)) by (apply Z.pow_le_mono_r; lia). lia.
  - assert (2 ^ d ≤ 2 ^ (Z.pos (digits2_pos p) - 1)) by (apply Z.pow_le_mono_r; lia). lia.
Qed.

Lemma iter_pos_nat {A} (f : A → A) p x :
  SpecFloat.iter_pos f p x = @Nat.iter (Pos.to_nat p) _ f x.
Proof.
  revert x. induction p as [p IH|p IH|]; intros x; cbn [SpecFloat.iter_pos].
  - rewrite !IH, Pos2Nat.inj_xI.
    rewrite <- Nat.iter_succ_r, <- Nat.iter_add. f_equal. lia.
  - rewrite !IH, Pos2Nat.inj_xO, <- Nat.iter_add. f_equal. lia.
  - done.
Qed.

Lemma shr_1_nonneg m r s :
  0 ≤ m →
  shr_1 {| shr_m := m; shr_r := r; shr_s := s |}
  = {| shr_m := Z.div2 m; shr_r := Z.odd m; shr_s := r || s |}.
Proof. intros Hm. destruct m as [|[p|p|]|]; try done; lia. Qed.

(** [k + 1] right shifts of [m]. *)
Lemma iter_shr_1 m k :
  0 ≤ m →
  @Nat.iter (S k) _ shr_1 {| shr_m := m; shr_r := false; shr_s := false |}
  = {| shr_m := m / 2 ^ Z.of_nat (S k);
       shr_r := Z.odd (m / 2 ^ Z.of_nat k);
       shr_s := negb (m mod 2 ^ Z.of_nat k =? 0) |}.
Proof.
  intros Hm. induction k as [|k IH].
  - change (@Nat.iter 1 _ shr_1 ?x) with (shr_1 x).
    rewrite shr_1_nonneg by done.
    change (2 ^ Z.of_nat 1) with 2. change (2 ^ Z.of_nat 0) with 1.
    rewrite Z.div2_div, Z.div_1_r, Z.mod_1_r. done.
  - rewrite Nat.iter_succ, IH.
    set (P := 2 ^ Z.of_nat k).
    assert (0 < P) by (apply Z.pow_pos_nonneg; lia).
    assert (2 ^ Z.of_nat (S k) = 2 * P) as E1
      by (unfold P; rewrite Nat2Z.inj_succ, Z.pow_succ_r; lia).
    assert (2 ^ Z.of_nat (S (S k)) = 2 * P * 2) as E2
      by (rewrite (Nat2Z.inj_succ (S k)), Z.pow_succ_r, E1; lia).
    rewrite E1, E2.
    rewrite shr_1_nonneg by (apply Z.div_pos; lia).
    f_equal.
    + rewrite Z.div2_div, Z.div_div by lia. done.
    + pose proof (Z.div_mod m P ltac:(lia)) as Hdm.
      pose proof (Z.mod_pos_bound m P ltac:(lia)) as Hr.
      pose proof (Z.div_mod (m / P) 2 ltac:(lia)) as Hdm2.
      pose proof (Z.mod_pos_bound (m / P) 2 ltac:(lia)) as Hr2.
      assert (m mod (2 * P) = P * ((m / P) mod 2) + m mod P) as Hmod.
      { symmetry. apply (Z.mod_unique_pos _ _ ((m / P) / 2)); [nia|]. nia. }
      rewrite Hmod, Zodd_mod.
      destruct (Z.eqb_spec ((m / P) mod 2) 1) as [H1|H1];
        destruct (Z.eqb_spec (m mod P) 0) as [H0|H0]; simpl;
        symmetry; try (apply negb_true_iff, Z.eqb_neq; nia);
        apply negb_false_iff, Z.eqb_eq; nia.
Qed.

Lemma fexp64_eq e : fexp64 e = Z.max (e - 53) (-1074).
Proof. reflexivity. Qed.

(** No shift when the mantissa has 53 digits. *)
Lemma shr_fexp_53 m e l :
  Zdigits2 m = 53 → -1074 ≤ e →
  shr_fexp 53 1024 m e l = (shr_record_of_loc m l, e).
Proof.
  intros Hd He. unfold shr_fexp. rewrite Hd.
  change (fexp 53 1024 (53 + e)) with (fexp64 (53 + e)).
  rewrite fexp64_eq.
  replace (Z.max (53 + e - 53) (-1074) - e) with 0 by lia.
  reflexivity.
Qed.

(** A shift by [s] when the mantissa has [53 + s] digits. *)
Lemma shr_fexp_shift m e (sp : positive) :
  0 ≤ m → Zdigits2 m = 53 + Z.pos sp → -1074 ≤ e + Z.pos sp →
  shr_fexp 53 1024 m e loc_Exact
  = ({| shr_m := m / 2 ^ Z.pos sp;
        shr_r := Z.odd (m / 2 ^ (Z.pos sp - 1));
        shr_s := negb (m mod 2 ^ (Z.pos sp - 1) =? 0) |}, e + Z.pos sp).
Proof.
  intros Hm Hd He. unfold shr_fexp. rewrite Hd.
  change (fexp 53 1024 (53 + Z.pos sp + e)) with (fexp64 (53 + Z.pos sp + e)).
  rewrite fexp64_eq.
  replace (Z.max (53 + Z.pos sp + e - 53) (-1074) - e) with (Z.pos sp) by lia.
  unfold shr. f_equal.
  rewrite iter_pos_nat. simpl shr_record_of_loc.
  destruct (Pos2Nat.is_succ sp) as [k Hk]. rewrite Hk.
  rewrite iter_shr_1 by done.
  assert (Z.pos sp = Z.of_nat (S k)) as -> by lia.
  replace (Z.of_nat (S k) - 1) with (Z.of_nat k) by lia. done.
Qed.

(** Rounding to nearest even after a shift by [s] digits is off by at
    most half a unit. *)
Lemma round_nearest_even_bound m s :
  0 ≤ m → 0 < s →
  let Q := round_nearest_even (m / 2 ^ s)
             (loc_of_shr_record
                {| shr_m := m / 2 ^ s;
                   shr_r := Z.odd (m / 2 ^ (s - 1));
                   shr_s := negb (m mod 2 ^ (s - 1) =? 0) |}) in
  m / 2 ^ s ≤ Q ≤ m / 2 ^ s + 1
  ∧ 2 * m - 2 ^ s ≤ 2 * (Q * 2 ^ s) ≤ 2 * m + 2 ^ s.
Proof.
  intros Hm Hs.
  set (h := 2 ^ (s - 1)).
  assert (0 < h) by (apply Z.pow_pos_nonneg; lia).
  assert (2 ^ s = 2 * h) as ->.
  { unfold h. rewrite <- Z.pow_succ_r by lia. f_equal. lia. }
  pose proof (Z.div_mod m h ltac:(lia)) as Hdm.
  pose proof (Z.mod_pos_bound m h ltac:(lia)) as Hr.
  pose proof (Z.div_mod (m / h) 2 ltac:(lia)) as Hdm2.
  pose proof (Z.mod_pos_bound (m / h) 2 ltac:(lia)) as Hr2.
  assert (m / (2 * h) = m / h / 2) as Hq
    by (rewrite Z.div_div by lia; f_equal; lia).
  rewrite Hq, Zodd_mod. simpl loc_of_shr_record.
  destruct (Z.eqb_spec ((m / h) mod 2) 1) as [H1|H1];
    destruct (Z.eqb_spec (m mod h) 0) as [H0|H0]; simpl;
    try destruct (Z.even (m / h / 2)); nia.
Qed.

Lemma Zdigits2_unique m d :
  2 ^ (d - 1) ≤ m < 2 ^ d → 0 < m → Zdigits2 m = d.
Proof.
  intros Hb Hm. destruct m as [|p|p]; try lia.
  simpl. by apply digits2_pos_unique.
Qed.

Lemma binary_round_aux_53 (mz : positive) ez :
  Z.pos (digits2_pos mz) = 53 → -1074 ≤ ez ≤ 971 →
  binary_round_aux 53 1024 false (Z.pos mz) ez loc_Exact
  = S754_finite false mz ez.
Proof.
  intros Hd He. unfold binary_round_aux.
  rewrite shr_fexp_53 by (simpl; lia). simpl.
  rewrite shr_fexp_53 by (simpl; lia). simpl.
  change (1024 - 53) with 971.
  destruct (Z.leb_spec ez 971); [done|lia].
Qed.

Lemma binary_round_aux_shift (P : positive) e (sp : positive) :
  Z.pos (digits2_pos P) = 53 + Z.pos sp →
  -1074 ≤ e + Z.pos sp → e + Z.pos sp + 1 ≤ 971 →
  ∃ Q m'' e'',
    binary_round_aux 53 1024 false (Z.pos P) e loc_Exact
    = S754_finite false m'' e''
    ∧ 2 * Z.pos P - 2 ^ Z.pos sp ≤ 2 * (Q * 2 ^ Z.pos sp)
      ≤ 2 * Z.pos P + 2 ^ Z.pos sp
    ∧ ((Z.pos m'' = Q ∧ e'' = e + Z.pos sp)
       ∨ (2 * Z.pos m'' = Q ∧ e'' = e + Z.pos sp + 1 ∧ Q = 2 ^ 53)).
Proof.
  intros Hd He1 He2. unfold binary_round_aux.
  rewrite (shr_fexp_shift (Z.pos P) e sp) by (simpl; lia).
  cbn [shr_m].
  pose proof (round_nearest_even_bound (Z.pos P) (Z.pos sp) ltac:(lia) ltac:(lia))
    as [HQ Hbound].
  set (Q := round_nearest_even _ _) in *.
  pose proof (digits2_pos_bounds P) as [Hlo Hhi]. rewrite Hd in Hlo, Hhi.
  assert (0 < 2 ^ Z.pos sp) as Hpow by (apply Z.pow_pos_nonneg; lia).
  assert (2 ^ 52 ≤ Z.pos P / 2 ^ Z.pos sp < 2 ^ 53) as Hq.
  { replace (53 + Z.pos sp - 1) with (52 + Z.pos sp) in Hlo by lia.
    rewrite Z.pow_add_r in Hlo, Hhi by lia.
    split.
    - apply Z.div_le_lower_bound; lia.
    - apply Z.div_lt_upper_bound; lia. }
  destruct (decide (Q = 2 ^ 53)) as [HQ53|HQne].
  - exists Q, (2 ^ 52)%positive, (e + Z.pos sp + 1).
    rewrite HQ53.
    rewrite (shr_fexp_shift (2 ^ 53) (e + Z.pos sp) 1) by (done || lia).
    simpl. change (1024 - 53) with 971.
    destruct (Z.leb_spec (e + Z.pos sp + 1) 971); [|lia].
    rewrite <- HQ53. split; [done|]. split; [done|]. right. rewrite HQ53. done.
  - assert (Zdigits2 Q = 53) as HdQ by (apply Zdigits2_unique; lia).
    rewrite shr_fexp_53 by (done || lia). simpl.
    destruct Q as [|q|q] eqn:EQ; try lia.
    exists (Z.pos q), q, (e + Z.pos sp).
    change (1024 - 53) with 971.
    destruct (Z.leb_spec (e + Z.pos sp) 971); [|lia].
    split; [done|]. split; [done|]. left. done.
Qed.

Lemma nat_iter_xO (p : positive) (j : nat) :
  Z.pos (nat_rect (λ _, positive) p (λ _, xO) j) = Z.pos p * 2 ^ Z.of_nat j.
Proof.
  induction j as [|j IH].
  - simpl. lia.
  - rewrite Nat2Z.inj_succ, Z.pow_succ_r by lia.
    cbn [nat_rect]. rewrite Pos2Z.inj_xO, IH. lia.
Qed.

Lemma pos_iter_xO p k : Z.pos (Pos.iter xO p k) = Z.pos p * 2 ^ Z.pos k.
Proof.
  rewrite Pos2Nat.inj_iter, nat_iter_xO. f_equal. f_equal. lia.
Qed.

Lemma shl_align_spec mx ex ex' :
  ex' ≤ ex →
  ∃ mz, shl_align mx ex ex' = (mz, ex')
        ∧ Z.pos mz = Z.pos mx * 2 ^ (ex - ex').
Proof.
  intros Hle. unfold shl_align.
  destruct (ex' - ex) as [|k|k] eqn:E; try lia.
  - exists mx. assert (ex' = ex) as -> by lia.
    rewrite Z.sub_diag. split; [done|]. simpl. lia.
  - exists (Pos.iter xO mx k). split; [done|].
    rewrite pos_iter_xO. f_equal. f_equal. lia.
Qed.

(** The number a positive integer below 2^53 denotes. *)
Lemma of_Z_pos (p : positive) :
  Z.pos (digits2_pos p) ≤ 53 →
  ∃ mz, JsNumber.of_Z (Z.pos p)
        = S754_finite false mz (Z.pos (digits2_pos p) - 53)
        ∧ Z.pos mz = Z.pos p * 2 ^ (53 - Z.pos (digits2_pos p))
        ∧ Z.pos (digits2_pos mz) = 53.
Proof.
  intros Hd. unfold JsNumber.of_Z, binary_normalize, binary_round.
  change (fexp JsNumber.prec JsNumber.emax (Z.pos (digits2_pos p) + 0))
    with (fexp64 (Z.pos (digits2_pos p) + 0)).
  rewrite fexp64_eq.
  replace (Z.max (Z.pos (digits2_pos p) + 0 - 53) (-1074))
    with (Z.pos (digits2_pos p) - 53) by lia.
  destruct (shl_align_spec p 0 (Z.pos (digits2_pos p) - 53) ltac:(lia))
    as (mz & -> & Hmz).
  replace (0 - (Z.pos (digits2_pos p) - 53))
    with (53 - Z.pos (digits2_pos p)) in Hmz by lia.
  assert (Z.pos (digits2_pos mz) = 53) as Hdz.
  { apply digits2_pos_unique. rewrite Hmz.
    pose proof (digits2_pos_bounds p) as [Hlo Hhi].
    set (d := Z.pos (digits2_pos p)) in *.
    assert (0 < 2 ^ (53 - d)) by (apply Z.pow_pos_nonneg; lia).
    replace (2 ^ (53 - 1)) with (2 ^ (d - 1) * 2 ^ (53 - d))
      by (rewrite <- Z.pow_add_r by lia; f_equal; lia).
    replace (2 ^ 53) with (2 ^ d * 2 ^ (53 - d))
      by (rewrite <- Z.pow_add_r by lia; f_equal; lia).
    nia. }
  exists mz. split; [|done].
  apply binary_round_aux_53; [done|lia].
Qed.

(** The ceiling [- (- a / b)] of [a / b]. *)
Lemma ceil_div_bounds a b :
  0 < b → (- (- a / b) - 1) * b < a ≤ - (- a / b) * b.
Proof.
  intros Hb.
  pose proof (Z.div_mod (- a) b ltac:(lia)).
  pose proof (Z.mod_pos_bound (- a) b ltac:(lia)). nia.
Qed.

Lemma exact_ceil_110_bounds n :
  11 * n ≤ 10 * exact_ceil_110 n ≤ 11 * n + 9.
Proof.
  unfold exact_ceil_110.
  pose proof (Z.div_mod (- (n * 11)) 10 ltac:(lia)).
  pose proof (Z.mod_pos_bound (- (n * 11)) 10 ltac:(lia)). lia.
Qed.

(** The product of a positive integer below 2^48 by the literal 1.1,
    rounded up to an integer. *)
Lemma ceil_mul_lit_1_1 (p : positive) :
  Z.pos p < 2 ^ 48 →
  ∃ z, JsNumber.ceil (JsNumber.mul (JsNumber.of_Z (Z.pos p)) JsNumber.lit_1_1)
       = JsNumber.of_Z z
       ∧ exact_ceil_110 (Z.pos p) ≤ z ≤ exact_ceil_110 (Z.pos p) + 1
       ∧ (Z.pos p mod 10 ≠ 0 → z = exact_ceil_110 (Z.pos p)).
Proof.
  intros Hp.
  pose proof (digits2_pos_bounds p) as [Hplo Hphi].
  set (d := Z.pos (digits2_pos p)) in *.
  assert (1 ≤ d ≤ 48) as Hd.
  { split; [unfold d; lia|].
    destruct (Z.le_gt_cases d 48) as [|Hgt]; [done|].
    assert (2 ^ 48 ≤ 2 ^ (d - 1)) by (apply Z.pow_le_mono_r; lia). lia. }
  destruct (of_Z_pos p ltac:(fold d; lia)) as (mz & Hof & Hmz & Hdz).
  fold d in Hof, Hmz. rewrite Hof.
  unfold JsNumber.mul, JsNumber.lit_1_1, SFmul, JsNumber.prec, JsNumber.emax.
  cbn [xorb].
  set (M := 4953959590107546%positive).
  set (K := 2 ^ (53 - d)) in *.
  assert (0 < K) as HK by (apply Z.pow_pos_nonneg; lia).
  assert (Z.pos p * K < 2 ^ 53) as HnK.
  { replace (2 ^ 53) with (2 ^ d * K)
      by (unfold K; rewrite <- Z.pow_add_r by lia; f_equal; lia).
    nia. }
  assert (2 ^ 52 ≤ Z.pos p * K) as HnK'.
  { replace (2 ^ 52) with (2 ^ (d - 1) * K)
      by (unfold K; rewrite <- Z.pow_add_r by lia; f_equal; lia).
    nia. }
  assert (Z.pos (mz * M) = Z.pos p * K * Z.pos M) as HP
    by (rewrite Pos2Z.inj_mul, Hmz; done).
  assert (10 * Z.pos M = 11 * 2 ^ 52 + 4) as HM by reflexivity.
  assert (2 ^ 104 ≤ Z.pos (mz * M) < 2 ^ 106) as HPb.
  { rewrite HP. change (2 ^ 104) with (2 ^ 52 * 2 ^ 52).
    change (2 ^ 106) with (2 ^ 53 * 2 ^ 53).
    assert (2 ^ 52 ≤ Z.pos M < 2 ^ 53) by (split; reflexivity || done).
    nia. }
  assert (∃ sp : positive,
            Z.pos (digits2_pos (mz * M)) = 53 + Z.pos sp
            ∧ 52 ≤ Z.pos sp ≤ 53) as (sp & HdP & Hsp).
  { destruct (Z.lt_ge_cases (Z.pos (mz * M)) (2 ^ 105)) as [Hlt|Hge].
    - exists 52%positive. split; [|lia].
      apply digits2_pos_unique. split; [apply HPb|apply Hlt].
    - exists 53%positive. split; [|lia].
      apply digits2_pos_unique. split; [apply Hge|apply HPb]. }
  destruct (binary_round_aux_shift (mz * M) (d - 53 + -52) sp HdP
              ltac:(lia) ltac:(lia))
    as (Q & m'' & e'' & -> & HQ & Hrep).
  set (s := Z.pos sp) in *.
  set (T := 105 - d - s).
  assert (0 < 2 ^ s) as HS by (apply Z.pow_pos_nonneg; lia).
  assert (16 ≤ 2 ^ T) as HB.
  { change 16 with (2 ^ 4). apply Z.pow_le_mono_r; unfold T; lia. }
  assert (2 ^ s * 2 ^ T = 2 ^ 52 * K) as HD.
  { unfold K, T. rewrite <- !Z.pow_add_r by lia. f_equal. lia. }
  assert (2 ^ s ≤ 2 ^ 53) as HS53 by (apply Z.pow_le_mono_r; lia).
  pose proof (exact_ceil_110_bounds (Z.pos p)) as HE.
  set (E := exact_ceil_110 (Z.pos p)) in *.
  set (n := Z.pos p) in *.
  set (S' := 2 ^ s) in *. set (B := 2 ^ T) in *.
  (* the rounded product lies strictly above E - 1 and at most at E + 1 *)
  assert ((E - 1) * B < Q ≤ (E + 1) * B) as HQE.
  { rewrite HP in HQ. change (2 ^ 52) with 4503599627370496 in *.
    change (2 ^ 53) with 9007199254740992 in *.
    split.
    - destruct (Z.lt_ge_cases ((E - 1) * B) Q) as [|Hc]; [done|exfalso].
      assert (2 * (Q * S') ≤ 2 * ((E - 1) * (S' * B))) by nia.
      nia.
    - destruct (Z.le_gt_cases Q ((E + 1) * B)) as [|Hc]; [done|exfalso].
      assert (2 * ((E + 1) * (S' * B)) + 2 * S' ≤ 2 * (Q * S')) by nia.
      nia. }
  assert (n mod 10 ≠ 0 → Q ≤ E * B) as HQE'.
  { intros Hmod.
    assert (11 * n + 1 ≤ 10 * E) as HE'.
    { destruct (Z.le_gt_cases (11 * n + 1) (10 * E)) as [|Hc]; [done|exfalso].
      assert (10 * E = 11 * n) as Heq by lia.
      apply Hmod. replace n with (10 * (E - n)) by lia.
      by rewrite Z.mul_comm, Z.mod_mul by lia. }
    assert (32 ≤ K) as HK32.
    { unfold K. change 32 with (2 ^ 5). apply Z.pow_le_mono_r; lia. }
    rewrite HP in HQ. change (2 ^ 52) with 4503599627370496 in *.
    change (2 ^ 53) with 9007199254740992 in *.
    destruct (Z.le_gt_cases Q (E * B)) as [|Hc]; [done|exfalso].
    assert (2 * (E * (S' * B)) + 2 * S' ≤ 2 * (Q * S')) by nia.
    nia. }
  assert (1 ≤ E) as HE1 by lia.
  unfold JsNumber.ceil.
  destruct Hrep as [[Hm He]|[Hm [He _]]].
  - assert (e'' = - T) as -> by (unfold T; lia).
    destruct (Z.leb_spec 0 (- T)); [unfold T in *; lia|].
    cbn [cond_Zopp]. rewrite Z.shiftr_div_pow2, Z.opp_involutive by (unfold T; lia).
    fold B. rewrite Hm.
    pose proof (ceil_div_bounds Q B ltac:(lia)) as Hz.
    set (z := - (- Q / B)) in *.
    assert (E ≤ z ≤ E + 1) as HzE by nia.
    assert (n mod 10 ≠ 0 → z = E) as HzE'.
    { intros Hmod. specialize (HQE' Hmod). nia. }
    destruct (Z.eqb_spec z 0); [lia|]. eauto.
  - assert (e'' = - (T - 1)) as -> by (unfold T; lia).
    destruct (Z.leb_spec 0 (- (T - 1))); [unfold T in *; lia|].
    cbn [cond_Zopp]. rewrite Z.shiftr_div_pow2, Z.opp_involutive by (unfold T; lia).
    assert (B = 2 * 2 ^ (T - 1)) as HB2.
    { unfold B. rewrite <- Z.pow_succ_r by (unfold T; lia). f_equal. lia. }
    set (B2 := 2 ^ (T - 1)) in *.
    pose proof (ceil_div_bounds (Z.pos m'') B2 ltac:(lia)) as Hz.
    set (z := - (- Z.pos m'' / B2)) in *.
    assert (E ≤ z ≤ E + 1) as HzE by nia.
    assert (n mod 10 ≠ 0 → z = E) as HzE'.
    { intros Hmod. specialize (HQE' Hmod). nia. }
    destruct (Z.eqb_spec z 0); [lia|]. eauto.
Qed.

Lemma shl_align_none mx ex ex' : ex ≤ ex' → shl_align mx ex ex' = (mx, ex).
Proof.
  intros Hle. unfold shl_align.
  destruct (ex' - ex) as [|k|k] eqn:E; try done; lia.
Qed.

(** Rounding the integer [c < 2^53], given as [sm * 2^ez] with [ez <= 0],
    gives the number of [c]. *)
Lemma binary_round_integer (sm : positive) (ez c : Z) :
  -1000 ≤ ez ≤ 0 → 0 < c < 2 ^ 53 → Z.pos sm = c * 2 ^ (- ez) →
  binary_round 53 1024 false sm ez = JsNumber.of_Z c.
Proof.
  intros Hez Hc Hsm.
  destruct c as [|pc|pc]; try lia.
  pose proof (digits2_pos_bounds pc) as [Hclo Hchi].
  set (dc := Z.pos (digits2_pos pc)) in *.
  assert (1 ≤ dc ≤ 53) as Hdc.
  { split; [unfold dc; lia|].
    destruct (Z.le_gt_cases dc 53) as [|Hgt]; [done|].
    assert (2 ^ 53 ≤ 2 ^ (dc - 1)) by (apply Z.pow_le_mono_r; lia). lia. }
  destruct (of_Z_pos pc ltac:(fold dc; lia)) as (mzc & -> & Hmzc & Hdz).
  fold dc in Hmzc |- *.
  assert (0 < 2 ^ (- ez)) as Hpow by (apply Z.pow_pos_nonneg; lia).
  assert (Z.pos (digits2_pos sm) = dc - ez) as HdS.
  { apply digits2_pos_unique. rewrite Hsm.
    replace (2 ^ (dc - ez - 1)) with (2 ^ (dc - 1) * 2 ^ (- ez))
      by (rewrite <- Z.pow_add_r by lia; f_equal; lia).
    replace (2 ^ (dc - ez)) with (2 ^ dc * 2 ^ (- ez))
      by (rewrite <- Z.pow_add_r by lia; f_equal; lia).
    nia. }
  unfold binary_round. rewrite HdS.
  change (fexp 53 1024 (dc - ez + ez)) with (fexp64 (dc - ez + ez)).
  rewrite fexp64_eq.
  replace (Z.max (dc - ez + ez - 53) (-1074)) with (dc - 53) by lia.
  destruct (Z.le_gt_cases (dc - 53) ez) as [Hle|Hgt].
  - destruct (shl_align_spec sm ez (dc - 53) Hle) as (mz & -> & Hmz).
    assert (mz = mzc) as ->.
    { apply Pos2Z.inj. rewrite Hmz, Hmzc, Hsm, <- Z.mul_assoc.
      f_equal. rewrite <- Z.pow_add_r by lia. f_equal. lia. }
    apply binary_round_aux_53; [done|lia].
  - rewrite shl_align_none by lia.
    set (s := dc - 53 - ez).
    destruct s as [|sp|sp] eqn:Es; try lia.
    destruct (binary_round_aux_shift sm ez sp) as (Q & m'' & e'' & -> & HQ & Hrep);
      [lia|lia|lia|].
    assert (0 < 2 ^ Z.pos sp) as HS by (apply Z.pow_pos_nonneg; lia).
    assert (Z.pos sm = Z.pos mzc * 2 ^ Z.pos sp) as Hsm'.
    { rewrite Hsm, Hmzc, <- Z.mul_assoc. f_equal.
      rewrite <- Z.pow_add_r by lia. f_equal. lia. }
    assert (Q = Z.pos mzc) as HQeq by nia.
    pose proof (digits2_pos_bounds mzc) as [_ Hmhi]. rewrite Hdz in Hmhi.
    destruct Hrep as [[Hm He]|[Hm [He HQ53]]]; [|lia].
    f_equal; [|lia]. apply Pos2Z.inj. lia.
Qed.

(** The sum of two non-negative integers is exact as long as it stays
    below 2^53. *)
Lemma add_of_Z (a b : Z) :
  0 ≤ a → 0 ≤ b → a + b < 2 ^ 53 →
  JsNumber.add (JsNumber.of_Z a) (JsNumber.of_Z b) = JsNumber.of_Z (a + b).
Proof.
  intros Ha Hb Hab.
  destruct a as [|pa|pa]; [|destruct b as [|pb|pb]|]; try lia.
  - destruct b as [|pb|pb]; try lia; [reflexivity|].
    destruct (of_Z_pos pb) as (mb & Hofb & _).
    { pose proof (digits2_pos_bounds pb) as [Hlo _].
      destruct (Z.le_gt_cases (Z.pos (digits2_pos pb)) 53) as [|Hgt]; [done|].
      assert (2 ^ 53 ≤ 2 ^ (Z.pos (digits2_pos pb) - 1))
        by (apply Z.pow_le_mono_r; lia). lia. }
    rewrite Z.add_0_l, Hofb. reflexivity.
  - rewrite Z.add_0_r.
    destruct (of_Z_pos pa) as (ma & Hofa & _).
    { pose proof (digits2_pos_bounds pa) as [Hlo _].
      destruct (Z.le_gt_cases (Z.pos (digits2_pos pa)) 53) as [|Hgt]; [done|].
      assert (2 ^ 53 ≤ 2 ^ (Z.pos (digits2_pos pa) - 1))
        by (apply Z.pow_le_mono_r; lia). lia. }
    rewrite Hofa. reflexivity.
  - pose proof (digits2_pos_bounds pa) as [Halo Hahi].
    pose proof (digits2_pos_bounds pb) as [Hblo Hbhi].
    set (da := Z.pos (digits2_pos pa)) in *.
    set (db := Z.pos (digits2_pos pb)) in *.
    assert (1 ≤ da ≤ 53) as Hda.
    { split; [unfold da; lia|].
      destruct (Z.le_gt_cases da 53) as [|Hgt]; [done|].
      assert (2 ^ 53 ≤ 2 ^ (da - 1)) by (apply Z.pow_le_mono_r; lia). lia. }
    assert (1 ≤ db ≤ 53) as Hdb.
    { split; [unfold db; lia|].
      destruct (Z.le_gt_cases db 53) as [|Hgt]; [done|].
      assert (2 ^ 53 ≤ 2 ^ (db - 1)) by (apply Z.pow_le_mono_r; lia). lia. }
    destruct (of_Z_pos pa ltac:(fold da; lia)) as (ma & Hofa & Hma & _).
    destruct (of_Z_pos pb ltac:(fold db; lia)) as (mb & Hofb & Hmb & _).
    fold da in Hofa, Hma. fold db in Hofb, Hmb.
    rewrite Hofa, Hofb.
    unfold JsNumber.add, SFadd, JsNumber.prec, JsNumber.emax. cbn [cond_Zopp].
    set (ez := Z.min (da - 53) (db - 53)).
    destruct (shl_align_spec ma (da - 53) ez ltac:(unfold ez; lia))
      as (ma' & -> & Hma').
    destruct (shl_align_spec mb (db - 53) ez ltac:(unfold ez; lia))
      as (mb' & -> & Hmb').
    cbn [fst]. change (Z.pos ma' + Z.pos mb') with (Z.pos (ma' + mb')).
    unfold binary_normalize.
    apply binary_round_integer; [unfold ez; lia|lia|].
    rewrite Pos2Z.inj_add, Hma', Hmb', Hma, Hmb.
    rewrite <- !Z.mul_assoc, <- !Z.pow_add_r by (unfold ez; lia).
    replace (53 - da + (da - 53 - ez)) with (- ez) by lia.
    replace (53 - db + (db - 53 - ez)) with (- ez) by lia.
    lia.
Qed.

(** Rounding is exact on a mantissa whose digits past the 53rd are zero. *)
Lemma binary_round_aux_exact (P mz : positive) (e : Z) (sp : positive) :
  Z.pos (digits2_pos mz) = 53 →
  Z.pos P = Z.pos mz * 2 ^ Z.pos sp →
  -1074 ≤ e + Z.pos sp → e + Z.pos sp + 1 ≤ 971 →
  binary_round_aux 53 1024 false (Z.pos P) e loc_Exact
  = S754_finite false mz (e + Z.pos sp).
Proof.
  intros Hdz HP He1 He2.
  assert (0 < 2 ^ Z.pos sp) as HS by (apply Z.pow_pos_nonneg; lia).
  pose proof (digits2_pos_bounds mz) as [Hmlo Hmhi]. rewrite Hdz in Hmlo, Hmhi.
  assert (Z.pos (digits2_pos P) = 53 + Z.pos sp) as HdP.
  { apply digits2_pos_unique. rewrite HP.
    replace (53 + Z.pos sp - 1) with (52 + Z.pos sp) by lia.
    rewrite !Z.pow_add_r by lia. change (53 - 1) with 52 in Hmlo. nia. }
  destruct (binary_round_aux_shift P e sp HdP He1 He2)
    as (Q & m'' & e'' & -> & HQ & Hrep).
  assert (Q = Z.pos mz) as HQeq by nia.
  destruct Hrep as [[Hm He]|[Hm [He HQ53]]]; [|lia].
  f_equal; [|lia]. apply Pos2Z.inj. lia.
Qed.

Lemma digits_le_53 (p : positive) :
  Z.pos p < 2 ^ 53 → 1 ≤ Z.pos (digits2_pos p) ≤ 53.
Proof.
  intros Hp. pose proof (digits2_pos_bounds p) as [Hlo _].
  split; [lia|].
  destruct (Z.le_gt_cases (Z.pos (digits2_pos p)) 53) as [|Hgt]; [done|].
  assert (2 ^ 53 ≤ 2 ^ (Z.pos (digits2_pos p) - 1))
    by (apply Z.pow_le_mono_r; lia). lia.
Qed.

(** The product of two non-negative integers is exact as long as it stays
    below 2^53. *)
Lemma mul_of_Z (a b : Z) :
  0 ≤ a < 2 ^ 53 → 0 ≤ b < 2 ^ 53 → a * b < 2 ^ 53 →
  JsNumber.mul (JsNumber.of_Z a) (JsNumber.of_Z b) = JsNumber.of_Z (a * b).
Proof.
  intros Ha Hb Hab.
  destruct a as [|pa|pa]; [|destruct b as [|pb|pb]|]; try lia.
  - destruct b as [|pb|pb]; try lia; [done|].
    destruct (of_Z_pos pb) as (mb & -> & _); [apply digits_le_53; lia|done].
  - destruct (of_Z_pos pa) as (ma & -> & _); [apply digits_le_53; lia|done].
  - assert (Z.pos pa < 2 ^ 53 ∧ Z.pos pb < 2 ^ 53) as [Hpa Hpb] by nia.
    pose proof (digits_le_53 pa Hpa) as Hda.
    pose proof (digits_le_53 pb Hpb) as Hdb.
    pose proof (digits_le_53 (pa * pb) ltac:(lia)) as Hdc.
    pose proof (digits2_pos_bounds pa) as [Halo Hahi].
    pose proof (digits2_pos_bounds pb) as [Hblo Hbhi].
    pose proof (digits2_pos_bounds (pa * pb)) as [Hclo Hchi].
    destruct (of_Z_pos pa ltac:(lia)) as (ma & -> & Hma & Hdma).
    destruct (of_Z_pos pb ltac:(lia)) as (mb & -> & Hmb & Hdmb).
    change (Z.pos pa * Z.pos pb) with (Z.pos (pa * pb)).
    destruct (of_Z_pos (pa * pb) ltac:(lia)) as (mc & -> & Hmc & Hdmc).
    set (da := Z.pos (digits2_pos pa)) in *.
    set (db := Z.pos (digits2_pos pb)) in *.
    set (dc := Z.pos (digits2_pos (pa * pb))) in *.
    unfold JsNumber.mul, SFmul, JsNumber.prec, JsNumber.emax. cbn [xorb].
    (* da + db - 1 <= dc *)
    assert (da + db - 1 ≤ dc) as Hdc'.
    { destruct (Z.le_gt_cases (da + db - 1) dc) as [|Hgt]; [done|exfalso].
      assert (2 ^ dc ≤ 2 ^ (da - 1 + (db - 1))) as Hpow
        by (apply Z.pow_le_mono_r; lia).
      rewrite Z.pow_add_r in Hpow by lia.
      rewrite Pos2Z.inj_mul in Hchi. nia. }
    set (s := 53 - da - db + dc).
    destruct s as [|sp|sp] eqn:Es; try lia.
    rewrite (binary_round_aux_exact (ma * mb) mc _ sp); [f_equal; lia|done| |lia|lia].
    rewrite Pos2Z.inj_mul, Hma, Hmb, Hmc, Pos2Z.inj_mul.
    replace (Z.pos sp) with (53 - da - db + dc) by lia.
    assert (2 ^ (53 - da) * 2 ^ (53 - db)
            = 2 ^ (53 - dc) * 2 ^ (53 - da - db + dc)) as Hpow
      by (rewrite <- !Z.pow_add_r by lia; f_equal; lia).
    replace (Z.pos pa * 2 ^ (53 - da) * (Z.pos pb * 2 ^ (53 - db)))
      with (Z.pos pa * Z.pos pb * (2 ^ (53 - da) * 2 ^ (53 - db))) by ring.
    rewrite Hpow. ring.
Qed.

Lemma new_location_even_divisor my r :
  Z.even my = true → new_location my r = loc_of_remainder my r.
Proof. intros H. unfold new_location. rewrite H. reflexivity. Qed.

Lemma loc_of_shr_record_of_loc m l :
  loc_of_shr_record (shr_record_of_loc m l) = l.
Proof. by destruct l as [|[]]. Qed.

Lemma shr_m_record_of_loc m l : shr_m (shr_record_of_loc m l) = m.
Proof. by destruct l as [|[]]. Qed.

(** Rounding the quotient [q] with remainder [r] is off by at most half
    a unit. *)
Lemma round_remainder_bound q my r :
  0 ≤ r < my →
  let Q := round_nearest_even q (loc_of_remainder my r) in
  q ≤ Q ≤ q + 1
  ∧ 2 * (q * my + r) - my ≤ 2 * (Q * my) ≤ 2 * (q * my + r) + my.
Proof.
  intros Hr. unfold loc_of_remainder.
  destruct (Z.eqb_spec r 0) as [->|Hr0]; simpl; [nia|].
  destruct (Z.compare_spec (2 * r) my); simpl;
    try destruct (Z.even q); nia.
Qed.

(** The same after one more right shift of the quotient. *)
Lemma round_remainder_bound_shifted q my r :
  0 ≤ q → 0 ≤ r < my →
  let Q := round_nearest_even (Z.div2 q)
             (loc_of_shr_record
                (shr_1 (shr_record_of_loc q (loc_of_remainder my r)))) in
  Z.div2 q ≤ Q ≤ Z.div2 q + 1
  ∧ 2 * (q * my + r) - 2 * my ≤ 2 * (Q * 2 * my) ≤ 2 * (q * my + r) + 2 * my.
Proof.
  intros Hq Hr. unfold loc_of_remainder.
  pose proof (Z.div2_odd q) as Hq2.
  destruct (Z.eqb_spec r 0) as [->|Hr0].
  - simpl shr_record_of_loc. rewrite shr_1_nonneg by done.
    destruct (Z.odd q); simpl in *; try destruct (Z.even (Z.div2 q)); nia.
  - destruct (Z.compare_spec (2 * r) my); simpl shr_record_of_loc;
      rewrite shr_1_nonneg by done;
      destruct (Z.odd q); simpl in *; try destruct (Z.even (Z.div2 q)); nia.
Qed.

(** Rounding of a quotient of 53 or 54 digits, with its remainder. *)
Lemma binary_round_aux_quotient (q my r e sh : Z) :
  0 < q → 0 ≤ r < my → (sh = 0 ∨ sh = 1) → Zdigits2 q = 53 + sh →
  -1074 ≤ e → e + sh + 1 ≤ 971 →
  ∃ Q m'' e'',
    binary_round_aux 53 1024 false q e (loc_of_remainder my r)
    = S754_finite false m'' e''
    ∧ 2 * (q * my + r) - 2 ^ sh * my ≤ 2 * (Q * 2 ^ sh * my)
      ≤ 2 * (q * my + r) + 2 ^ sh * my
    ∧ ((Z.pos m'' = Q ∧ e'' = e + sh)
       ∨ (2 * Z.pos m'' = Q ∧ e'' = e + sh + 1 ∧ Q = 2 ^ 53)).
Proof.
  intros Hq Hr Hsh Hd He1 He2.
  assert (2 ^ (53 + sh - 1) ≤ q < 2 ^ (53 + sh)) as Hqb.
  { destruct q as [|pq|pq]; try lia. simpl in Hd.
    pose proof (digits2_pos_bounds pq) as Hb. by rewrite Hd in Hb. }
  unfold binary_round_aux.
  assert (∃ Q,
    (let '(mrs', e') := shr_fexp 53 1024 q e (loc_of_remainder my r) in
     (round_nearest_even (shr_m mrs') (loc_of_shr_record mrs'), e'))
    = (Q, e + sh)
    ∧ 2 ^ 52 ≤ Q ≤ 2 ^ 53
    ∧ 2 * (q * my + r) - 2 ^ sh * my ≤ 2 * (Q * 2 ^ sh * my)
      ≤ 2 * (q * my + r) + 2 ^ sh * my) as (Q & Hstep & HQb & HQ).
  { destruct Hsh as [-> | ->].
    - rewrite shr_fexp_53 by (done || lia).
      rewrite loc_of_shr_record_of_loc.
      pose proof (round_remainder_bound q my r Hr) as [HQ1 HQ2].
      exists (round_nearest_even q (loc_of_remainder my r)).
      split; [by rewrite shr_m_record_of_loc, Z.add_0_r|].
      change (2 ^ (53 + 0 - 1)) with (2 ^ 52) in Hqb.
      change (2 ^ (53 + 0)) with (2 ^ 53) in Hqb.
      split; [lia|]. change (2 ^ 0) with 1. lia.
    - pose proof (round_remainder_bound_shifted q my r ltac:(lia) Hr)
        as [HQ1 HQ2].
      unfold shr_fexp. rewrite Hd.
      change (fexp 53 1024 (53 + 1 + e)) with (fexp64 (53 + 1 + e)).
      rewrite fexp64_eq.
      replace (Z.max (53 + 1 + e - 53) (-1074) - e) with 1 by lia.
      cbn [shr SpecFloat.iter_pos].
      assert (shr_m (shr_1 (shr_record_of_loc q (loc_of_remainder my r)))
              = Z.div2 q) as Hm.
      { destruct (loc_of_remainder my r) as [|[]]; simpl shr_record_of_loc;
          by rewrite shr_1_nonneg by lia. }
      rewrite Hm. eexists. split; [reflexivity|].
      change (2 ^ (53 + 1 - 1)) with (2 ^ 53) in Hqb.
      change (2 ^ (53 + 1)) with (2 ^ 54) in Hqb.
      pose proof (Z.div2_odd q). change (2 ^ 1) with 2.
      split; [destruct (Z.odd q); simpl in *; lia|lia]. }
  destruct (shr_fexp 53 1024 q e (loc_of_remainder my r)) as [mrs' e'].
  injection Hstep as HQeq He'. rewrite HQeq, He'.
  destruct (decide (Q = 2 ^ 53)) as [HQ53|HQne].
  - exists Q, (2 ^ 52)%positive, (e + sh + 1).
    rewrite HQ53.
    rewrite (shr_fexp_shift (2 ^ 53) (e + sh) 1) by (done || lia).
    simpl. change (1024 - 53) with 971.
    destruct (Z.leb_spec (e + sh + 1) 971); [|lia].
    rewrite <- HQ53. split; [done|]. split; [done|]. right. rewrite HQ53. done.
  - assert (Zdigits2 Q = 53) as HdQ by (apply Zdigits2_unique; lia).
    rewrite shr_fexp_53 by (done || lia). simpl.
    destruct Q as [|pq|pq] eqn:EQ; try lia.
    exists (Z.pos pq), pq, (e + sh).
    change (1024 - 53) with 971.
    destruct (Z.leb_spec (e + sh) 971); [|lia].
    split; [done|]. split; [done|]. left. done.
Qed.

(** The quotient and remainder [SFdiv] computes for two mantissas of 53
    digits. *)
Lemma SFdiv_core_53 (mx my : positive) (ex ey : Z) :
  Z.pos (digits2_pos mx) = 53 → Z.pos (digits2_pos my) = 53 →
  -1021 ≤ ex - ey →
  SFdiv_core_binary 53 1024 (Z.pos mx) ex (Z.pos my) ey
  = (Z.pos mx * 2 ^ 53 / Z.pos my, ex - ey - 53,
     new_location (Z.pos my) ((Z.pos mx * 2 ^ 53) mod Z.pos my)).
Proof.
  intros Hdx Hdy He. unfold SFdiv_core_binary.
  cbn [Zdigits2]. rewrite Hdx, Hdy.
  change (fexp 53 1024 (53 + ex - (53 + ey))) with (fexp64 (53 + ex - (53 + ey))).
  rewrite fexp64_eq.
  replace (Z.min (Z.max (53 + ex - (53 + ey) - 53) (-1074)) (ex - ey))
    with (ex - ey - 53) by lia.
  replace (ex - ey - (ex - ey - 53)) with 53 by lia.
  cbv iota. rewrite Z.shiftl_mul_pow2 by lia.
  unfold Z.div, Z.modulo.
  by destruct (Z.div_eucl (Z.pos mx * 2 ^ 53) (Z.pos my)).
Qed.

Lemma exact_ceil_div_100_bounds a :
  a ≤ 100 * exact_ceil_div_100 a ≤ a + 99.
Proof.
  unfold exact_ceil_div_100.
  pose proof (Z.div_mod (- a) 100 ltac:(lia)).
  pose proof (Z.mod_pos_bound (- a) 100 ltac:(lia)). lia.
Qed.

Lemma ceil_div_unique a b E :
  0 < b → (E - 1) * b < a ≤ E * b → - (- a / b) = E.
Proof. intros Hb Hab. pose proof (ceil_div_bounds a b Hb). nia. Qed.

(** [Math.ceil(a / 100)] is the exact ceiling for every non-negative
    integer [a] below 2^53. *)
Lemma ceil_div_100 (a : Z) :
  0 ≤ a < 2 ^ 53 →
  JsNumber.ceil (JsNumber.div (JsNumber.of_Z a) (JsNumber.of_Z 100))
  = JsNumber.of_Z (exact_ceil_div_100 a).
Proof.
  intros Ha. destruct a as [|p|p]; [reflexivity| |lia].
  pose proof (digits_le_53 p ltac:(lia)) as Hd.
  destruct (of_Z_pos p ltac:(lia)) as (mx & -> & Hmx & Hdx).
  set (d := Z.pos (digits2_pos p)) in *.
  change (JsNumber.of_Z 100) with (S754_finite false 7036874417766400 (-46)).
  unfold JsNumber.div, SFdiv, JsNumber.prec, JsNumber.emax.
  rewrite SFdiv_core_53 by (done || lia). cbn [xorb].
  rewrite new_location_even_divisor by reflexivity.
  set (K := 2 ^ (53 - d)) in *.
  assert (1 ≤ K) as HK.
  { unfold K. change 1 with (2 ^ 0). apply Z.pow_le_mono_r; lia. }
  pose proof (digits2_pos_bounds mx) as [Hxlo Hxhi]. rewrite Hdx in Hxlo, Hxhi.
  change (2 ^ (53 - 1)) with 4503599627370496 in Hxlo.
  change (2 ^ 53) with 9007199254740992 in *.
  pose proof (Z.div_mod (Z.pos mx * 9007199254740992) 7036874417766400
                ltac:(lia)) as HN.
  pose proof (Z.mod_pos_bound (Z.pos mx * 9007199254740992) 7036874417766400
                ltac:(lia)) as Hr.
  set (q := Z.pos mx * 9007199254740992 / 7036874417766400) in *.
  set (r := (Z.pos mx * 9007199254740992) mod 7036874417766400) in *.
  assert (4503599627370496 ≤ q < 18014398509481984) as Hq by lia.
  pose proof (exact_ceil_div_100_bounds (Z.pos p)) as HE.
  set (E := exact_ceil_div_100 (Z.pos p)) in *.
  assert (Z.pos mx ≤ 100 * (E * K) ≤ Z.pos mx + 99 * K) as HEK
    by (rewrite Hmx; nia).
  assert (1 ≤ E) as HE1 by lia.
  assert (∃ sh, (sh = 0 ∨ sh = 1) ∧ Zdigits2 q = 53 + sh) as (sh & Hsh & Hdq).
  { destruct (Z.lt_ge_cases q 9007199254740992) as [Hlt|Hge].
    - exists 0. split; [by left|]. apply Zdigits2_unique; [|lia].
      change (2 ^ (53 + 0 - 1)) with 4503599627370496.
      change (2 ^ (53 + 0)) with 9007199254740992. lia.
    - exists 1. split; [by right|]. apply Zdigits2_unique; [|lia].
      change (2 ^ (53 + 1 - 1)) with 9007199254740992.
      change (2 ^ (53 + 1)) with 18014398509481984. lia. }
  destruct (binary_round_aux_quotient q 7036874417766400 r
              (d - 53 - -46 - 53) sh)
    as (Q & m'' & e'' & -> & HQ & Hrep); [lia|done|done|done|lia|lia|].
  set (T := 60 - d - sh).
  assert (2 ^ sh * 2 ^ T = 128 * K) as HB.
  { change 128 with (2 ^ 7). unfold K, T.
    rewrite <- !Z.pow_add_r by lia. f_equal. lia. }
  set (B := 2 ^ T) in *.
  assert ((E - 1) * B < Q ≤ E * B) as HQE.
  { destruct Hsh as [-> | ->].
    - change (2 ^ 0) with 1 in *.
      assert (B = 128 * K) as -> by lia.
      replace ((E - 1) * (128 * K)) with (128 * (E * K) - 128 * K) by ring.
      replace (E * (128 * K)) with (128 * (E * K)) by ring. lia.
    - change (2 ^ 1) with 2 in *.
      assert (B = 64 * K) as -> by lia.
      replace ((E - 1) * (64 * K)) with (64 * (E * K) - 64 * K) by ring.
      replace (E * (64 * K)) with (64 * (E * K)) by ring. lia. }
  assert (0 < B) as HBpos by (apply Z.pow_pos_nonneg; unfold T; lia).
  unfold JsNumber.ceil.
  destruct Hrep as [[Hm He]|[Hm [He _]]].
  - assert (e'' = - T) as -> by (unfold T; lia).
    destruct (Z.leb_spec 0 (- T)); [unfold T in *; lia|].
    cbn [cond_Zopp].
    rewrite Z.shiftr_div_pow2, Z.opp_involutive by (unfold T; lia).
    fold B. rewrite Hm, (ceil_div_unique Q B E) by done.
    destruct (Z.eqb_spec E 0); [lia|done].
  - assert (e'' = - (T - 1)) as -> by (unfold T; lia).
    destruct (Z.leb_spec 0 (- (T - 1))); [unfold T in *; lia|].
    cbn [cond_Zopp].
    rewrite Z.shiftr_div_pow2, Z.opp_involutive by (unfold T; lia).
    assert (B = 2 * 2 ^ (T - 1)) as HB2.
    { unfold B. rewrite <- Z.pow_succ_r by (unfold T; lia). f_equal. lia. }
    set (B2 := 2 ^ (T - 1)) in *.
    rewrite HB2, <- Hm in HQE.
    rewrite (ceil_div_unique (Z.pos m'') B2 E) by lia.
    destruct (Z.eqb_spec E 0); [lia|done].
Qed.

(** Comparison of the numbers of two non-negative integers below 2^53. *)
Lemma SFcompare_of_Z (x y : Z) :
  0 ≤ x < 2 ^ 53 → 0 ≤ y < 2 ^ 53 →
  SFcompare (JsNumber.of_Z x) (JsNumber.of_Z y) = Some (x ?= y).
Proof.
  intros Hx Hy.
  destruct x as [|px|px]; [|destruct y as [|py|py]|]; try lia.
  - destruct y as [|py|py]; try lia; [done|].
    by destruct (of_Z_pos py) as (my & -> & _); [apply digits_le_53; lia|].
  - by destruct (of_Z_pos px) as (mx & -> & _); [apply digits_le_53; lia|].
  - pose proof (digits_le_53 px ltac:(lia)) as Hdx.
    pose proof (digits_le_53 py ltac:(lia)) as Hdy.
    pose proof (digits2_pos_bounds px) as [Hxlo Hxhi].
    pose proof (digits2_pos_bounds py) as [Hylo Hyhi].
    destruct (of_Z_pos px ltac:(lia)) as (mx & -> & Hmx & _).
    destruct (of_Z_pos py ltac:(lia)) as (my & -> & Hmy & _).
    set (dx := Z.pos (digits2_pos px)) in *.
    set (dy := Z.pos (digits2_pos py)) in *.
    cbn [SFcompare]. f_equal.
    destruct (Z.compare_spec (dx - 53) (dy - 53)) as [Heq|Hlt|Hgt].
    + assert (dx = dy) as Hd by lia. rewrite Hd in Hmx.
      assert (0 < 2 ^ (53 - dy)) by (apply Z.pow_pos_nonneg; lia).
      rewrite Pos.compare_cont_spec.
      change (mx ?= my)%positive with (Z.pos mx ?= Z.pos my).
      rewrite Hmx, Hmy, <- Zmult_compare_compat_r by lia.
      by destruct (Z.pos px ?= Z.pos py).
    + symmetry. apply Z.compare_lt_iff.
      assert (2 ^ dx ≤ 2 ^ (dy - 1)) by (apply Z.pow_le_mono_r; lia). lia.
    + symmetry. apply Z.compare_gt_iff.
      assert (2 ^ dy ≤ 2 ^ (dx - 1)) by (apply Z.pow_le_mono_r; lia). lia.
Qed.

Lemma ge_of_Z (x y : Z) :
  0 ≤ x < 2 ^ 53 → 0 ≤ y < 2 ^ 53 →
  JsNumber.ge (JsNumber.of_Z x) (JsNumber.of_Z y) = (y <=? x).
Proof.
  intros Hx Hy. unfold JsNumber.ge, SFleb.
  rewrite SFcompare_of_Z by done. unfold Z.leb.
  by destruct (y ?= x).
Qed.

Lemma fold_add_of_Z (l : list Z) :
  ∀ acc, Forall (λ c, 0 ≤ c) l → 0 ≤ acc → acc + sum_Z l < 2 ^ 53 →
         fold_left JsNumber.add (JsNumber.of_Z <$> l) (JsNumber.of_Z acc)
         = JsNumber.of_Z (acc + sum_Z l).
Proof.
  induction l as [|c l IH]; intros acc Hall Hacc Hsum.
  - simpl. by rewrite Z.add_0_r.
  - apply Forall_cons in Hall as [Hc Hall].
    assert (0 ≤ sum_Z l) as Hl.
    { clear -Hall. induction Hall; simpl; [done|]. unfold sum_Z in *. lia. }
    change (sum_Z (c :: l)) with (c + sum_Z l) in *.
    cbn [fmap list_fmap fold_left].
    rewrite add_of_Z by lia. rewrite IH by (done || lia). f_equal. lia.
Qed.

Lemma exact_ceil_div_100_le y x : exact_ceil_div_100 y ≤ x ↔ y ≤ 100 * x.
Proof. pose proof (exact_ceil_div_100_bounds y). lia. Qed.

Lemma exact_ceil_div_100_range y :
  0 ≤ y < 2 ^ 53 → 0 ≤ exact_ceil_div_100 y < 2 ^ 53.
Proof. pose proof (exact_ceil_div_100_bounds y). lia. Qed.

Lemma elem_of_le_sum_Z (l : list Z) c :
  Forall (λ c, 0 ≤ c) l → c ∈ l → 0 ≤ c ≤ sum_Z l.
Proof.
  induction 1 as [|x l Hx Hall IH]; intros Hin.
  - by apply not_elem_of_nil in Hin.
  - assert (0 ≤ sum_Z l) as Hl.
    { clear -Hall. induction Hall; simpl; [done|]. unfold sum_Z in *. lia. }
    change (sum_Z (x :: l)) with (x + sum_Z l).
    apply elem_of_cons in Hin as [->|Hin]; [lia|]. specialize (IH Hin). lia.
Qed.

(** ** Transaction fee *)

(** The literal 1.1 is the quotient 11 / 10 rounded to nearest. *)
Lemma lit_1_1_is_11_div_10 :
  JsNumber.div (JsNumber.of_Z 11) (JsNumber.of_Z 10) = JsNumber.lit_1_1.
Proof. vm_compute. reflexivity. Qed.

(** C1, as stated, fails at its own example: 110 * 1.1 is
    121.00000000000001 in binary64, so [contractMaxFee(100, 10)] is not 121,
    the exact ceiling of 110 * 1.1. *)
Lemma contractMaxFee_100_10_not_121 :
  exact_ceil_110 (100 + 10) = 121
  ∧ contractMaxFee (JsNumber.of_Z 100) (JsNumber.of_Z 10) ≠ JsNumber.of_Z 121.
Proof. split; [reflexivity|]. vm_compute. discriminate. Qed.

(** C1, amended: [contractMaxFee(gasCost, txFee)] is [Math.ceil] of the
    binary64 product of the sum by the literal 1.1.  For all non-negative
    integers [gasCost] and [txFee] with [gasCost + txFee < 2^48], it is the
    exact ceiling of [(gasCost + txFee) * 1.1] when the sum is not a multiple
    of 10, and the exact ceiling or the integer just above it when the sum
    is a multiple of 10; [contractMaxFee(100, 10)] is 122. *)
Theorem contractMaxFee_integers (gasCost txFee : Z) :
  0 ≤ gasCost → 0 ≤ txFee → gasCost + txFee < 2 ^ 48 →
  (contractMaxFee (JsNumber.of_Z gasCost) (JsNumber.of_Z txFee)
   = JsNumber.of_Z (exact_ceil_110 (gasCost + txFee))
   ∨ contractMaxFee (JsNumber.of_Z gasCost) (JsNumber.of_Z txFee)
     = JsNumber.of_Z (exact_ceil_110 (gasCost + txFee) + 1))
  ∧ ((gasCost + txFee) mod 10 ≠ 0 →
     contractMaxFee (JsNumber.of_Z gasCost) (JsNumber.of_Z txFee)
     = JsNumber.of_Z (exact_ceil_110 (gasCost + txFee)))
  ∧ (gasCost = 100 → txFee = 10 →
     contractMaxFee (JsNumber.of_Z gasCost) (JsNumber.of_Z txFee)
     = JsNumber.of_Z 122).
Proof.
  intros Hg Ht Hsum. unfold contractMaxFee.
  rewrite add_of_Z by (done || lia).
  split; [|split]; [| |intros -> ->; vm_compute; reflexivity].
  all: set (n := gasCost + txFee) in *.
  all: assert (0 ≤ n) as Hn by (unfold n; lia); clearbody n.
  - destruct n as [|p|p]; [left; reflexivity| |lia].
    destruct (ceil_mul_lit_1_1 p ltac:(lia)) as (z & -> & Hz & _).
    destruct (decide (z = exact_ceil_110 (Z.pos p))) as [->|Hne]; [by left|].
    right. f_equal. lia.
  - intros Hmod. destruct n as [|p|p]; [done| |lia].
    destruct (ceil_mul_lit_1_1 p ltac:(lia)) as (z & -> & _ & Hz).
    by rewrite (Hz Hmod).
Qed.

Lemma contractMaxFee_integers_witness :
  contractMaxFee (JsNumber.of_Z 100) (JsNumber.of_Z 10) = JsNumber.of_Z 122
  ∧ contractMaxFee (JsNumber.of_Z 3) (JsNumber.of_Z 4) = JsNumber.of_Z 8.
Proof.
  split.
  - apply (contractMaxFee_integers 100 10); (lia || reflexivity).
  - apply (contractMaxFee_integers 3 4); (lia || discriminate).
Defined.

(** ** Contract economics *)

Lemma fold_left_counts votes acc :
  fold_left (λ prev cur, JsNumber.add prev (count cur)) votes acc
  = fold_left JsNumber.add (count <$> votes) acc.
Proof. revert acc. induction votes as [|v votes IH]; simpl; auto. Qed.

(** On integer data [hasWinner] computes the exact rule: the votes cast
    reach [quorum] percent of the committee, and some option has at least
    [winnerThreshold] percent of the sum of the option counts. *)
Lemma hasWinner_integers (counts : list Z)
    (votesCount winnerThreshold quorum committeeSize : Z) :
  Forall (λ c, 0 ≤ c) counts →
  0 ≤ votesCount < 2 ^ 53 → 0 ≤ winnerThreshold < 2 ^ 53 →
  0 ≤ quorum < 2 ^ 53 → 0 ≤ committeeSize < 2 ^ 53 →
  committeeSize * quorum < 2 ^ 53 →
  sum_Z counts < 2 ^ 53 → sum_Z counts * winnerThreshold < 2 ^ 53 →
  hasWinner (option_count <$> counts) (JsNumber.of_Z votesCount)
    (JsNumber.of_Z winnerThreshold) (JsNumber.of_Z quorum)
    (JsNumber.of_Z committeeSize) = true
  ↔ committeeSize * quorum ≤ 100 * votesCount
    ∧ ∃ c, c ∈ counts ∧ sum_Z counts * winnerThreshold ≤ 100 * c.
Proof.
  intros Hall Hvc Hwt Hq Hcs Hcq Hsum Hsw.
  assert (0 ≤ sum_Z counts) as Hsum0.
  { clear -Hall. induction Hall; simpl; [done|]. unfold sum_Z in *. lia. }
  unfold hasWinner, hasQuorum, quorumVotesCount, winnerVotesCount.
  rewrite fold_left_counts, <- list_fmap_compose.
  change (count ∘ option_count) with JsNumber.of_Z.
  rewrite (fold_add_of_Z counts 0) by (done || lia). rewrite Z.add_0_l.
  rewrite !mul_of_Z by (done || lia).
  rewrite !ceil_div_100 by nia.
  rewrite ge_of_Z by (done || apply exact_ceil_div_100_range; nia).
  rewrite andb_true_iff, Z.leb_le, exact_ceil_div_100_le, existsb_exists.
  split; intros [Hquorum Hwin]; (split; [done|]).
  - destruct Hwin as (v & Hv & Hge).
    apply list_elem_of_In, list_elem_of_fmap in Hv as (c & -> & Hc).
    exists c. split; [done|].
    pose proof (elem_of_le_sum_Z counts c Hall Hc).
    cbn [count option_count] in Hge.
    rewrite ge_of_Z in Hge by (try apply exact_ceil_div_100_range; nia).
    by apply Z.leb_le, exact_ceil_div_100_le in Hge.
  - destruct Hwin as (c & Hc & Hle).
    exists (option_count c). split.
    + apply list_elem_of_In, list_elem_of_fmap. eauto.
    + pose proof (elem_of_le_sum_Z counts c Hall Hc).
      cbn [count option_count].
      rewrite ge_of_Z by (try apply exact_ceil_div_100_range; nia).
      by apply Z.leb_le, exact_ceil_div_100_le.
Qed.

(** C6: [hasWinner] is true exactly when the quorum is reached
    ([votesCount >= ceil(committeeSize * quorum / 100)]) and some option has
    a count of at least [ceil(sum * winnerThreshold / 100)], where [sum] is
    the sum of all option counts and not the field [votesCount].  On
    integer data this is the exact rule
    [committeeSize * quorum <= 100 * votesCount] and
    [sum * winnerThreshold <= 100 * count] for some option.  With votes
    40 and 10, votesCount 50, winnerThreshold 66, quorum 50 and
    committeeSize 80 it is true; with a [votesCount] field of 100 instead it
    is still true, although 40 is below 66% of 100. *)
Theorem hasWinner_spec :
  (∀ votes votesCount winnerThreshold quorum committeeSize,
     hasWinner votes votesCount winnerThreshold quorum committeeSize = true
     ↔ JsNumber.ge votesCount
         (JsNumber.ceil (JsNumber.div (JsNumber.mul committeeSize quorum)
                                      (JsNumber.of_Z 100))) = true
       ∧ ∃ v, v ∈ votes
              ∧ JsNumber.ge (count v)
                  (JsNumber.ceil
                     (JsNumber.div
                        (JsNumber.mul (sum_of_counts votes) winnerThreshold)
                        (JsNumber.of_Z 100))) = true)
  ∧ (∀ counts votesCount winnerThreshold quorum committeeSize,
       Forall (λ c, 0 ≤ c) counts →
       0 ≤ votesCount < 2 ^ 53 → 0 ≤ winnerThreshold < 2 ^ 53 →
       0 ≤ quorum < 2 ^ 53 → 0 ≤ committeeSize < 2 ^ 53 →
       committeeSize * quorum < 2 ^ 53 →
       sum_Z counts < 2 ^ 53 → sum_Z counts * winnerThreshold < 2 ^ 53 →
       hasWinner (option_count <$> counts) (JsNumber.of_Z votesCount)
         (JsNumber.of_Z winnerThreshold) (JsNumber.of_Z quorum)
         (JsNumber.of_Z committeeSize) = true
       ↔ committeeSize * quorum ≤ 100 * votesCount
         ∧ ∃ c, c ∈ counts ∧ sum_Z counts * winnerThreshold ≤ 100 * c)
  ∧ hasWinner [option_count 40; option_count 10] (JsNumber.of_Z 50)
      (JsNumber.of_Z 66) (JsNumber.of_Z 50) (JsNumber.of_Z 80) = true
  ∧ hasWinner [option_count 40; option_count 10] (JsNumber.of_Z 100)
      (JsNumber.of_Z 66) (JsNumber.of_Z 50) (JsNumber.of_Z 80) = true
  ∧ JsNumber.ge (JsNumber.of_Z 40)
      (winnerVotesCount (JsNumber.of_Z 66) (JsNumber.of_Z 100)) = false.
Proof.
  split; [|split; [apply hasWinner_integers|by vm_compute]].
  intros votes vc wt q cs.
  unfold hasWinner, hasQuorum, quorumVotesCount, winnerVotesCount, sum_of_counts.
  rewrite andb_true_iff, existsb_exists, fold_left_counts.
  split; intros [Hq (v & Hv & Hge)]; (split; [done|]); exists v; split; try done.
  - by apply list_elem_of_In.
  - by apply list_elem_of_In.
Qed.

Lemma new_location_0 my : new_location my 0 = loc_Exact.
Proof. unfold new_location. by destruct (Z.even my). Qed.

(** The quotient of two integers is exact when the division leaves no
    remainder. *)
Lemma div_of_Z_exact (b k : Z) :
  0 < b < 2 ^ 53 → 0 ≤ k → b * k < 2 ^ 53 →
  JsNumber.div (JsNumber.of_Z (b * k)) (JsNumber.of_Z b) = JsNumber.of_Z k.
Proof.
  intros Hb Hk Hbk.
  destruct b as [|pb|pb]; try lia.
  pose proof (digits_le_53 pb ltac:(lia)) as Hdb.
  pose proof (digits2_pos_bounds pb) as [Hblo Hbhi].
  destruct (of_Z_pos pb ltac:(lia)) as (my & -> & Hmy & Hdmy).
  destruct k as [|pk|pk]; [done| |lia].
  assert (Z.pos pk < 2 ^ 53) as Hk53 by nia.
  pose proof (digits_le_53 pk Hk53) as Hdk.
  pose proof (digits2_pos_bounds pk) as [Hklo Hkhi].
  destruct (of_Z_pos pk ltac:(lia)) as (mk & -> & Hmk & Hdmk).
  change (Z.pos pb * Z.pos pk) with (Z.pos (pb * pk)) in *.
  pose proof (digits_le_53 (pb * pk) Hbk) as Hda.
  pose proof (digits2_pos_bounds (pb * pk)) as [Halo Hahi].
  destruct (of_Z_pos (pb * pk) ltac:(lia)) as (mx & -> & Hmx & Hdmx).
  set (da := Z.pos (digits2_pos (pb * pk))) in *.
  set (db := Z.pos (digits2_pos pb)) in *.
  set (dk := Z.pos (digits2_pos pk)) in *.
  rewrite Pos2Z.inj_mul in Hmx, Halo, Hahi.
  (* the number of digits of the product *)
  assert (dk + db - 1 ≤ da ≤ dk + db) as Hdab.
  { split.
    - destruct (Z.le_gt_cases (dk + db - 1) da) as [|Hgt]; [done|exfalso].
      assert (2 ^ da ≤ 2 ^ (db - 1 + (dk - 1))) as Hpow
        by (apply Z.pow_le_mono_r; lia).
      rewrite Z.pow_add_r in Hpow by lia. nia.
    - destruct (Z.le_gt_cases da (dk + db)) as [|Hgt]; [done|exfalso].
      assert (2 ^ (db + dk) ≤ 2 ^ (da - 1)) as Hpow
        by (apply Z.pow_le_mono_r; lia).
      rewrite Z.pow_add_r in Hpow by lia. nia. }
  set (sh := dk + db - da).
  set (T := 53 - da + db).
  assert (Z.pos mx * 2 ^ 53 = Z.pos pk * 2 ^ T * Z.pos my) as Hexact.
  { rewrite Hmx, Hmy. unfold T.
    replace (Z.pos pb * Z.pos pk * 2 ^ (53 - da) * 2 ^ 53)
      with (Z.pos pb * Z.pos pk * (2 ^ (53 - da) * 2 ^ 53)) by ring.
    replace (Z.pos pk * 2 ^ (53 - da + db) * (Z.pos pb * 2 ^ (53 - db)))
      with (Z.pos pb * Z.pos pk * (2 ^ (53 - da + db) * 2 ^ (53 - db))) by ring.
    rewrite <- !Z.pow_add_r by lia. do 2 f_equal. lia. }
  unfold JsNumber.div, SFdiv, JsNumber.prec, JsNumber.emax.
  rewrite SFdiv_core_53 by (done || lia). cbn [xorb].
  rewrite Hexact, Z.div_mul, Z.mod_mul, new_location_0 by lia.
  set (q := Z.pos pk * 2 ^ T).
  assert (0 < 2 ^ T) as HT by (apply Z.pow_pos_nonneg; unfold T; lia).
  assert (q = Z.pos mk * 2 ^ sh) as Hq.
  { unfold q. rewrite Hmk. unfold T, sh.
    rewrite <- Z.mul_assoc, <- Z.pow_add_r by lia. do 2 f_equal. lia. }
  pose proof (digits2_pos_bounds mk) as [Hmklo Hmkhi].
  rewrite Hdmk in Hmklo, Hmkhi.
  assert (Zdigits2 q = 53 + sh) as Hdq.
  { apply Zdigits2_unique; [|lia]. rewrite Hq.
    replace (53 + sh - 1) with (53 - 1 + sh) by lia.
    rewrite !Z.pow_add_r by (unfold sh; lia).
    assert (0 < 2 ^ sh) by (apply Z.pow_pos_nonneg; unfold sh; lia). nia. }
  change loc_Exact with (loc_of_remainder (Z.pos my) 0).
  destruct (binary_round_aux_quotient q (Z.pos my) 0
              (da - 53 - (db - 53) - 53) sh)
    as (Q & m'' & e'' & -> & HQ & Hrep);
    [lia|lia|unfold sh; lia|done|lia|unfold sh; lia|].
  assert (Q = Z.pos mk) as HQeq.
  { assert (sh = 0 ∨ sh = 1) as [Hs|Hs] by (unfold sh; lia);
      rewrite Hs in HQ, Hq.
    - change (2 ^ 0) with 1 in *. nia.
    - change (2 ^ 1) with 2 in *. nia. }
  destruct Hrep as [[Hm He]|[_ [_ HQ53]]]; [|lia].
  f_equal; [|unfold sh in He; lia]. apply Pos2Z.inj. lia.
Qed.

Lemma isNaN_true x : JsNumber.isNaN x = true → x = JsNumber.NaN.
Proof. by destruct x. Qed.

Lemma of_Z_not_NaN (x : Z) : 0 ≤ x < 2 ^ 53 → JsNumber.of_Z x ≠ JsNumber.NaN.
Proof.
  intros Hx. destruct x as [|p|p]; [done| |lia].
  by destruct (of_Z_pos p) as (m & -> & _); [apply digits_le_53; lia|].
Qed.

(** [Math.max] of the numbers of two integers. *)
Lemma max_of_Z (x y : Z) :
  0 ≤ x < 2 ^ 53 → 0 ≤ y < 2 ^ 53 →
  JsNumber.max (JsNumber.of_Z x) (JsNumber.of_Z y) = JsNumber.of_Z (Z.max x y).
Proof.
  intros Hx Hy. unfold JsNumber.max. rewrite SFcompare_of_Z by done.
  destruct (Z.compare_spec x y) as [->|Hlt|Hgt].
  - rewrite Z.max_id. destruct y as [|p|p]; [done| |lia].
    by destruct (of_Z_pos p) as (m & -> & _); [apply digits_le_53; lia|].
  - by rewrite Z.max_r by lia.
  - by rewrite Z.max_l by lia.
Qed.

Lemma Number_isNaN_true v : Number_isNaN v = true ↔ v = FNumber JsNumber.NaN.
Proof.
  split; [|by intros ->].
  destruct v as [x| |x]; try done. simpl. intros H. by rewrite (isNaN_true x H).
Qed.

Lemma mul_NaN_r x : JsNumber.mul x JsNumber.NaN = JsNumber.NaN.
Proof. by destruct x as [[]|[]| |[]]. Qed.

Lemma div_NaN_r x : JsNumber.div x JsNumber.NaN = JsNumber.NaN.
Proof. by destruct x as [[]|[]| |[]]. Qed.

Lemma sub_NaN_r x : JsNumber.sub x JsNumber.NaN = JsNumber.NaN.
Proof. by destruct x as [[]|[]| |[]]. Qed.

Lemma max_NaN_r x : JsNumber.max x JsNumber.NaN = JsNumber.NaN.
Proof. by destruct x as [[]|[]| |[]]. Qed.

Lemma oracleReward_guard balance votesCount quorum committeeSize ownerFee :
  oracleReward balance votesCount quorum committeeSize ownerFee = None
  ↔ balance = FNumber JsNumber.NaN ∨ votesCount = FNumber JsNumber.NaN
    ∨ quorum = FNumber JsNumber.NaN ∨ committeeSize = FNumber JsNumber.NaN.
Proof.
  unfold oracleReward.
  destruct (existsb _ _) eqn:E; cbn [existsb] in E.
  - rewrite !orb_true_iff, !Number_isNaN_true in E.
    split; [intros _; intuition congruence|done].
  - rewrite !orb_false_iff in E. destruct E as (H1 & H2 & H3 & H4 & _).
    split; [done|].
    intros [-> | [-> | [-> | ->]]]; done.
Qed.

(** C7, as stated, fails for a field that is absent: [Number.isNaN] is
    false of [undefined], the guard is passed, and the result is NaN, not
    [undefined]. *)
Lemma oracleReward_undefined_balance :
  oracleReward FUndefined (FNumber (JsNumber.of_Z 5))
    (FNumber (JsNumber.of_Z 20)) (FNumber (JsNumber.of_Z 100))
    (FNumber (JsNumber.of_Z 5))
  = Some JsNumber.NaN
  ∧ oracleReward FUndefined (FNumber (JsNumber.of_Z 5))
      (FNumber (JsNumber.of_Z 20)) (FNumber (JsNumber.of_Z 100))
      (FNumber (JsNumber.of_Z 5))
    ≠ None.
Proof. split; [reflexivity|discriminate]. Qed.

(** C7, amended: [oracleReward] never throws.  Its result is [undefined]
    exactly when one of balance, votesCount, quorum and committeeSize is
    the number NaN; otherwise it is [balance * (1 - ownerFee / 100)]
    divided by the maximum of [quorumVotesCount] and votesCount, computed
    on the numbers its fields convert to, so that a field that is
    [undefined] (or an ownerFee that is NaN) gives NaN.  On integer data
    the divisor is the exact maximum [M] of [ceil(committeeSize * quorum /
    100)] and votesCount: with an owner fee of 0 the reward is the quotient
    of the balance by [M] (exactly [k] for a balance [M * k]), with an
    owner fee of 100 it is 0, and a balance of 1000 with 5 votes, a
    quorum of 20 per cent of 100 and an owner fee of 5 gives 47.5. *)
Theorem oracleReward_spec :
  (∀ balance votesCount quorum committeeSize ownerFee : Field,
     (oracleReward balance votesCount quorum committeeSize ownerFee = None
      ↔ balance = FNumber JsNumber.NaN ∨ votesCount = FNumber JsNumber.NaN
        ∨ quorum = FNumber JsNumber.NaN
        ∨ committeeSize = FNumber JsNumber.NaN)
     ∧ (oracleReward balance votesCount quorum committeeSize ownerFee = None
        ∨ oracleReward balance votesCount quorum committeeSize ownerFee
          = Some (JsNumber.div
                    (JsNumber.mul (ToNumber balance)
                       (JsNumber.sub (JsNumber.of_Z 1)
                          (JsNumber.div (ToNumber ownerFee)
                                        (JsNumber.of_Z 100))))
                    (JsNumber.max
                       (quorumVotesCount (ToNumber quorum)
                                         (ToNumber committeeSize))
                       (ToNumber votesCount))))
     ∧ (oracleReward balance votesCount quorum committeeSize ownerFee ≠ None →
        ToNumber balance = JsNumber.NaN ∨ ToNumber votesCount = JsNumber.NaN
        ∨ ToNumber quorum = JsNumber.NaN
        ∨ ToNumber committeeSize = JsNumber.NaN
        ∨ ToNumber ownerFee = JsNumber.NaN →
        oracleReward balance votesCount quorum committeeSize ownerFee
        = Some JsNumber.NaN))
  ∧ (∀ (ownerFee : Field) (b v q c : Z),
       0 ≤ b < 2 ^ 53 → 0 ≤ v < 2 ^ 53 → 0 ≤ q < 2 ^ 53 → 0 ≤ c < 2 ^ 53 →
       c * q < 2 ^ 53 → 0 < Z.max (exact_ceil_div_100 (c * q)) v →
       (ownerFee = FNumber (JsNumber.of_Z 0) →
        oracleReward (FNumber (JsNumber.of_Z b)) (FNumber (JsNumber.of_Z v))
          (FNumber (JsNumber.of_Z q)) (FNumber (JsNumber.of_Z c)) ownerFee
        = Some (JsNumber.div (JsNumber.of_Z b)
                  (JsNumber.of_Z (Z.max (exact_ceil_div_100 (c * q)) v)))
        ∧ ∀ k, b = Z.max (exact_ceil_div_100 (c * q)) v * k →
               oracleReward (FNumber (JsNumber.of_Z b))
                 (FNumber (JsNumber.of_Z v)) (FNumber (JsNumber.of_Z q))
                 (FNumber (JsNumber.of_Z c)) ownerFee
               = Some (JsNumber.of_Z k))
       ∧ (ownerFee = FNumber (JsNumber.of_Z 100) →
          oracleReward (FNumber (JsNumber.of_Z b)) (FNumber (JsNumber.of_Z v))
            (FNumber (JsNumber.of_Z q)) (FNumber (JsNumber.of_Z c)) ownerFee
          = Some (JsNumber.of_Z 0)))
  ∧ oracleReward (FNumber (JsNumber.of_Z 1000)) (FNumber (JsNumber.of_Z 5))
      (FNumber (JsNumber.of_Z 20)) (FNumber (JsNumber.of_Z 100))
      (FNumber (JsNumber.of_Z 5))
    = Some (JsNumber.div (JsNumber.of_Z 95) (JsNumber.of_Z 2)).
Proof.
  split; [|split].
  - intros balance votesCount quorum committeeSize ownerFee.
    split; [apply oracleReward_guard|].
    assert (oracleReward balance votesCount quorum committeeSize ownerFee
            = None
            ∨ oracleReward balance votesCount quorum committeeSize ownerFee
              = Some (JsNumber.div
                        (JsNumber.mul (ToNumber balance)
                           (JsNumber.sub (JsNumber.of_Z 1)
                              (JsNumber.div (ToNumber ownerFee)
                                            (JsNumber.of_Z 100))))
                        (JsNumber.max
                           (quorumVotesCount (ToNumber quorum)
                                             (ToNumber committeeSize))
                           (ToNumber votesCount)))) as Hform.
    { unfold oracleReward. destruct (existsb _ _); [by left|by right]. }
    split; [done|].
    intros Hsome Hnan. destruct Hform as [Hnone| ->]; [done|]. f_equal.
    unfold quorumVotesCount.
    destruct Hnan as [-> | [-> | [-> | [-> | ->]]]].
    + by destruct (JsNumber.sub _ _) as [[]|[]| |[]].
    + by rewrite max_NaN_r, div_NaN_r.
    + by rewrite mul_NaN_r, div_NaN_r.
    + by destruct (ToNumber quorum) as [[]|[]| |[]];
        rewrite div_NaN_r.
    + by rewrite sub_NaN_r, mul_NaN_r.
  - intros ownerFee b v q c Hb Hv Hq Hc Hcq HM.
    set (M := Z.max (exact_ceil_div_100 (c * q)) v) in *.
    assert (M < 2 ^ 53) as HM53.
    { pose proof (exact_ceil_div_100_range (c * q) ltac:(nia)). lia. }
    assert (∀ fee,
              oracleReward (FNumber (JsNumber.of_Z b))
                (FNumber (JsNumber.of_Z v)) (FNumber (JsNumber.of_Z q))
                (FNumber (JsNumber.of_Z c)) (FNumber fee)
              = Some (JsNumber.div
                        (JsNumber.mul (JsNumber.of_Z b)
                           (JsNumber.sub (JsNumber.of_Z 1)
                              (JsNumber.div fee (JsNumber.of_Z 100))))
                        (JsNumber.of_Z M))) as Hreward.
    { intros fee. unfold oracleReward, quorumVotesCount.
      assert (∀ x, 0 ≤ x < 2 ^ 53 →
                   Number_isNaN (FNumber (JsNumber.of_Z x)) = false) as Hnot.
      { intros x Hx. pose proof (of_Z_not_NaN x Hx). simpl.
        by destruct (JsNumber.of_Z x). }
      cbn [existsb]. rewrite !Hnot by done. cbn [orb ToNumber].
      rewrite mul_of_Z, ceil_div_100 by (done || lia).
      rewrite max_of_Z by (done || apply exact_ceil_div_100_range; nia).
      done. }
    split.
    + intros ->. rewrite Hreward.
      change (JsNumber.sub (JsNumber.of_Z 1)
                (JsNumber.div (JsNumber.of_Z 0) (JsNumber.of_Z 100)))
        with (JsNumber.of_Z 1).
      rewrite mul_of_Z, Z.mul_1_r by lia.
      split; [done|]. intros k Hk. f_equal. rewrite Hk.
      apply div_of_Z_exact; nia.
    + intros ->. rewrite Hreward.
      change (JsNumber.sub (JsNumber.of_Z 1)
                (JsNumber.div (JsNumber.of_Z 100) (JsNumber.of_Z 100)))
        with (JsNumber.of_Z 0).
      rewrite mul_of_Z, Z.mul_0_r by lia. f_equal.
      replace 0 with (M * 0) at 1 by lia.
      apply div_of_Z_exact; lia.
  - by vm_compute.
Qed.

(** ** The argument encoder *)

Lemma le_digits_fuel_spec fuel :
  ∀ n, 0 ≤ n < 2 ^ Z.of_nat fuel →
       le_value (le_digits_fuel fuel n) = n
       ∧ Forall byte_range (le_digits_fuel fuel n).
Proof.
  induction fuel as [|fuel IH]; intros n Hn.
  - simpl in *. split; [lia|constructor].
  - simpl le_digits_fuel. destruct (Z.leb_spec n 0) as [H0|Hpos].
    + simpl. split; [lia|constructor].
    + assert (0 ≤ n / 256 < 2 ^ Z.of_nat fuel) as Hq.
      { split; [apply Z.div_pos; lia|].
        apply Z.div_lt_upper_bound; [lia|].
        rewrite Nat2Z.inj_succ, Z.pow_succ_r in Hn by lia. lia. }
      destruct (IH _ Hq) as [Hval Hall].
      split.
      * simpl. rewrite Hval.
        pose proof (Z.div_mod n 256 ltac:(lia)). lia.
      * constructor; [|done].
        unfold byte_range. pose proof (Z.mod_pos_bound n 256 ltac:(lia)). lia.
Qed.

Lemma le_digits_spec n :
  0 ≤ n → le_value (le_digits n) = n ∧ Forall byte_range (le_digits n).
Proof.
  intros Hn. unfold le_digits. apply le_digits_fuel_spec.
  split; [done|].
  destruct (decide (n = 0)) as [->|Hne]; [done|].
  rewrite Nat2Z.inj_succ, Z2Nat.id by apply Z.log2_nonneg.
  apply Z.log2_spec. lia.
Qed.

Lemma toArray_le_spec z arr :
  BN.toArray_le (BN.Int z) = Some arr →
  le_value arr = Z.abs z ∧ Forall byte_range arr ∧ arr ≠ [].
Proof.
  simpl. intros [= <-].
  destruct (le_digits_spec (Z.abs z) (Z.abs_nonneg z)) as [Hval Hall].
  destruct (le_digits (Z.abs z)) as [|b bs] eqn:E.
  - simpl in Hval. rewrite <- Hval. repeat split; [|done].
    repeat constructor; unfold byte_range; lia.
  - done.
Qed.

Lemma le_value_app_zeros bs k : le_value (bs ++ replicate k 0) = le_value bs.
Proof.
  induction bs as [|b bs IH].
  - induction k as [|k IHk]; [done|].
    change (le_value ([] ++ replicate (S k) 0))
      with (0 + 256 * le_value ([] ++ replicate k 0)).
    rewrite IHk. done.
  - change (le_value ((b :: bs) ++ replicate k 0))
      with (b + 256 * le_value (bs ++ replicate k 0)).
    by rewrite IH.
Qed.

Lemma le_value_take k :
  ∀ bs, Forall byte_range bs →
        le_value (take k bs) = le_value bs mod 256 ^ Z.of_nat k.
Proof.
  induction k as [|k IH]; intros bs Hall.
  - simpl. by rewrite Z.mod_1_r.
  - destruct bs as [|b bs]; [by rewrite Z.mod_0_l by lia|].
    apply Forall_cons in Hall as [Hb Hall].
    change (le_value (take (S k) (b :: bs))) with (b + 256 * le_value (take k bs)).
    change (le_value (b :: bs)) with (b + 256 * le_value bs).
    rewrite (IH _ Hall), Nat2Z.inj_succ, Z.pow_succ_r by lia.
    set (P := 256 ^ Z.of_nat k). assert (0 < P) by (apply Z.pow_pos_nonneg; lia).
    pose proof (Z.div_mod (le_value bs) P ltac:(lia)) as Hdm.
    pose proof (Z.mod_pos_bound (le_value bs) P ltac:(lia)) as Hr.
    unfold byte_range in Hb.
    apply (Z.mod_unique_pos _ _ (le_value bs / P)); [lia|].
    rewrite Hdm at 1. ring.
Qed.

(** With format ['byte'] or ['int8'] the encoder depends on the value
    through [parseInt(value, 10)] only. *)
Lemma argToBytes_byte_parseInt (data : Arg) :
  arg_format data = "byte"%string ∨ arg_format data = "int8"%string →
  (∀ bs, argToBytes data = inr bs
         ↔ ∃ v, JsString.parseInt10 (arg_value data) = Some v
                ∧ 0 ≤ v ≤ 255 ∧ bs = [v])
  ∧ ((∀ v, JsString.parseInt10 (arg_value data) = Some v → ¬ 0 ≤ v ≤ 255) →
     ∃ r, argToBytes data
          = inl {| err_format := arg_format data;
                   err_index := arg_index data;
                   err_reason := r |}
          ∧ reason_message r
            = Some ("invalid " ++ arg_format data ++ " value")%string)
  ∧ (arg_value data = "-1"%string ∨ arg_value data = "256"%string →
     ∃ e, argToBytes data = inl e
          ∧ err_format e = arg_format data ∧ err_index e = arg_index data
          ∧ error_message_prefix e
            = ("cannot parse " ++ arg_format data ++ " at index "
               ++ JsString.of_N (N.of_nat (arg_index data)) ++ ": ")%string).
Proof.
  intros Hfmt.
  assert (∃ r, reason_message r
               = Some ("invalid " ++ arg_format data ++ " value")%string
             ∧ argToBytes_try data
               = match JsString.parseInt10 (arg_value data) with
                 | Some val => if (0 <=? val) && (val <=? 255) then inr [val]
                               else inl r
                 | None => inl r
                 end) as (r & Hr & Htry).
  { unfold argToBytes_try.
    destruct Hfmt as [-> | ->];
      [exists InvalidByteValue | exists InvalidInt8Value]; split; reflexivity. }
  unfold argToBytes. rewrite Htry. clear Htry.
  destruct (JsString.parseInt10 (arg_value data)) as [val|] eqn:Hp.
  - destruct (Z.leb_spec 0 val), (Z.leb_spec val 255); simpl.
    + split; [|split].
      * intros bs. split.
        -- intros [= <-]. eauto.
        -- intros (v & [= <-] & _ & ->). done.
      * intros Hno. exfalso. apply (Hno val); [done|lia].
      * intros [Hv|Hv]; rewrite Hv in Hp; vm_compute in Hp;
          injection Hp as <-; lia.
    + split; [|split]; eauto.
      intros bs. split; [done|]. intros (v & [= <-] & ? & _). lia.
    + split; [|split]; eauto.
      intros bs. split; [done|]. intros (v & [= <-] & ? & _). lia.
    + lia.
  - split; [|split]; eauto.
    intros bs. split; [done|]. intros (v & [=] & _).
Qed.

(** *** Decimal numerals read by bn.js *)

Lemma span_digits_numeral d :
  JsString.span_digits (NilEmpty.string_of_uint d) = (uint_digits d, EmptyString).
Proof. induction d; simpl; try rewrite IHd; reflexivity. Qed.

Lemma of_uint_acc_value d :
  ∀ acc, Z.pos (Pos.of_uint_acc d acc)
         = fold_left (λ acc d, 10 * acc + d) (uint_digits d) (Z.pos acc).
Proof.
  induction d; intros acc; simpl; try rewrite IHd; try f_equal;
    try reflexivity; rewrite ?Pos2Z.inj_add, ?Pos2Z.inj_mul; try lia.
Qed.

Lemma of_uint_value d :
  Z.of_N (Pos.of_uint d) = JsString.decimal_value (uint_digits d).
Proof.
  unfold JsString.decimal_value.
  induction d; simpl; try done; rewrite of_uint_acc_value; reflexivity.
Qed.

Lemma white_space_digit a r d :
  JsString.digit a = Some d → JsString.white_space (String a r) = None.
Proof.
  unfold JsString.digit, JsString.white_space.
  set (c := JsString.code a). intros H.
  destruct ((48 <=? c) && (c <=? 57)) eqn:E; [|done].
  apply andb_true_iff in E as [?%Z.leb_le ?%Z.leb_le].
  replace (c <=? 13) with false by (symmetry; apply Z.leb_gt; lia).
  replace (c =? 32) with false by (symmetry; apply Z.eqb_neq; lia).
  replace (c =? 194) with false by (symmetry; apply Z.eqb_neq; lia).
  replace (c =? 225) with false by (symmetry; apply Z.eqb_neq; lia).
  replace (c =? 226) with false by (symmetry; apply Z.eqb_neq; lia).
  replace (c =? 227) with false by (symmetry; apply Z.eqb_neq; lia).
  replace (c =? 239) with false by (symmetry; apply Z.eqb_neq; lia).
  rewrite andb_false_r. simpl.
  destruct r as [|b [|e r]]; reflexivity.
Qed.

Lemma remove_white_space_digits s :
  snd (JsString.span_digits s) = EmptyString →
  ∀ fuel, JsString.remove_white_space_fuel fuel s = s.
Proof.
  induction s as [|a s IH]; intros Hall fuel.
  - by destruct fuel.
  - destruct fuel as [|fuel]; [done|].
    simpl in Hall. destruct (JsString.digit a) as [d|] eqn:Hd; [|done].
    cbn [JsString.remove_white_space_fuel].
    rewrite (white_space_digit a s d Hd).
    destruct (JsString.span_digits s) as [ds rest] eqn:Hs. simpl in Hall.
    rewrite IH; done.
Qed.

Lemma numeral_head_digit n :
  ∃ a r d, JsString.of_N n = String a r ∧ JsString.digit a = Some d.
Proof.
  unfold JsString.of_N, NilZero.string_of_uint.
  destruct (N.to_uint n) as [|u|u|u|u|u|u|u|u|u|u]; simpl; eauto.
Qed.

Lemma span_digits_of_N n :
  ∃ ds, JsString.span_digits (JsString.of_N n) = (ds, EmptyString)
        ∧ JsString.decimal_value ds = Z.of_N n.
Proof.
  unfold JsString.of_N.
  pose proof (DecimalN.Unsigned.of_to n) as Hn. unfold N.of_uint in Hn.
  set (u := N.to_uint n) in *.
  assert (u = Decimal.Nil
          ∨ NilZero.string_of_uint u = NilEmpty.string_of_uint u) as [Hu|Hu]
    by (destruct u; auto).
  - rewrite Hu in *. exists [0]. split; [done|]. by rewrite <- Hn.
  - rewrite Hu, span_digits_numeral. eexists. split; [done|].
    by rewrite <- of_uint_value, Hn.
Qed.

(** *** The text read by [parseInt] *)

Lemma ascii_of_code a : ascii_of_N (Z.to_N (JsString.code a)) = a.
Proof. unfold JsString.code. by rewrite N2Z.id, ascii_N_embedding. Qed.

Lemma digit_digit_char d : 0 ≤ d ≤ 9 → JsString.digit (digit_char d) = Some d.
Proof.
  intros Hd.
  assert (d = 0 ∨ d = 1 ∨ d = 2 ∨ d = 3 ∨ d = 4 ∨ d = 5 ∨ d = 6 ∨ d = 7
          ∨ d = 8 ∨ d = 9) as Hcases by lia.
  repeat destruct Hcases as [-> | Hcases]; try reflexivity.
  by rewrite Hcases.
Qed.

Lemma digit_inv a d :
  JsString.digit a = Some d → 0 ≤ d ≤ 9 ∧ a = digit_char d.
Proof.
  unfold JsString.digit, digit_char.
  destruct (_ && _) eqn:E; [|done]. intros [= <-].
  apply andb_true_iff in E as [?%Z.leb_le ?%Z.leb_le].
  split; [lia|].
  replace (48 + (JsString.code a - 48)) with (JsString.code a) by lia.
  by rewrite ascii_of_code.
Qed.

Lemma decimal_value_positional ds :
  JsString.decimal_value ds = positional_value ds.
Proof.
  unfold JsString.decimal_value.
  assert (∀ acc, fold_left (λ acc d, 10 * acc + d) ds acc
                 = acc * 10 ^ Z.of_nat (length ds) + positional_value ds)
    as H; [|rewrite H; lia].
  induction ds as [|d ds IH]; intros acc; simpl fold_left.
  - simpl. lia.
  - rewrite IH. cbn [positional_value length].
    rewrite Nat2Z.inj_succ, Z.pow_succ_r by lia. ring.
Qed.

Lemma span_digits_spec s :
  ∀ ds rest,
    JsString.span_digits s = (ds, rest) →
    s = (decimal_text ds ++ rest)%string
    ∧ Forall (λ d, 0 ≤ d ≤ 9) ds ∧ no_leading_digit rest.
Proof.
  induction s as [|a s IH]; intros ds rest.
  - simpl. intros [= <- <-]. repeat split; [constructor|by intros d r _].
  - simpl. destruct (JsString.digit a) as [d|] eqn:Hd.
    + destruct (JsString.span_digits s) as [ds' rest'].
      intros [= <- <-]. destruct (IH _ _ eq_refl) as (Hs & Hall & Hrest).
      apply digit_inv in Hd as [Hd ->].
      repeat split; [|by constructor|done].
      unfold decimal_text. cbn [fmap list_fmap string_of_list_ascii].
      change (String (digit_char d) s
              = String (digit_char d) (decimal_text ds' ++ rest')).
      by rewrite <- Hs.
    + intros [= <- <-]. repeat split; [constructor|].
      intros d r Hd' [= -> _]. by rewrite digit_digit_char in Hd.
Qed.

Lemma span_digits_text ds rest :
  Forall (λ d, 0 ≤ d ≤ 9) ds → no_leading_digit rest →
  JsString.span_digits (decimal_text ds ++ rest) = (ds, rest).
Proof.
  intros Hall Hrest. induction Hall as [|d ds Hd Hall IH].
  - change (JsString.span_digits rest = ([], rest)).
    destruct rest as [|a r]; [done|]. simpl.
    destruct (JsString.digit a) as [d|] eqn:Hd; [|done].
    apply digit_inv in Hd as [Hd ->]. by destruct (Hrest d r Hd).
  - change (JsString.span_digits
              (String (digit_char d) (decimal_text ds ++ rest))
            = (d :: ds, rest)).
    simpl. by rewrite digit_digit_char, IH.
Qed.

Lemma bytes_cons a r : JsString.bytes (String a r) = JsString.code a :: JsString.bytes r.
Proof. reflexivity. Qed.

Lemma code_eq a z : JsString.code a = z → a = ascii_of_N (Z.to_N z).
Proof. intros <-. by rewrite ascii_of_code. Qed.

Lemma bytes_nil_inv s : JsString.bytes s = [] → s = EmptyString.
Proof. by destruct s. Qed.

Lemma bytes_cons_inv s z l :
  JsString.bytes s = z :: l →
  ∃ r, s = String (ascii_of_N (Z.to_N z)) r ∧ JsString.bytes r = l.
Proof.
  destruct s as [|a r]; [done|]. rewrite bytes_cons. intros [= Ha Hr].
  exists r. by rewrite (code_eq a z Ha).
Qed.

(** A white space character at the head of the text is what
    [white_space] removes. *)
Lemma white_space_head c r :
  JsString.bytes c ∈ white_space_codes →
  JsString.white_space (c ++ r) = Some r.
Proof.
  unfold white_space_codes. rewrite !elem_of_cons, elem_of_nil.
  intros H.
  repeat destruct H as [H|H]; try done;
    repeat (apply bytes_cons_inv in H as (? & -> & H));
    apply bytes_nil_inv in H as ->; reflexivity.
Qed.

Lemma white_space_inv s r :
  JsString.white_space s = Some r →
  ∃ c, JsString.bytes c ∈ white_space_codes ∧ s = (c ++ r)%string
       ∧ (String.length r < String.length s)%nat.
Proof.
  unfold JsString.white_space.
  destruct s as [|a r1]; [done|].
  set (c1 := JsString.code a).
  destruct ((9 <=? c1) && (c1 <=? 13) || (c1 =? 32)) eqn:E1.
  { intros [= <-]. exists (String a EmptyString).
    split; [|split; [reflexivity|simpl; lia]].
    rewrite bytes_cons. fold c1. change (JsString.bytes "") with (@nil Z).
    assert (c1 = 9 ∨ c1 = 10 ∨ c1 = 11 ∨ c1 = 12 ∨ c1 = 13 ∨ c1 = 32) as H.
    { apply orb_true_iff in E1 as [E1|E1]; [|apply Z.eqb_eq in E1; lia].
      apply andb_true_iff in E1 as [?%Z.leb_le ?%Z.leb_le]. lia. }
    unfold white_space_codes.
    repeat destruct H as [-> | H]; try rewrite H; repeat constructor. }
  destruct r1 as [|b r2]; [done|].
  set (c2 := JsString.code b).
  destruct ((c1 =? 194) && (c2 =? 160)) eqn:E2.
  { intros [= <-]. exists (String a (String b EmptyString)).
    split; [|split; [reflexivity|simpl; lia]].
    rewrite !bytes_cons. fold c1 c2. change (JsString.bytes "") with (@nil Z).
    apply andb_true_iff in E2 as [->%Z.eqb_eq ->%Z.eqb_eq].
    unfold white_space_codes. repeat constructor. }
  destruct r2 as [|d r3]; [done|].
  set (c3 := JsString.code d).
  match goal with
  | |- (if ?c then _ else _) = _ → _ => destruct c eqn:E3; [|done]
  end.
  intros [= <-]. exists (String a (String b (String d EmptyString))).
  split; [|split; [reflexivity|simpl; lia]].
  rewrite !bytes_cons. fold c1 c2 c3. change (JsString.bytes "") with (@nil Z).
  clearbody c1 c2 c3. clear E1 E2.
  assert (c1 = 225 ∧ c2 = 154 ∧ c3 = 128
          ∨ c1 = 226 ∧ c2 = 128
            ∧ (c3 = 128 ∨ c3 = 129 ∨ c3 = 130 ∨ c3 = 131 ∨ c3 = 132
               ∨ c3 = 133 ∨ c3 = 134 ∨ c3 = 135 ∨ c3 = 136 ∨ c3 = 137
               ∨ c3 = 138 ∨ c3 = 168 ∨ c3 = 169 ∨ c3 = 175)
          ∨ c1 = 226 ∧ c2 = 129 ∧ c3 = 159
          ∨ c1 = 227 ∧ c2 = 128 ∧ c3 = 128
          ∨ c1 = 239 ∧ c2 = 187 ∧ c3 = 191) as H.
  { rewrite !orb_true_iff, !andb_true_iff, !orb_true_iff, !andb_true_iff,
      !Z.eqb_eq, !Z.leb_le in E3. lia. }
  unfold white_space_codes.
  destruct H as [(-> & -> & ->)|[(-> & -> & H)|[(-> & -> & ->)
                 |[(-> & -> & ->)|(-> & -> & ->)]]]];
    [repeat constructor| |repeat constructor..].
  repeat destruct H as [-> | H]; try rewrite H; repeat constructor.
Qed.

Lemma white_space_visible a r :
  33 ≤ JsString.code a ≤ 127 → JsString.white_space (String a r) = None.
Proof.
  unfold JsString.white_space. set (c := JsString.code a). intros H.
  replace (c <=? 13) with false by (symmetry; apply Z.leb_gt; lia).
  replace (c =? 32) with false by (symmetry; apply Z.eqb_neq; lia).
  replace (c =? 194) with false by (symmetry; apply Z.eqb_neq; lia).
  replace (c =? 225) with false by (symmetry; apply Z.eqb_neq; lia).
  replace (c =? 226) with false by (symmetry; apply Z.eqb_neq; lia).
  replace (c =? 227) with false by (symmetry; apply Z.eqb_neq; lia).
  replace (c =? 239) with false by (symmetry; apply Z.eqb_neq; lia).
  rewrite andb_false_r. simpl.
  destruct r as [|b [|e r]]; reflexivity.
Qed.

Lemma string_app_length (s1 s2 : string) :
  String.length (s1 ++ s2) = (String.length s1 + String.length s2)%nat.
Proof. induction s1 as [|a s1 IH]; [done|]. simpl. by rewrite <- IH. Qed.

Lemma string_app_assoc (s1 s2 s3 : string) :
  ((s1 ++ s2) ++ s3 = s1 ++ (s2 ++ s3))%string.
Proof.
  induction s1 as [|a s1 IH]; [done|].
  change (String a ((s1 ++ s2) ++ s3) = String a (s1 ++ (s2 ++ s3)))%string.
  by rewrite IH.
Qed.

Lemma trimStart_fuel_inv fuel :
  ∀ s, (String.length s ≤ fuel)%nat →
       ∃ ws, white_spaces ws
             ∧ s = (ws ++ JsString.trimStart_fuel fuel s)%string
             ∧ JsString.white_space (JsString.trimStart_fuel fuel s) = None.
Proof.
  induction fuel as [|fuel IH]; intros s Hlen.
  - destruct s; [|simpl in Hlen; lia].
    exists EmptyString. repeat split; constructor.
  - simpl. destruct (JsString.white_space s) as [r|] eqn:Hw.
    + apply white_space_inv in Hw as (c & Hc & -> & Hlt).
      destruct (IH r ltac:(lia)) as (ws & Hws & Hr & Hnone).
      exists (c ++ ws)%string. split; [by constructor|]. split; [|done].
      rewrite string_app_assoc. by rewrite <- Hr.
    + exists EmptyString. repeat split; [constructor|done].
Qed.

Lemma white_space_bytes_length c :
  JsString.bytes c ∈ white_space_codes → (1 ≤ String.length c)%nat.
Proof.
  destruct c; [|simpl; lia].
  unfold white_space_codes. rewrite !elem_of_cons, elem_of_nil.
  intros H. repeat destruct H as [H|H]; done.
Qed.

Lemma trimStart_fuel_white ws s' :
  white_spaces ws → JsString.white_space s' = None →
  ∀ fuel, (String.length (ws ++ s') ≤ fuel)%nat →
          JsString.trimStart_fuel fuel (ws ++ s') = s'.
Proof.
  intros Hws Hnone. induction Hws as [|c r Hc Hr IH]; intros fuel Hlen.
  - change (JsString.trimStart_fuel fuel s' = s').
    destruct fuel; [done|]. simpl. by rewrite Hnone.
  - rewrite string_app_assoc in *.
    rewrite string_app_length in Hlen.
    pose proof (white_space_bytes_length c Hc).
    destruct fuel as [|fuel]; [lia|].
    simpl. rewrite white_space_head by done. apply IH. lia.
Qed.

Lemma sign_match s a r :
  s = String a r → a ≠ "-"%char → a ≠ "+"%char →
  match s with
  | String "-"%char r0 => (true, r0)
  | String "+"%char r0 => (false, r0)
  | _ => (false, s)
  end = (false, s).
Proof. intros -> H1 H2. destruct a as [[] [] [] [] [] [] [] []]; done. Qed.

Lemma sign_match_head a r :
  a ≠ "-"%char → a ≠ "+"%char →
  match String a r with
  | String "-"%char r0 => (true, r0)
  | String "+"%char r0 => (false, r0)
  | _ => (false, String a r)
  end = (false, String a r).
Proof. by apply (sign_match _ a r). Qed.

(** [parseInt] in base 10 reads exactly the texts of [reads_integer]. *)
Lemma parseInt10_reads s v :
  JsString.parseInt10 s = Some v ↔ reads_integer s v.
Proof.
  unfold JsString.parseInt10, JsString.trimStart. split.
  - destruct (trimStart_fuel_inv (String.length s) s ltac:(lia))
      as (ws & Hws & Hs & Hnone).
    set (s1 := JsString.trimStart_fuel (String.length s) s) in *.
    assert (∀ sign neg s2,
              s1 = (sign ++ s2)%string →
              (neg = false ∧ (sign = "" ∨ sign = "+")%string
               ∨ neg = true ∧ sign = "-"%string) →
              match fst (JsString.span_digits s2) with
              | [] => None
              | ds => Some (if neg : bool then - JsString.decimal_value ds
                            else JsString.decimal_value ds)
              end = Some v → reads_integer s v) as Hbody.
    { intros sign neg s2 Hs1 Hsign.
      destruct (JsString.span_digits s2) as [ds rest] eqn:Hspan.
      apply span_digits_spec in Hspan as (Hs2 & Hall & Hrest).
      cbn [fst]. destruct ds as [|d ds]; [done|].
      intros [= <-]. exists ws, sign, (d :: ds), rest.
      rewrite <- Hs2, <- Hs1.
      rewrite decimal_value_positional.
      repeat split; try done.
      destruct Hsign as [[-> Hsign]|[-> Hsign]]; [left|right]; done. }
    destruct s1 as [|a r] eqn:Es1.
    { apply (Hbody "" false ""); [done|left; split; [done|by left]]. }
    destruct (Ascii.ascii_dec a "-") as [->|Hm].
    { apply (Hbody "-" true r); [done|by right]. }
    destruct (Ascii.ascii_dec a "+") as [->|Hp].
    { apply (Hbody "+" false r); [done|left; split; [done|by right]]. }
    rewrite sign_match_head by done.
    apply (Hbody "" false (String a r)); [done|left; split; [done|by left]].
  - intros (ws & sign & ds & rest & -> & Hws & Hsign & Hne & Hall & Hrest).
    destruct ds as [|d ds]; [done|].
    apply Forall_cons in Hall as [Hd Hall].
    assert (∀ a r, a = "-"%char ∨ a = "+"%char ∨ a = digit_char d →
                   JsString.white_space (String a r) = None) as Hvis.
    { intros a r [-> | [-> | ->]]; [by apply white_space_visible..|].
      apply (white_space_digit _ _ d). by apply digit_digit_char. }
    assert (JsString.white_space
              (sign ++ decimal_text (d :: ds) ++ rest) = None) as Hnone.
    { destruct Hsign as [[[-> | ->] _] | [-> _]].
      - apply Hvis. auto.
      - apply Hvis. auto.
      - apply Hvis. auto. }
    rewrite trimStart_fuel_white by done.
    assert (JsString.span_digits (decimal_text (d :: ds) ++ rest)
            = (d :: ds, rest)) as Hspan
      by (apply span_digits_text; [by constructor|done]).
    rewrite <- decimal_value_positional in Hsign.
    destruct Hsign as [[[-> | ->] ->] | [-> ->]].
    + change ("" ++ decimal_text (d :: ds) ++ rest)%string
        with (String (digit_char d) (decimal_text ds ++ rest)).
      rewrite (sign_match _ (digit_char d) (decimal_text ds ++ rest)).
      * change (String (digit_char d) (decimal_text ds ++ rest))
          with (decimal_text (d :: ds) ++ rest)%string.
        by rewrite Hspan.
      * done.
      * intros E. pose proof (digit_digit_char d Hd) as H.
        rewrite E in H. done.
      * intros E. pose proof (digit_digit_char d Hd) as H.
        rewrite E in H. done.
    + change ("+" ++ decimal_text (d :: ds) ++ rest)%string
        with (String "+" (decimal_text (d :: ds) ++ rest)).
      cbv iota beta. by rewrite Hspan.
    + change ("-" ++ decimal_text (d :: ds) ++ rest)%string
        with (String "-" (decimal_text (d :: ds) ++ rest)).
      cbv iota beta. by rewrite Hspan.
Qed.

Lemma string_app_empty_r (s : string) : (s ++ "")%string = s.
Proof.
  induction s as [|a s IH]; [done|].
  change (String a (s ++ "") = String a s)%string. by rewrite IH.
Qed.

(** The decimal numeral of [n], followed by text that does not go on with
    a digit, is read as [n]. *)
Lemma reads_integer_numeral (n : N) (rest : string) :
  no_leading_digit rest →
  reads_integer (JsString.of_N n ++ rest) (Z.of_N n).
Proof.
  intros Hrest.
  destruct (span_digits_of_N n) as (ds & Hspan & Hval).
  destruct (numeral_head_digit n) as (a & r & d & Hstr & _).
  apply span_digits_spec in Hspan as (Htext & Hall & _).
  rewrite string_app_empty_r in Htext.
  exists EmptyString, EmptyString, ds, rest.
  rewrite <- decimal_value_positional, Hval, <- Htext.
  repeat split; try done; [constructor|by left; split; [left|]|].
  intros ->. by rewrite Hstr in Htext.
Qed.

Lemma reads_integer_example : reads_integer " +07.5" 7.
Proof.
  exists " "%string, "+"%string, [0; 7], ".5"%string.
  repeat split.
  - apply (white_spaces_cons " " ""); [|constructor].
    unfold white_space_codes. repeat constructor.
  - left. split; [by right|done].
  - done.
  - repeat constructor; lia.
  - intros d r Hd [= E _].
    pose proof (digit_digit_char d Hd) as H. by rewrite <- E in H.
Qed.

(** C5, as stated, fails on text that is no number: ['12px'], ['1.9'] and
    ['1e3'] are encoded, as the bytes 12, 1 and 1. *)
Lemma argToBytes_byte_accepts_text :
  argToBytes {| arg_index := 0; arg_format := "byte"; arg_value := "12px" |}
  = inr [12]
  ∧ argToBytes {| arg_index := 0; arg_format := "byte"; arg_value := "1.9" |}
    = inr [1]
  ∧ argToBytes {| arg_index := 0; arg_format := "int8"; arg_value := "1e3" |}
    = inr [1].
Proof. repeat split; reflexivity. Qed.

(** C5, amended: with format ['byte'] or ['int8'] the encoder returns the
    single byte [v] exactly when the value is white space, an optional
    sign and decimal digits of value [v] with [0 <= v <= 255], followed by
    any text that does not go on with a digit (which is ignored); any other
    value, such as -1 or 256 or text without a leading digit, fails with
    the error that carries the format and the index of the argument.  In
    particular the decimal numeral of [n], whatever follows it, is encoded
    as [n] when [n <= 255] and fails otherwise. *)
Theorem argToBytes_byte (data : Arg) :
  arg_format data = "byte"%string ∨ arg_format data = "int8"%string →
  (∀ bs, argToBytes data = inr bs
         ↔ ∃ v, reads_integer (arg_value data) v ∧ 0 ≤ v ≤ 255 ∧ bs = [v])
  ∧ ((¬ ∃ v, reads_integer (arg_value data) v ∧ 0 ≤ v ≤ 255) →
     ∃ r, argToBytes data
          = inl {| err_format := arg_format data;
                   err_index := arg_index data;
                   err_reason := r |}
          ∧ reason_message r
            = Some ("invalid " ++ arg_format data ++ " value")%string)
  ∧ (∀ (n : N) (rest : string),
       arg_value data = (JsString.of_N n ++ rest)%string →
       no_leading_digit rest →
       ((n ≤ 255)%N → argToBytes data = inr [Z.of_N n])
       ∧ ((255 < n)%N →
          ∃ r, argToBytes data
               = inl {| err_format := arg_format data;
                        err_index := arg_index data;
                        err_reason := r |}
               ∧ reason_message r
                 = Some ("invalid " ++ arg_format data ++ " value")%string))
  ∧ (arg_value data = "-1"%string ∨ arg_value data = "256"%string →
     ∃ e, argToBytes data = inl e
          ∧ err_format e = arg_format data ∧ err_index e = arg_index data
          ∧ error_message_prefix e
            = ("cannot parse " ++ arg_format data ++ " at index "
               ++ JsString.of_N (N.of_nat (arg_index data)) ++ ": ")%string).
Proof.
  intros Hfmt.
  destruct (argToBytes_byte_parseInt data Hfmt) as (Hok & Herr & Hex).
  assert (∀ bs, argToBytes data = inr bs
                ↔ ∃ v, reads_integer (arg_value data) v
                       ∧ 0 ≤ v ≤ 255 ∧ bs = [v]) as Hreads.
  { intros bs. rewrite Hok. split.
    - intros (v & Hv & Hrange). exists v. by rewrite <- parseInt10_reads.
    - intros (v & Hv & Hrange). exists v. by rewrite parseInt10_reads. }
  split; [done|]. split; [|split; [|done]].
  - intros Hno. apply Herr. intros v Hv Hrange. apply Hno.
    exists v. by rewrite <- parseInt10_reads.
  - intros n rest Hvalue Hrest.
    pose proof (reads_integer_numeral n rest Hrest) as Hn.
    rewrite <- Hvalue in Hn. split.
    + intros Hle. apply Hreads. exists (Z.of_N n).
      split; [done|]. split; [lia|done].
    + intros Hgt. apply Herr.
      intros v Hv. apply parseInt10_reads in Hn. rewrite Hn in Hv.
      injection Hv as <-. lia.
Qed.

Lemma argToBytes_byte_witness :
  argToBytes {| arg_index := 4; arg_format := "byte"; arg_value := " +07.5" |}
  = inr [7].
Proof.
  apply (proj1 (argToBytes_byte
                  {| arg_index := 4; arg_format := "byte";
                     arg_value := " +07.5" |}
                  (or_introl eq_refl))).
  exists 7. split; [exact reads_integer_example|]. split; [lia|reflexivity].
Defined.

(** *** Decimal numerals read by bn.js, continued *)

Lemma BN_new_init s : s ≠ EmptyString → BN.new s = BN.init_string s.
Proof. by destruct s. Qed.

(** [new BN] reads the decimal numeral of [n] as [n], and the numeral
    preceded by ["-"] as [- n]. *)
Lemma BN_new_numeral (n : N) :
  BN.new (JsString.of_N n) = Some (BN.Int (Z.of_N n))
  ∧ BN.new (String "-" (JsString.of_N n)) = Some (BN.Int (- Z.of_N n)).
Proof.
  destruct (span_digits_of_N n) as (ds & Hspan & Hval).
  destruct (numeral_head_digit n) as (a & r & d & Hstr & Hd).
  assert (∀ fuel, JsString.remove_white_space_fuel fuel (JsString.of_N n)
                  = JsString.of_N n) as Hrm
    by (apply remove_white_space_digits; by rewrite Hspan).
  split.
  - rewrite BN_new_init by (by rewrite ?Hstr).
    unfold BN.init_string, JsString.remove_white_space. rewrite Hrm.
    rewrite Hstr in *.
    assert (a ≠ "-"%char) as Hne by (intros ->; done).
    destruct (Ascii.ascii_dec a "-") as [?|_]; [done|].
    replace (match String a r with String "-"%char r0 => (true, r0) | _ => (false, String a r) end)
      with (false, String a r).
    2:{ destruct a as [[] [] [] [] [] [] [] []]; try done. }
    rewrite Hspan, Hval. done.
  - rewrite BN_new_init by done.
    unfold BN.init_string, JsString.remove_white_space.
    cbn [String.length JsString.remove_white_space_fuel].
    replace (JsString.white_space (String "-" (JsString.of_N n))) with (@None string).
    2:{ rewrite Hstr. destruct r as [|b [|e r]]; reflexivity. }
    rewrite Hrm, Hstr. rewrite Hstr in Hspan. rewrite Hspan, Hval. done.
Qed.

(** C4: with format ['uint64'] the value is read as an integer [z] of any
    size (the decimal numeral of [n] as [n], preceded by ["-"] as [- n]); a
    negative integer fails with the encoding error, and any other gives
    exactly 8 bytes, least significant first, whose value is the integer
    modulo 2^64: small values are padded with zeros and values of more than
    64 bits lose their high bytes. *)
Theorem argToBytes_uint64 (data : Arg) (z : Z) :
  arg_format data = "uint64"%string →
  BN.new (arg_value data) = Some (BN.Int z) →
  (∀ n, arg_value data = JsString.of_N n → z = Z.of_N n)
  ∧ (∀ n, arg_value data = String "-" (JsString.of_N n) → z = - Z.of_N n)
  ∧ (z < 0 →
     argToBytes data
     = inl {| err_format := "uint64"; err_index := arg_index data;
              err_reason := InvalidUint64Value |})
  ∧ (0 ≤ z →
     ∃ bs, argToBytes data = inr bs
           ∧ length bs = 8%nat
           ∧ Forall byte_range bs
           ∧ le_value bs = z mod 2 ^ 64
           ∧ (z < 2 ^ 64 → le_value bs = z)).
Proof.
  intros Hfmt Hnew.
  split; [|split].
  { intros n Hn. rewrite Hn, (proj1 (BN_new_numeral n)) in Hnew. congruence. }
  { intros n Hn. rewrite Hn, (proj2 (BN_new_numeral n)) in Hnew. congruence. }
  unfold argToBytes, argToBytes_try. rewrite Hfmt, Hnew. simpl BN.isNeg.
  cbn [String.eqb Ascii.eqb Bool.eqb].
  split; intros Hz.
  - destruct (Z.ltb_spec z 0); [done|lia].
  - destruct (Z.ltb_spec z 0); [lia|].
    destruct (BN.toArray_le (BN.Int z)) as [arr|] eqn:Harr; [|done].
    apply toArray_le_spec in Harr as (Hval & Hall & _).
    rewrite Z.abs_eq in Hval by done.
    assert (Forall byte_range (arr ++ replicate 8 0)) as Hall'.
    { apply Forall_app. split; [done|].
      repeat constructor; unfold byte_range; lia. }
    eexists. split; [reflexivity|].
    assert (le_value (take 8 (arr ++ replicate 8 0)) = z mod 2 ^ 64) as Hmod.
    { rewrite le_value_take, le_value_app_zeros, Hval by done. done. }
    repeat split.
    + rewrite length_take, length_app, length_replicate. lia.
    + by apply Forall_take.
    + done.
    + intros Hlt. rewrite Hmod. apply Z.mod_small. lia.
Qed.

Lemma argToBytes_uint64_witness :
  (∃ bs, argToBytes {| arg_index := 1; arg_format := "uint64"; arg_value := "258" |}
         = inr bs ∧ length bs = 8%nat ∧ le_value bs = 258)
  ∧ argToBytes {| arg_index := 1; arg_format := "uint64"; arg_value := "-5" |}
    = inl {| err_format := "uint64"; err_index := 1;
             err_reason := InvalidUint64Value |}.
Proof.
  split.
  - destruct (argToBytes_uint64
                {| arg_index := 1; arg_format := "uint64"; arg_value := "258" |}
                258 eq_refl eq_refl) as (_ & _ & _ & H).
    destruct (H ltac:(lia)) as (bs & Hbs & Hlen & _ & _ & Hsmall).
    exists bs. repeat split; [done|done|apply Hsmall; lia].
  - apply (argToBytes_uint64
             {| arg_index := 1; arg_format := "uint64"; arg_value := "-5" |}
             (-5) eq_refl eq_refl). lia.
Defined.

(** C3, evaluated: ['1.5'] with format ['dna'] gives the big-endian bytes
    of 1500000000000000000.  The product is rounded to the 20 significant
    digits of the decimal library, though: ['1234.12345678901234567'], whose
    exact product is 1234123456789012345670, is encoded as
    1234123456789012345700. *)
Theorem argToBytes_dna_rounds :
  argToBytes {| arg_index := 0; arg_format := "dna"; arg_value := "1.5" |}
    = inr [20; 209; 18; 13; 123; 22; 0; 0]
  ∧ be_value [20; 209; 18; 13; 123; 22; 0; 0] = 1500000000000000000
  ∧ ∃ bs, argToBytes {| arg_index := 0; arg_format := "dna";
                        arg_value := "1234.12345678901234567" |} = inr bs
          ∧ be_value bs = 1234123456789012345700
          ∧ be_value bs ≠ 123412345678901234567 * 10.
Proof.
  split; [by vm_compute|]. split; [by vm_compute|].
  eexists. split; [vm_compute; reflexivity|]. by vm_compute.
Qed.

(** ** The argument slice *)

Lemma array_set_lookup_eq a i v : array_set a i v !! i = Some v.
Proof.
  unfold array_set. case_decide as Hi.
  - by apply list_lookup_insert_eq.
  - rewrite lookup_app_r by lia.
    rewrite lookup_app_r by (rewrite length_replicate; lia).
    rewrite length_replicate.
    by replace (i - length a - (i - length a))%nat with 0%nat by lia.
Qed.

(** An assignment at most one position past the end leaves every other
    position as it was. *)
Lemma array_set_lookup_ne a i j v :
  (i ≤ length a)%nat → j ≠ i → array_set a i v !! j = a !! j.
Proof.
  intros Hi Hne. unfold array_set. case_decide as Hlt.
  - by apply list_lookup_insert_ne.
  - replace (i - length a)%nat with 0%nat by lia. simpl.
    destruct (decide (j < length a)%nat).
    + by rewrite lookup_app_l.
    + rewrite !lookup_ge_None_2; [done|lia|rewrite length_app; simpl; lia].
Qed.

Lemma array_set_length a i v :
  (i ≤ length a)%nat →
  length (array_set a i v) = (if decide (i < length a)%nat then length a else S i).
Proof.
  intros Hi. unfold array_set. case_decide.
  - by rewrite length_insert.
  - rewrite !length_app, length_replicate. simpl. lia.
Qed.

Lemma max_index_cons b args :
  max_index (b :: args) = Nat.max (arg_index b) (max_index args).
Proof. reflexivity. Qed.

Lemma max_index_upper args a : a ∈ args → (arg_index a ≤ max_index args)%nat.
Proof.
  induction args as [|b args IH]; intros Hin.
  - by apply not_elem_of_nil in Hin.
  - rewrite max_index_cons.
    apply elem_of_cons in Hin as [->|Hin]; [lia|].
    specialize (IH Hin). lia.
Qed.

Lemma max_index_attained args :
  args ≠ [] → ∃ a, a ∈ args ∧ arg_index a = max_index args.
Proof.
  induction args as [|b args IH]; [done|]. intros _.
  rewrite max_index_cons.
  destruct args as [|c args].
  - exists b. split; [apply elem_of_cons; auto|]. unfold max_index. simpl. lia.
  - destruct (IH ltac:(done)) as (a & Hin & Ha).
    destruct (decide (arg_index b ≤ arg_index a)%nat).
    + exists a. split; [apply elem_of_cons; auto|lia].
    + exists b. split; [apply elem_of_cons; auto|lia].
Qed.

(** The [forEach] of [argsToSlice], started on an array [r] of [M] or
    [M + 1] elements with all indices at most [M]. *)
Lemma fold_place_spec (M : nat) :
  ∀ args r,
    (∀ a, a ∈ args → (arg_index a ≤ M)%nat) →
    (M ≤ length r ≤ S M)%nat →
    (∀ a, a ∈ args → ∃ bs, argToBytes a = inr bs) →
    ∃ r', fold_left place args (inr r) = inr r'
          ∧ (M ≤ length r' ≤ S M)%nat
          ∧ (length r ≤ length r')%nat
          ∧ (∀ i, (∀ a, a ∈ args → arg_index a ≠ i) → r' !! i = r !! i)
          ∧ (∀ a, a ∈ args → ∃ bs, r' !! arg_index a = Some (Bytes bs))
          ∧ (∀ i bs, r' !! i = Some (Bytes bs) →
                     r !! i = Some (Bytes bs)
                     ∨ ∃ a, a ∈ args ∧ arg_index a = i
                            ∧ argToBytes a = inr bs).
Proof.
  induction args as [|a args IH]; intros r Hidx Hlen Hok.
  - exists r. simpl. repeat split; try done; try lia.
    + intros a Ha. by apply not_elem_of_nil in Ha.
    + auto.
  - destruct (Hok a) as [bs Hbs]; [apply elem_of_cons; auto|].
    assert (arg_index a ≤ M)%nat as Ha by (apply Hidx, elem_of_cons; auto).
    set (r1 := array_set r (arg_index a) (Bytes bs)).
    assert (length r1 = if decide (arg_index a < length r)%nat
                        then length r else S (arg_index a)) as Hlen1
      by (apply array_set_length; lia).
    destruct (IH r1) as (r' & Hfold & Hlen' & Hmono & Hsame & Hset & Hfrom).
    { intros b Hb. apply Hidx, elem_of_cons; auto. }
    { rewrite Hlen1. case_decide; lia. }
    { intros b Hb. apply Hok, elem_of_cons; auto. }
    exists r'. simpl. rewrite Hbs. fold r1. split; [done|].
    split; [done|]. split; [rewrite Hlen1 in Hmono; case_decide; lia|].
    split; [|split].
    + intros i Hi. rewrite Hsame.
      * apply array_set_lookup_ne; [lia|].
        intros ->. by apply (Hi a); [apply elem_of_cons; auto|].
      * intros b Hb. apply Hi, elem_of_cons; auto.
    + intros b [->|Hb]%elem_of_cons; [|by apply Hset].
      destruct (decide (arg_index a ∈ arg_index <$> args)) as [Hin|Hout].
      * apply list_elem_of_fmap in Hin as (c & Hc & Hcin).
        rewrite Hc. by apply Hset.
      * exists bs. rewrite Hsame; [apply array_set_lookup_eq|].
        intros c Hc Heq. apply Hout, list_elem_of_fmap. eauto.
    + intros i bs' Hi.
      destruct (Hfrom i bs' Hi) as [H1|(c & Hc & Hci & Hcb)].
      * destruct (decide (i = arg_index a)) as [->|Hne].
        -- unfold r1 in H1. rewrite array_set_lookup_eq in H1.
           injection H1 as <-. right. exists a.
           split; [apply elem_of_cons; auto|done].
        -- left. rewrite <- H1. symmetry.
           apply array_set_lookup_ne; [lia|done].
      * right. exists c. split; [apply elem_of_cons; auto|done].
Qed.

(** What [argsToSlice] returns on a list that is not empty and whose
    arguments all encode. *)
Lemma argsToSlice_nonempty args :
  args ≠ [] →
  (∀ a, a ∈ args → ∃ bs, argToBytes a = inr bs) →
  ∃ slice, argsToSlice args = inr slice
    ∧ length slice = S (max_index args)
    ∧ (∀ i, (i ≤ max_index args)%nat →
            (∀ a, a ∈ args → arg_index a ≠ i) → slice !! i = Some Null)
    ∧ (∀ a, a ∈ args → ∃ bs, slice !! arg_index a = Some (Bytes bs))
    ∧ (∀ i bs, slice !! i = Some (Bytes bs) →
               ∃ a, a ∈ args ∧ arg_index a = i ∧ argToBytes a = inr bs).
Proof.
  intros Hne Hok. unfold argsToSlice.
  case_decide as Hlen; [by destruct args|].
  destruct (fold_place_spec (max_index args) args
              (replicate (max_index args) Null))
    as (r' & Hfold & Hlen' & _ & Hsame & Hset & Hfrom).
  { intros a Ha. by apply max_index_upper. }
  { rewrite length_replicate. lia. }
  { done. }
  exists r'. split; [done|].
  destruct (max_index_attained args Hne) as (top & Htop & Hmax).
  assert (length r' = S (max_index args)) as Hlength.
  { destruct (Hset top Htop) as [bs Hbs].
    apply lookup_lt_Some in Hbs. rewrite Hmax in Hbs. lia. }
  split; [done|]. split; [|split; [done|]].
  - intros i Hi Hfree. rewrite (Hsame i Hfree).
    assert (i ≠ max_index args) by (intros ->; by apply (Hfree top)).
    apply lookup_replicate. split; [done|lia].
  - intros i bs Hi. destruct (Hfrom i bs Hi) as [Hinit|H]; [|done].
    apply lookup_replicate in Hinit as [[=] _].
Qed.

Lemma fold_place_error args e : fold_left place args (inl e) = inl e.
Proof. induction args as [|a args IH]; simpl; auto. Qed.

Lemma all_encode_or_not (args : list Arg) :
  (∀ a, a ∈ args → ∃ bs, argToBytes a = inr bs)
  ∨ (∃ a e, a ∈ args ∧ argToBytes a = inl e).
Proof.
  induction args as [|a args [IH|(b & e & Hb & He)]].
  - left. intros a Ha. by apply not_elem_of_nil in Ha.
  - destruct (argToBytes a) as [e|bs] eqn:Ha.
    + right. exists a, e. split; [apply elem_of_cons; auto|done].
    + left. intros b [->|Hb]%elem_of_cons; eauto.
  - right. exists b, e. split; [apply elem_of_cons; auto|done].
Qed.

(** The first argument that does not encode ends the [forEach] with its
    error. *)
Lemma fold_place_first_error (args : list Arg) :
  ∀ r, (∃ a e, a ∈ args ∧ argToBytes a = inl e) →
       ∃ a e, a ∈ args ∧ argToBytes a = inl e
              ∧ fold_left place args (inr r) = inl e.
Proof.
  induction args as [|a args IH]; intros r (b & e & Hb & He).
  - by apply not_elem_of_nil in Hb.
  - simpl. destruct (argToBytes a) as [e'|bs] eqn:Ha.
    + exists a, e'. split; [apply elem_of_cons; auto|].
      split; [done|apply fold_place_error].
    + apply elem_of_cons in Hb as [->|Hb]; [congruence|].
      destruct (IH (array_set r (arg_index a) (Bytes bs)))
        as (c & e' & Hc & He' & Hfold); [eauto|].
      exists c, e'. split; [apply elem_of_cons; auto|done].
Qed.

Lemma argsToSlice_error args :
  (∃ a e, a ∈ args ∧ argToBytes a = inl e) →
  ∃ a e, a ∈ args ∧ argToBytes a = inl e ∧ argsToSlice args = inl e.
Proof.
  intros Hbad. unfold argsToSlice. case_decide as Hlen.
  - destruct Hbad as (a & _ & Ha & _). destruct args; [|done].
    by apply not_elem_of_nil in Ha.
  - by apply fold_place_first_error.
Qed.

(** C2: [argsToSlice] of the empty list is the empty sequence.  On a list
    that is not empty it either fails, with the error of an argument that
    does not encode, or returns a sequence of [maxIndex + 1] elements,
    [maxIndex] being the largest index among the arguments, in which every
    index no argument supplies holds the [null] placeholder and every
    supplied index holds bytes.  The single argument
    [{index: 2, format: 'byte', value: '5'}] gives [[null, null, [5]]]. *)
Theorem argsToSlice_spec :
  argsToSlice [] = inr []
  ∧ (∀ args, args ≠ [] →
       (∃ a e, a ∈ args ∧ argToBytes a = inl e ∧ argsToSlice args = inl e)
       ∨ (∃ slice,
            argsToSlice args = inr slice
            ∧ length slice = S (max_index args)
            ∧ (∃ a, a ∈ args ∧ arg_index a = max_index args)
            ∧ (∀ a, a ∈ args → (arg_index a ≤ max_index args)%nat)
            ∧ (∀ i, (i ≤ max_index args)%nat →
                    (∀ a, a ∈ args → arg_index a ≠ i) →
                    slice !! i = Some Null)
            ∧ (∀ a, a ∈ args →
                    ∃ bs, slice !! arg_index a = Some (Bytes bs))))
  ∧ argsToSlice
      [ {| arg_index := 2; arg_format := "byte"; arg_value := "5" |} ]
    = inr [Null; Null; Bytes [5]].
Proof.
  split; [reflexivity|]. split; [|by vm_compute].
  intros args Hne.
  destruct (all_encode_or_not args) as [Hok|Hbad].
  - right.
    destruct (argsToSlice_nonempty args Hne Hok)
      as (slice & Hslice & Hlen & Hnull & Hset & _).
    exists slice. split; [done|]. split; [done|].
    split; [by apply max_index_attained|].
    split; [apply max_index_upper|]. split; done.
  - left. by apply argsToSlice_error.
Qed.

(** ** Normalisation and slice together *)

Lemma buildDynamicArgs_elem raw a' :
  a' ∈ buildDynamicArgs raw
  ↔ ∃ i a v, raw !! i = Some a ∧ coerce (raw_value a) = Some v
             ∧ a' = kept_arg i a v.
Proof.
  unfold buildDynamicArgs. rewrite list_elem_of_omap. split.
  - intros (m & Hm & Has).
    apply list_elem_of_filter in Hm as [_ Hm].
    apply elem_of_lookup_imap in Hm as (i & a & -> & Hi).
    unfold as_arg, map_arg in Has. simpl in Has.
    destruct (coerce (raw_value a)) as [v|] eqn:Hv; [|done].
    injection Has as <-. by exists i, a, v.
  - intros (i & a & v & Hi & Hv & ->).
    exists (map_arg i a). split.
    + apply list_elem_of_filter. split.
      * unfold map_arg. simpl. by rewrite Hv.
      * apply elem_of_lookup_imap. eauto.
    + unfold as_arg, map_arg. simpl. by rewrite Hv.
Qed.

(** C10, as stated, fails for a null-valued argument that no other
    argument follows: it leaves no slot at all, the slice just ends
    before its position. *)
Lemma buildDynamicArgs_trailing_null_no_gap :
  ∃ slice,
    argsToSlice
      (buildDynamicArgs
         [ {| raw_format := Some "byte"%string; raw_value := JsStr "5" |};
           {| raw_format := None; raw_value := JsNull |} ])
    = inr slice
    ∧ length slice = 1%nat
    ∧ slice !! 1%nat ≠ Some Null.
Proof. exists [Bytes [5]]. split; [by vm_compute|]. split; done. Qed.

(** C10, amended: [buildDynamicArgs] gives every argument the index of its
    position in the input list before the null-valued ones are dropped.
    The slice built from the result fails when a kept argument does not
    encode; otherwise every kept argument is encoded at its own position,
    whatever was dropped before it, and a dropped argument leaves the
    [null] placeholder at its position when some kept argument follows it,
    and no slot at all (the slice ends before its position) otherwise. *)
Theorem buildDynamicArgs_slice (raw : list RawArg) :
  (∀ a', a' ∈ buildDynamicArgs raw
         ↔ ∃ i a v, raw !! i = Some a ∧ coerce (raw_value a) = Some v
                    ∧ a' = kept_arg i a v)
  ∧ ((∃ a e, a ∈ buildDynamicArgs raw ∧ argToBytes a = inl e
             ∧ argsToSlice (buildDynamicArgs raw) = inl e)
     ∨ (∃ slice,
          argsToSlice (buildDynamicArgs raw) = inr slice
          ∧ (∀ i a v, raw !! i = Some a → coerce (raw_value a) = Some v →
                      ∃ bs, argToBytes (kept_arg i a v) = inr bs
                            ∧ slice !! i = Some (Bytes bs))
          ∧ (∀ i a, raw !! i = Some a → coerce (raw_value a) = None →
                    ((∃ j b, (i < j)%nat ∧ raw !! j = Some b
                             ∧ coerce (raw_value b) ≠ None) →
                     slice !! i = Some Null)
                    ∧ ((∀ j b, (i < j)%nat → raw !! j = Some b →
                               coerce (raw_value b) = None) →
                       slice !! i = None)))).
Proof.
  split; [apply buildDynamicArgs_elem|].
  destruct (all_encode_or_not (buildDynamicArgs raw)) as [Hok|Hbad];
    [right|left; by apply argsToSlice_error].
  assert (∀ i a c, raw !! i = Some a → c ∈ buildDynamicArgs raw →
                   arg_index c = i →
                   ∃ v, coerce (raw_value a) = Some v ∧ c = kept_arg i a v)
    as Hunique.
  { intros i a c Hi Hc Hci.
    apply buildDynamicArgs_elem in Hc as (i' & a' & v & Hi' & Hv & ->).
    simpl in Hci. subst i'. rewrite Hi in Hi'. injection Hi' as <-. eauto. }
  destruct (buildDynamicArgs raw) as [|a0 rest] eqn:Hbda.
  - exists []. split; [done|]. split.
    + intros i a v Hi Hv. exfalso.
      assert (kept_arg i a v ∈ buildDynamicArgs raw) as Hin
        by (apply buildDynamicArgs_elem; by exists i, a, v).
      rewrite Hbda in Hin. by apply not_elem_of_nil in Hin.
    + intros i a Hi Hv. split; [|done].
      intros (j & b & _ & Hj & Hb). exfalso.
      destruct (coerce (raw_value b)) as [v|] eqn:Hbv; [|done].
      assert (kept_arg j b v ∈ buildDynamicArgs raw) as Hin
        by (apply buildDynamicArgs_elem; by exists j, b, v).
      rewrite Hbda in Hin. by apply not_elem_of_nil in Hin.
  - rewrite <- Hbda in *.
    destruct (argsToSlice_nonempty (buildDynamicArgs raw)) as
      (slice & Hslice & Hlen & Hnull & Hset & Hfrom);
      [by rewrite Hbda|done|].
    exists slice. split; [done|]. split.
    + intros i a v Hi Hv.
      assert (kept_arg i a v ∈ buildDynamicArgs raw) as Hin
        by (apply buildDynamicArgs_elem; by exists i, a, v).
      destruct (Hset _ Hin) as [bs Hbs]. simpl in Hbs.
      destruct (Hfrom _ _ Hbs) as (c & Hc & Hci & Hcb).
      destruct (Hunique i a c Hi Hc Hci) as (v' & Hv' & ->).
      rewrite Hv in Hv'. injection Hv' as <-. eauto.
    + intros i a Hi Hv.
      assert (∀ c, c ∈ buildDynamicArgs raw → arg_index c ≠ i) as Hfree.
      { intros c Hc Hci.
        destruct (Hunique i a c Hi Hc Hci) as (v' & Hv' & _). congruence. }
      split.
      * intros (j & b & Hij & Hj & Hb).
        destruct (coerce (raw_value b)) as [v|] eqn:Hbv; [|done].
        assert (kept_arg j b v ∈ buildDynamicArgs raw) as Hin
          by (apply buildDynamicArgs_elem; by exists j, b, v).
        apply max_index_upper in Hin. simpl in Hin.
        apply Hnull; [lia|done].
      * intros Hlast.
        destruct (max_index_attained (buildDynamicArgs raw))
          as (top & Htop & Hmax); [by rewrite Hbda|].
        pose proof (Hfree top Htop) as Hne.
        apply buildDynamicArgs_elem in Htop as (p & b & v & Hp & Hbv & ->).
        simpl in Hmax, Hne.
        apply lookup_ge_None_2. rewrite Hlen, <- Hmax.
        destruct (decide (i < p)%nat) as [Hlt|]; [|lia].
        specialize (Hlast p b Hlt Hp). congruence.
Qed.

(** An argument list with a gap: the second argument is dropped and the
    third keeps position 2. *)
Lemma buildDynamicArgs_slice_example :
  argsToSlice
    (buildDynamicArgs
       [ {| raw_format := Some "byte"%string; raw_value := JsStr "5" |};
         {| raw_format := None; raw_value := JsUndefined |};
         {| raw_format := Some "byte"%string;
            raw_value := JsOther (Some "7"%string) |} ])
  = inr [Bytes [5]; Null; Bytes [7]].
Proof. by vm_compute. Qed.

(** ** Deferred votes *)

(** C8: when the submission of a deferred vote fails with ['too early to
    accept open vote'], the next block is the start block of the contract
    plus its voting duration.  The stored vote gets that block exactly when
    it is later than the block the vote is scheduled at; otherwise, and when
    a read fails, the table is left as it is; no other vote is touched; and
    in every case the error is shown to the user.  With start block 100 and
    duration 50 a vote scheduled at 120 moves to 150 and one scheduled at
    200 stays. *)
Theorem sendVote_too_early (vote : DeferredVote) (node : Node) (w : World) :
  submission node = inl too_early →
  table w !! vote_id vote = Some vote →
  toasts (sendVote vote node w) = toasts w ++ [ScheduledTxError too_early]
  ∧ (∀ id, id ≠ vote_id vote →
           table (sendVote vote node w) !! id = table w !! id)
  ∧ (∀ startBlock votingDuration,
       read_startBlock node = Some startBlock →
       read_votingDuration node = Some votingDuration →
       (startBlock + votingDuration > vote_block vote →
        table (sendVote vote node w) !! vote_id vote
        = Some (set_block (startBlock + votingDuration) vote))
       ∧ (startBlock + votingDuration ≤ vote_block vote →
          table (sendVote vote node w) = table w)
       ∧ (vote_block <$> table (sendVote vote node w) !! vote_id vote
          ≠ Some (vote_block vote)
          ↔ startBlock + votingDuration > vote_block vote)
       ∧ (startBlock = 100 → votingDuration = 50 →
          (vote_block vote = 120 →
           vote_block <$> table (sendVote vote node w) !! vote_id vote
           = Some 150)
          ∧ (vote_block vote = 200 →
             table (sendVote vote node w) = table w)))
  ∧ (read_startBlock node = None ∨ read_votingDuration node = None →
     table (sendVote vote node w) = table w).
Proof.
  intros Hsub Hstored. unfold sendVote. rewrite Hsub.
  change (too_early =? too_early)%string
    with (String.eqb too_early too_early).
  rewrite String.eqb_refl.
  assert (∀ b, alter (set_block b) (vote_id vote) (table w) !! vote_id vote
               = Some (set_block b vote)) as Halter.
  { intros b. rewrite lookup_alter. case_decide; [|done]. by rewrite Hstored. }
  split; [|split; [|split]].
  - destruct (read_startBlock node) as [sb|];
      [destruct (read_votingDuration node) as [vd|];
       [destruct (sb + vd >? vote_block vote)|]|]; done.
  - intros id Hid.
    destruct (read_startBlock node) as [sb|];
      [destruct (read_votingDuration node) as [vd|];
       [destruct (sb + vd >? vote_block vote)|]|]; simpl; try done.
    rewrite lookup_alter. case_decide; [congruence|done].
  - intros sb vd -> ->.
    destruct (Z.gtb_spec (sb + vd) (vote_block vote)) as [Hgt|Hle]; simpl.
    + rewrite Halter. simpl.
      split; [done|]. split; [intros; lia|]. split.
      * split; [intros _; lia|]. intros _ [= Heq]. lia.
      * intros -> -> . split; [by intros _|]. intros H200. lia.
    + rewrite Hstored. simpl.
      split; [intros; lia|]. split; [done|]. split.
      * split; [done|lia].
      * intros -> ->. split; [intros H120; lia|done].
  - intros [-> | Hvd]; [done|].
    destruct (read_startBlock node); [by rewrite Hvd|done].
Qed.

Lemma sendVote_too_early_witness :
  vote_block
    <$> table (sendVote (example_vote 120) example_node (example_world 120))
        !! 7
  = Some 150
  ∧ table (sendVote (example_vote 200) example_node (example_world 200))
    = table (example_world 200)
  ∧ toasts (sendVote (example_vote 200) example_node (example_world 200))
    = [ScheduledTxError too_early].
Proof.
  destruct (sendVote_too_early (example_vote 120) example_node
              (example_world 120) eq_refl) as (_ & _ & H120 & _);
    [by apply lookup_singleton_eq|].
  destruct (sendVote_too_early (example_vote 200) example_node
              (example_world 200) eq_refl) as (Htoast & _ & H200 & _);
    [by apply lookup_singleton_eq|].
  split; [|split].
  - by apply (H120 100 50 eq_refl eq_refl).
  - by apply (H200 100 50 eq_refl eq_refl).
  - exact Htoast.
Defined.

(** C9, as stated, fails when the current block equals the scheduled
    block: the vote is not offered yet. *)
Lemma available_not_at_scheduled_block :
  available [example_vote 100] (Some 100) = []
  ∧ available [example_vote 100] (Some 101) = [example_vote 100].
Proof. split; reflexivity. Qed.

(** C9, amended: a queued vote is offered for submission exactly when the
    current block is known and strictly greater than the block the vote is
    scheduled at; at the scheduled block itself and before it, and while
    the current block is unknown, it is not offered. *)
Theorem available_spec (deferredVotes : list DeferredVote)
    (currentBlock : option Z) (x : DeferredVote) :
  x ∈ available deferredVotes currentBlock
  ↔ x ∈ deferredVotes ∧ ∃ b, currentBlock = Some b ∧ vote_block x < b.
Proof.
  unfold available. rewrite !list_elem_of_In, filter_In.
  split.
  - intros [Hin Hlt]. split; [done|].
    destruct currentBlock as [b|]; [|done].
    exists b. split; [done|]. by apply Z.ltb_lt.
  - intros [Hin (b & -> & Hlt)]. split; [done|]. by apply Z.ltb_lt.
Qed.

(** ** The encoder on the other formats *)

(** *** Strings of decimal digits *)

Lemma span_digits_all s ds :
  JsString.span_digits s = (ds, EmptyString) →
  length ds = String.length s ∧ Forall (λ d, 0 ≤ d ≤ 9) ds.
Proof.
  revert ds. induction s as [|a s IH]; intros ds H.
  - injection H as <-. split; [done|constructor].
  - simpl in H. unfold JsString.digit in H.
    destruct ((48 <=? JsString.code a) && (JsString.code a <=? 57)) eqn:E;
      [|done].
    destruct (JsString.span_digits s) as [ds' rest] eqn:Hs.
    injection H as <- ->.
    destruct (IH ds' eq_refl) as [Hlen Hall].
    split; [simpl; by rewrite Hlen|].
    constructor; [|done]. apply andb_true_iff in E as [?%Z.leb_le ?%Z.leb_le].
    lia.
Qed.

Lemma decimal_value_bound ds :
  Forall (λ d, 0 ≤ d ≤ 9) ds →
  ∀ acc, 0 ≤ acc →
    0 ≤ fold_left (λ acc d, 10 * acc + d) ds acc
    < (acc + 1) * 10 ^ Z.of_nat (length ds).
Proof.
  induction 1 as [|d ds Hd Hall IH]; intros acc Hacc.
  - simpl. lia.
  - cbn [fold_left length]. specialize (IH (10 * acc + d) ltac:(lia)).
    rewrite Nat2Z.inj_succ, Z.pow_succ_r by lia.
    assert (0 < 10 ^ Z.of_nat (length ds)) by (apply Z.pow_pos_nonneg; lia).
    nia.
Qed.

Lemma decimal_value_zeros k :
  ∀ acc, fold_left (λ acc d, 10 * acc + d) (replicate k 0) acc
         = acc * 10 ^ Z.of_nat k.
Proof.
  induction k as [|k IH]; intros acc.
  - simpl. lia.
  - cbn [replicate fold_left]. rewrite IH, Nat2Z.inj_succ, Z.pow_succ_r by lia.
    ring.
Qed.

(** A number is smaller than the power of ten of its number of digits. *)
Lemma ndigits_bound (c : N) :
  1 ≤ DecimalJs.ndigits c ∧ Z.of_N c < 10 ^ DecimalJs.ndigits c.
Proof.
  unfold DecimalJs.ndigits, DecimalJs.digits_of.
  destruct (span_digits_of_N c) as (ds & Hspan & Hval).
  destruct (span_digits_all _ _ Hspan) as [Hlen Hall].
  destruct (numeral_head_digit c) as (a & r & d & Hstr & _).
  split; [rewrite Hstr; simpl; lia|].
  rewrite <- Hlen, <- Hval. unfold JsString.decimal_value.
  pose proof (decimal_value_bound ds Hall 0 ltac:(lia)). lia.
Qed.

Lemma strip_zeros_normal fuel :
  ∀ c q, (c ≠ 0)%N → Z.of_N c < 10 ^ Z.of_nat fuel →
         ((DecimalJs.strip_zeros fuel c q).1 mod 10 ≠ 0)%N.
Proof.
  induction fuel as [|fuel IH]; intros c q Hc Hlt.
  - simpl in Hlt. lia.
  - simpl. destruct (N.eqb_spec (c mod 10) 0) as [Hm|Hm]; simpl.
    + destruct (N.eqb_spec c 0) as [|_]; [done|]. simpl.
      pose proof (N.div_mod c 10 ltac:(done)) as Hdm.
      apply IH; [lia|].
      rewrite Nat2Z.inj_succ, Z.pow_succ_r in Hlt by lia.
      rewrite N2Z.inj_div. apply Z.div_lt_upper_bound; lia.
    + done.
Qed.

Lemma strip_zeros_id fuel c q :
  (c mod 10 ≠ 0)%N → DecimalJs.strip_zeros fuel c q = (c, q).
Proof.
  intros Hm. destruct fuel; [done|]. simpl.
  by destruct (N.eqb_spec (c mod 10) 0).
Qed.

(** The coefficient of a value made by [make] has no trailing zero. *)
Lemma make_normal neg c q neg' c' q' :
  DecimalJs.make neg c q = DecimalJs.Finite neg' c' q' →
  c' = 0%N ∨ (c' mod 10 ≠ 0)%N.
Proof.
  unfold DecimalJs.make. destruct (N.eqb_spec c 0) as [->|Hc].
  - intros [= _ <- _]. by left.
  - pose proof (strip_zeros_normal (Z.to_nat (DecimalJs.ndigits c)) c q Hc) as Hn.
    destruct (DecimalJs.strip_zeros _ c q) as [c1 q1].
    repeat case_match; intros [= _ <- _]; [by left|].
    right. apply Hn. pose proof (ndigits_bound c). rewrite Z2Nat.id by lia. lia.
Qed.

Lemma parse_decimal_normal s v neg c q :
  DecimalJs.parse_decimal s v = Some (DecimalJs.Finite neg c q) →
  c = 0%N ∨ (c mod 10 ≠ 0)%N.
Proof.
  unfold DecimalJs.parse_decimal.
  destruct (JsString.span_digits v) as [int r1].
  destruct (match r1 with
            | String "."%char r => JsString.span_digits r
            | _ => ([], r1)
            end) as [frac r2].
  destruct (match int, frac, r1 with [], [], _ => false | _, _, _ => true end);
    [|done].
  destruct (DecimalJs.parse_exponent r2); [|done].
  intros [= Hmake]. by apply make_normal in Hmake.
Qed.

Lemma parse_radix_normal s v neg c q :
  DecimalJs.parse_radix s v = Some (DecimalJs.Finite neg c q) →
  c = 0%N ∨ (c mod 10 ≠ 0)%N.
Proof.
  unfold DecimalJs.parse_radix.
  destruct v as [|z [|a r]]; try done; [by repeat case_match|].
  destruct (Ascii.ascii_dec z "0") as [->|Hz].
  2:{ destruct z as [[] [] [] [] [] [] [] []]; done. }
  destruct (DecimalJs.radix a) as [[base bits]|]; [|done].
  destruct (DecimalJs.span_radix base r) as [int r1].
  destruct (match r1 with
            | String "."%char r' => DecimalJs.span_radix base r'
            | _ => ([], r1)
            end) as [frac r2].
  assert (match DecimalJs.parse_binary_exponent r2 with
          | Some p =>
              let n := DecimalJs.radix_value base (int ++ frac) in
              let k := bits * Z.of_nat (length frac) in
              if n =? 0 then Some (DecimalJs.Finite s 0 0)
              else if p =? 0
              then Some (DecimalJs.make s (Z.to_N (n * 5 ^ k)) (- k))
              else
                match DecimalJs.pow2 p with
                | Some (c2, q2) =>
                    Some (DecimalJs.make s (Z.to_N (n * 5 ^ k * c2)) (- k + q2))
                | None => None
                end
          | None => None
          end = Some (DecimalJs.Finite neg c q) →
          c = 0%N ∨ (c mod 10 ≠ 0)%N) as Hbody.
  { destruct (DecimalJs.parse_binary_exponent r2) as [p|]; [|done].
    cbv zeta. destruct (_ =? 0); [intros [= _ <- _]; by left|].
    destruct (p =? 0); [intros [= Hmake]; by apply make_normal in Hmake|].
    destruct (DecimalJs.pow2 p) as [[c2 q2]|]; [|done].
    intros [= Hmake]. by apply make_normal in Hmake. }
  destruct int, frac; try done.
Qed.

Lemma new_normal s neg c q :
  DecimalJs.new s = Some (DecimalJs.Finite neg c q) →
  c = 0%N ∨ (c mod 10 ≠ 0)%N.
Proof.
  unfold DecimalJs.new.
  destruct (match s with
            | String "-"%char r => (true, r)
            | String "+"%char r => (false, r)
            | _ => (false, s)
            end) as [sign v].
  destruct (DecimalJs.parse_decimal sign v) as [x|] eqn:Hdec.
  - intros [= ->]. by apply parse_decimal_normal in Hdec.
  - unfold DecimalJs.parse_other. repeat case_match; try done.
    apply parse_radix_normal.
Qed.

Lemma span_digits_app s1 s2 d1 d2 :
  JsString.span_digits s1 = (d1, EmptyString) →
  JsString.span_digits s2 = (d2, EmptyString) →
  JsString.span_digits (s1 ++ s2) = (d1 ++ d2, EmptyString).
Proof.
  revert d1. induction s1 as [|a s1 IH]; intros d1 H1 H2.
  - by injection H1 as <-.
  - simpl in *. destruct (JsString.digit a) as [d|]; [|done].
    destruct (JsString.span_digits s1) as [ds rest] eqn:Hs.
    injection H1 as <- ->. by rewrite (IH ds eq_refl H2).
Qed.

Lemma span_digits_zeros k :
  JsString.span_digits (DecimalJs.zeros k)
  = (replicate (Z.to_nat k) 0, EmptyString).
Proof.
  unfold DecimalJs.zeros. induction (Z.to_nat k) as [|n IH]; [done|].
  simpl. by rewrite IH.
Qed.

(** [new BN] on a string of decimal digits, with or without ["-"] in
    front. *)
Lemma BN_new_digits s ds :
  s ≠ EmptyString → JsString.span_digits s = (ds, EmptyString) →
  BN.new s = Some (BN.Int (JsString.decimal_value ds))
  ∧ BN.new (String "-" s) = Some (BN.Int (- JsString.decimal_value ds)).
Proof.
  intros Hne Hspan.
  assert (∀ fuel, JsString.remove_white_space_fuel fuel s = s) as Hrm
    by (apply remove_white_space_digits; by rewrite Hspan).
  assert (∃ a r d, s = String a r ∧ JsString.digit a = Some d)
    as (a & r & d & Hstr & Hd).
  { destruct s as [|a r]; [done|]. simpl in Hspan.
    destruct (JsString.digit a) as [d|] eqn:Hd; [by exists a, r, d|done]. }
  split.
  - rewrite BN_new_init by (by rewrite ?Hstr).
    unfold BN.init_string, JsString.remove_white_space. rewrite Hrm.
    rewrite Hstr in *.
    assert (a ≠ "-"%char) as Ha by (intros ->; done).
    replace (match String a r with
             | String "-"%char r0 => (true, r0)
             | _ => (false, String a r)
             end) with (false, String a r).
    2:{ destruct a as [[] [] [] [] [] [] [] []]; try done. }
    by rewrite Hspan.
  - rewrite BN_new_init by done.
    unfold BN.init_string, JsString.remove_white_space.
    cbn [String.length JsString.remove_white_space_fuel].
    replace (JsString.white_space (String "-" s)) with (@None string).
    2:{ rewrite Hstr. destruct r as [|b [|e r]]; reflexivity. }
    rewrite Hrm, Hstr. rewrite Hstr in Hspan. by rewrite Hspan.
Qed.

Lemma le_digits_fuel_last fuel :
  ∀ n, 0 < n < 2 ^ Z.of_nat fuel →
       ∃ init b, le_digits_fuel fuel n = init ++ [b] ∧ 0 < b.
Proof.
  induction fuel as [|fuel IH]; intros n Hn.
  - simpl in Hn. lia.
  - simpl. destruct (Z.leb_spec n 0) as [|_]; [lia|].
    destruct (decide (n / 256 = 0)) as [Hz|Hnz].
    + exists [], (n mod 256). split.
      * rewrite Hz. by destruct fuel.
      * pose proof (Z.div_mod n 256 ltac:(lia)).
        pose proof (Z.mod_pos_bound n 256 ltac:(lia)). lia.
    + destruct (IH (n / 256)) as (init & b & Heq & Hb).
      { assert (0 ≤ n / 256) by (apply Z.div_pos; lia).
        split; [lia|]. apply Z.div_lt_upper_bound; [lia|].
        rewrite Nat2Z.inj_succ, Z.pow_succ_r in Hn by lia. lia. }
      exists (n mod 256 :: init), b. by rewrite Heq.
Qed.

(** [toArray()] of an integer: the bytes of its magnitude, most significant
    first, without a leading zero byte; the bytes of 0 are [[0]]. *)
Lemma toArray_spec z :
  ∃ bs, BN.toArray (BN.Int z) = Some bs
        ∧ be_value bs = Z.abs z ∧ Forall byte_range bs
        ∧ ((z = 0 ∧ bs = [0]) ∨ (z ≠ 0 ∧ ∃ b rest, bs = b :: rest ∧ 0 < b)).
Proof.
  unfold BN.toArray.
  destruct (BN.toArray_le (BN.Int z)) as [arr|] eqn:Harr; [|done].
  pose proof Harr as Hspec. apply toArray_le_spec in Hspec as (Hval & Hall & _).
  exists (reverse arr). split; [done|].
  split; [unfold be_value; by rewrite reverse_involutive|].
  split; [by apply Forall_reverse|].
  simpl in Harr. injection Harr as Harr.
  destruct (decide (z = 0)) as [->|Hz].
  - left. by rewrite <- Harr.
  - right. split; [done|].
    destruct (le_digits_fuel_last (S (Z.to_nat (Z.log2 (Z.abs z)))) (Z.abs z))
      as (init & b & Heq & Hb).
    { split; [lia|].
      rewrite Nat2Z.inj_succ, Z2Nat.id by apply Z.log2_nonneg.
      apply Z.log2_spec. lia. }
    unfold le_digits in Harr. rewrite Heq in Harr.
    exists b, (reverse init). split; [|done].
    rewrite <- Harr.
    assert (∀ l : list Z, l ≠ [] →
              match l with [] => [0] | z0 :: l' => z0 :: l' end = l) as Hm
      by (by intros []).
    rewrite Hm by (by destruct init).
    by rewrite reverse_app.
Qed.

(** X1: with format ['int64'] the decimal numeral of [n] gives exactly 8
    bytes, least significant first, whose value is [n] modulo 2^64, and
    the numeral preceded by ["-"] gives the same bytes: the sign is lost,
    the bytes are those of the magnitude. *)
Theorem argToBytes_int64 (index : nat) (n : N) :
  ∃ bs,
    argToBytes {| arg_index := index; arg_format := "int64";
                  arg_value := JsString.of_N n |} = inr bs
    ∧ argToBytes {| arg_index := index; arg_format := "int64";
                    arg_value := String "-" (JsString.of_N n) |} = inr bs
    ∧ length bs = 8%nat ∧ Forall byte_range bs
    ∧ le_value bs = Z.of_N n mod 2 ^ 64.
Proof.
  destruct (BN_new_numeral n) as [Hpos Hneg].
  destruct (BN.toArray_le (BN.Int (Z.of_N n))) as [arr|] eqn:Harr; [|done].
  assert (BN.toArray_le (BN.Int (- Z.of_N n)) = Some arr) as Harr'.
  { simpl in *. by rewrite Z.abs_opp. }
  apply toArray_le_spec in Harr as (Hval & Hall & _).
  rewrite Z.abs_eq in Hval by lia.
  exists (take 8 (arr ++ replicate 8 0)).
  unfold argToBytes, argToBytes_try. cbn [arg_format arg_value arg_index].
  cbn [String.eqb Ascii.eqb Bool.eqb]. 
  rewrite Hpos, Hneg. cbn [mbind option_bind]. rewrite Harr'.
  assert (BN.toArray_le (BN.Int (Z.of_N n)) = Some arr) as ->
    by (simpl in *; by rewrite Z.abs_opp in Harr').
  assert (Forall byte_range (arr ++ replicate 8 0)) as Hall'.
  { apply Forall_app. split; [done|].
    repeat constructor; unfold byte_range; lia. }
  repeat split.
  - rewrite length_take, length_app, length_replicate. lia.
  - by apply Forall_take.
  - by rewrite le_value_take, le_value_app_zeros, Hval.
Qed.

(** X2: with format ['bigint'] the decimal numeral of [n] gives the bytes
    of [n], most significant first and without a leading zero byte ([[0]]
    for 0), so that [n] is read back from them; the numeral preceded by
    ["-"] gives the same bytes. *)
Theorem argToBytes_bigint (index : nat) (n : N) :
  ∃ bs,
    argToBytes {| arg_index := index; arg_format := "bigint";
                  arg_value := JsString.of_N n |} = inr bs
    ∧ argToBytes {| arg_index := index; arg_format := "bigint";
                    arg_value := String "-" (JsString.of_N n) |} = inr bs
    ∧ be_value bs = Z.of_N n ∧ Forall byte_range bs
    ∧ ((n = 0%N ∧ bs = [0]) ∨ (n ≠ 0%N ∧ ∃ b rest, bs = b :: rest ∧ 0 < b)).
Proof.
  destruct (BN_new_numeral n) as [Hpos Hneg].
  destruct (toArray_spec (Z.of_N n)) as (bs & Hbs & Hval & Hall & Hmin).
  assert (BN.toArray (BN.Int (- Z.of_N n)) = Some bs) as Hbs'.
  { unfold BN.toArray in *. simpl in *. by rewrite Z.abs_opp. }
  exists bs.
  unfold argToBytes, argToBytes_try. cbn [arg_format arg_value arg_index].
  cbn [String.eqb Ascii.eqb Bool.eqb].
  rewrite Hpos, Hneg. cbn [mbind option_bind]. rewrite Hbs, Hbs'.
  split; [done|]. split; [done|].
  split; [by rewrite Hval, Z.abs_eq by lia|]. split; [done|].
  destruct Hmin as [[Hz ->]|[Hz Hhead]]; [left|right]; split; try done; lia.
Qed.

(** *** Amounts in [dna] *)

Lemma DNA_BASE_value :
  DecimalJs.new DNA_BASE = Some (DecimalJs.Finite false 1 18).
Proof. by vm_compute. Qed.

(** The product with the base is exact for a coefficient of at most 20
    digits. *)
Lemma mul_DNA_BASE neg c q :
  (c mod 10 ≠ 0)%N → DecimalJs.ndigits c ≤ 20 → -18 ≤ q ≤ 9000 →
  DecimalJs.mul (DecimalJs.Finite neg c q) (DecimalJs.Finite false 1 18)
  = DecimalJs.Finite neg c (q + 18).
Proof.
  intros Hm Hn Hq. pose proof (ndigits_bound c) as [Hn1 _].
  assert (c ≠ 0%N) as Hc by (intros ->; done).
  unfold DecimalJs.mul.
  destruct (N.eqb_spec c 0) as [|_]; [done|]. cbn [N.eqb orb].
  rewrite N.mul_1_r. unfold DecimalJs.round_sd, DecimalJs.precision.
  destruct (Z.leb_spec (DecimalJs.ndigits c) 20) as [_|]; [|lia].
  unfold DecimalJs.make.
  destruct (N.eqb_spec c 0) as [|_]; [done|].
  rewrite strip_zeros_id by done.
  unfold DecimalJs.maxE, DecimalJs.minE.
  change (- (9 * 10 ^ 15)) with (-9000000000000000).
  change (9 * 10 ^ 15) with 9000000000000000.
  destruct (Z.ltb_spec 9000000000000000 (DecimalJs.ndigits c - 1 + (q + 18)));
    [lia|].
  destruct (Z.ltb_spec (DecimalJs.ndigits c - 1 + (q + 18)) (-9000000000000000));
    [lia|].
  by destruct neg.
Qed.

Lemma append_empty_r s : (s ++ "")%string = s.
Proof.
  induction s as [|a s IH]; [reflexivity|].
  change (String a (s ++ "")%string = String a s). by rewrite IH.
Qed.

(** A whole number of at most 20 significant digits is written in full. *)
Lemma toString_whole neg c k :
  c ≠ 0%N → DecimalJs.ndigits c ≤ 20 → 0 ≤ k ≤ 9018 →
  DecimalJs.toString (DecimalJs.Finite neg c k)
  = ((if neg then "-" else "")
     ++ (DecimalJs.digits_of c ++ DecimalJs.zeros k))%string.
Proof.
  intros Hc Hn Hk. pose proof (ndigits_bound c) as [Hn1 _].
  unfold DecimalJs.toString, DecimalJs.toExpNeg, DecimalJs.toExpPos.
  fold (DecimalJs.ndigits c).
  set (len := DecimalJs.ndigits c) in *.
  destruct (Z.leb_spec (len - 1 + k) (-7)); [lia|].
  destruct (Z.leb_spec 10000 (len - 1 + k)); [lia|]. cbn [orb].
  destruct (Z.ltb_spec (len - 1 + k) 0); [lia|].
  destruct (N.eqb_spec c 0) as [|_]; [done|]. cbn [negb].
  assert ((if len <=? len - 1 + k
           then (DecimalJs.digits_of c
                 ++ DecimalJs.zeros (len - 1 + k + 1 - len))%string
           else if len - 1 + k + 1 <? len
                then (substring 0 (Z.to_nat (len - 1 + k + 1))
                        (DecimalJs.digits_of c) ++ "."
                      ++ substring (Z.to_nat (len - 1 + k + 1))
                           (String.length (DecimalJs.digits_of c)
                            - Z.to_nat (len - 1 + k + 1))
                           (DecimalJs.digits_of c))%string
                else DecimalJs.digits_of c)
          = (DecimalJs.digits_of c ++ DecimalJs.zeros k)%string) as ->.
  { destruct (Z.leb_spec len (len - 1 + k)).
    - do 2 f_equal. lia.
    - destruct (Z.ltb_spec (len - 1 + k + 1) len); [lia|].
      replace k with 0 by lia. by rewrite append_empty_r. }
  by destruct neg.
Qed.

(** X4: with format ['dna'], a value that the decimal library reads as
    [± c * 10^q] with a coefficient [c] of at most 20 digits and at most 18
    decimals ([-18 <= q]) is encoded exactly: the bytes are those of
    [c * 10^(q + 18)], most significant first and without a leading zero
    byte.  The sign of a negative amount is lost. *)
Theorem argToBytes_dna_exact (data : Arg) (neg : bool) (c : N) (q : Z) :
  arg_format data = "dna"%string →
  DecimalJs.new (arg_value data) = Some (DecimalJs.Finite neg c q) →
  DecimalJs.ndigits c ≤ 20 → -18 ≤ q ≤ 9000 →
  ∃ bs, argToBytes data = inr bs
        ∧ be_value bs = Z.of_N c * 10 ^ (q + 18)
        ∧ Forall byte_range bs
        ∧ (bs = [0] ∨ ∃ b rest, bs = b :: rest ∧ 0 < b).
Proof.
  intros Hfmt Hnew Hn Hq.
  unfold argToBytes, argToBytes_try. rewrite Hfmt, Hnew.
  cbn [String.eqb Ascii.eqb Bool.eqb mbind option_bind].
  rewrite DNA_BASE_value. cbn [mbind option_bind].
  destruct (new_normal _ _ _ _ Hnew) as [->|Hm].
  { exists [0]. split; [by destruct neg|]. split; [done|].
    split; [|by left]. repeat constructor; unfold byte_range; lia. }
  assert (c ≠ 0%N) as Hc by (intros ->; done).
  rewrite mul_DNA_BASE, toString_whole by (done || lia).
  destruct (span_digits_of_N c) as (ds & Hspan & Hval).
  fold (DecimalJs.digits_of c) in Hspan.
  pose proof (span_digits_app _ _ _ _ Hspan (span_digits_zeros (q + 18)))
    as Hall.
  assert (JsString.decimal_value (ds ++ replicate (Z.to_nat (q + 18)) 0)
          = Z.of_N c * 10 ^ (q + 18)) as Hprod.
  { unfold JsString.decimal_value in *.
    rewrite fold_left_app, decimal_value_zeros, Hval, Z2Nat.id by lia. done. }
  assert ((DecimalJs.digits_of c ++ DecimalJs.zeros (q + 18))%string
          ≠ EmptyString) as Hne.
  { unfold DecimalJs.digits_of.
    destruct (numeral_head_digit c) as (a & r & d & -> & _). done. }
  destruct (BN_new_digits _ _ Hne Hall) as [Hpos Hminus].
  rewrite Hprod in Hpos, Hminus.
  assert (0 ≤ Z.of_N c * 10 ^ (q + 18)) as Hge.
  { assert (0 < 10 ^ (q + 18)) by (apply Z.pow_pos_nonneg; lia). nia. }
  assert (Z.of_N c * 10 ^ (q + 18) ≠ 0) as Hnz.
  { assert (0 < 10 ^ (q + 18)) by (apply Z.pow_pos_nonneg; lia). nia. }
  destruct neg.
  - change (("-" ++ (DecimalJs.digits_of c ++ DecimalJs.zeros (q + 18)))%string)
      with (String "-" (DecimalJs.digits_of c ++ DecimalJs.zeros (q + 18))).
    rewrite Hminus. cbn [mbind option_bind].
    destruct (toArray_spec (- (Z.of_N c * 10 ^ (q + 18))))
      as (bs & -> & Hbe & Hrange & Hmin).
    exists bs. split; [done|]. split; [rewrite Hbe; lia|]. split; [done|].
    destruct Hmin as [[? _]|[_ ?]]; [lia|by right].
  - change (("" ++ (DecimalJs.digits_of c ++ DecimalJs.zeros (q + 18)))%string)
      with ((DecimalJs.digits_of c ++ DecimalJs.zeros (q + 18))%string).
    rewrite Hpos. cbn [mbind option_bind].
    destruct (toArray_spec (Z.of_N c * 10 ^ (q + 18)))
      as (bs & -> & Hbe & Hrange & Hmin).
    exists bs. split; [done|]. split; [rewrite Hbe; lia|]. split; [done|].
    destruct Hmin as [[? _]|[_ ?]]; [lia|by right].
Qed.

Lemma argToBytes_dna_exact_witness :
  ∃ bs, argToBytes {| arg_index := 7; arg_format := "dna";
                      arg_value := "-0.25" |} = inr bs
        ∧ be_value bs = 25 * 10 ^ (-2 + 18)
        ∧ Forall byte_range bs
        ∧ (bs = [0] ∨ ∃ b rest, bs = b :: rest ∧ 0 < b).
Proof.
  apply (argToBytes_dna_exact
           {| arg_index := 7; arg_format := "dna"; arg_value := "-0.25" |}
           true 25 (-2)); [reflexivity|by vm_compute|by vm_compute|lia].
Defined.

Lemma span_digits_stop s1 d1 c rest :
  JsString.span_digits s1 = (d1, EmptyString) → JsString.digit c = None →
  JsString.span_digits (s1 ++ String c rest) = (d1, String c rest).
Proof.
  revert d1. induction s1 as [|a s1 IH]; intros d1 H1 Hc.
  - injection H1 as <-. simpl. by rewrite Hc.
  - simpl in *. destruct (JsString.digit a) as [d|]; [|done].
    destruct (JsString.span_digits s1) as [ds r] eqn:Hs.
    injection H1 as <- ->. by rewrite (IH ds eq_refl Hc).
Qed.

(** [parseInt] reads the numeral a string starts with and ignores what
    follows it. *)
Lemma parseInt10_prefix (n : N) (c : ascii) (rest : string) :
  JsString.digit c = None →
  JsString.parseInt10 (JsString.of_N n ++ String c rest) = Some (Z.of_N n).
Proof.
  intros Hc.
  destruct (span_digits_of_N n) as (ds & Hspan & Hval).
  destruct (numeral_head_digit n) as (a & r & d & Hstr & Hd).
  pose proof (span_digits_stop _ _ c rest Hspan Hc) as Hstop.
  unfold JsString.parseInt10.
  assert (JsString.trimStart (JsString.of_N n ++ String c rest)
          = (JsString.of_N n ++ String c rest)%string) as ->.
  { unfold JsString.trimStart. rewrite Hstr.
    change ((String a r ++ String c rest)%string)
      with (String a (r ++ String c rest)).
    cbn [String.length JsString.trimStart_fuel].
    by rewrite (white_space_digit a _ d Hd). }
  rewrite Hstr in *.
  change ((String a r ++ String c rest)%string)
    with (String a (r ++ String c rest)) in *.
  assert (a ≠ "-"%char ∧ a ≠ "+"%char) as [Hm Hp]
    by (split; intros ->; done).
  replace (match String a (r ++ String c rest) with
           | String "-"%char r0 => (true, r0)
           | String "+"%char r0 => (false, r0)
           | _ => (false, String a (r ++ String c rest))
           end) with (false, String a (r ++ String c rest)).
  2:{ destruct a as [[] [] [] [] [] [] [] []]; try done. }
  rewrite Hstop. cbn [fst].
  destruct ds as [|d0 ds]; [|by rewrite Hval].
  simpl in Hspan. rewrite Hd in Hspan.
  by destruct (JsString.span_digits r).
Qed.

(** X5: with format ['byte'] or ['int8'], text that follows the numeral is
    ignored: the numeral of [n <= 255] followed by any text that starts
    with a character other than a digit is encoded as the byte [n]. *)
Theorem argToBytes_byte_ignores_suffix (index : nat) (format : string)
    (n : N) (c : ascii) (rest : string) :
  format = "byte"%string ∨ format = "int8"%string →
  (n ≤ 255)%N → JsString.digit c = None →
  argToBytes {| arg_index := index; arg_format := format;
                arg_value := JsString.of_N n ++ String c rest |}
  = inr [Z.of_N n].
Proof.
  intros Hf Hn Hc. unfold argToBytes, argToBytes_try.
  cbn [arg_format arg_value arg_index].
  destruct Hf as [-> | ->]; cbn [String.eqb Ascii.eqb Bool.eqb];
    rewrite parseInt10_prefix by done;
    destruct (Z.leb_spec 0 (Z.of_N n)), (Z.leb_spec (Z.of_N n) 255);
    try lia; done.
Qed.

Lemma argToBytes_byte_ignores_suffix_witness :
  argToBytes {| arg_index := 4; arg_format := "byte";
                arg_value := JsString.of_N 12 ++ String "p" "x" |}
  = inr [Z.of_N 12].
Proof.
  apply (argToBytes_byte_ignores_suffix 4 "byte" 12 "p" "x");
    [by left|done|done].
Defined.

(** ** More on the slice *)

(** X6: when several arguments carry the same index, the slot holds the
    bytes of the last of them in the order of the list (all arguments
    being such that they encode). *)
Theorem argsToSlice_last_write_wins (before after : list Arg) (a : Arg) :
  (∀ b, b ∈ before ++ a :: after → ∃ bs, argToBytes b = inr bs) →
  (∀ b, b ∈ after → arg_index b ≠ arg_index a) →
  ∃ slice bs, argsToSlice (before ++ a :: after) = inr slice
              ∧ argToBytes a = inr bs
              ∧ slice !! arg_index a = Some (Bytes bs).
Proof.
  intros Hok Hlast.
  set (args := before ++ a :: after) in *.
  assert (a ∈ args) as Ha by (apply elem_of_app; right; apply elem_of_cons; auto).
  destruct (Hok a Ha) as [bs Hbs].
  set (M := max_index args).
  assert (∀ b, b ∈ args → (arg_index b ≤ M)%nat) as HM
    by (intros b Hb; by apply max_index_upper).
  destruct (fold_place_spec M before (replicate M Null))
    as (r1 & Hfold1 & Hlen1 & _).
  { intros b Hb. apply HM, elem_of_app. auto. }
  { rewrite length_replicate. lia. }
  { intros b Hb. apply Hok, elem_of_app. auto. }
  set (r2 := array_set r1 (arg_index a) (Bytes bs)).
  assert (length r2 = if decide (arg_index a < length r1)%nat
                      then length r1 else S (arg_index a)) as Hlen2
    by (apply array_set_length; specialize (HM a Ha); lia).
  destruct (fold_place_spec M after r2) as (r3 & Hfold3 & _ & _ & Hsame & _).
  { intros b Hb. apply HM, elem_of_app. right. apply elem_of_cons. auto. }
  { rewrite Hlen2. specialize (HM a Ha). case_decide; lia. }
  { intros b Hb. apply Hok, elem_of_app. right. apply elem_of_cons. auto. }
  exists r3, bs. split; [|split; [done|]].
  - unfold argsToSlice.
    destruct (decide (length args = 0%nat)) as [Hlen|_].
    { exfalso. unfold args in Hlen. rewrite length_app in Hlen.
      simpl in Hlen. lia. }
    fold M. unfold args. rewrite fold_left_app, Hfold1. simpl.
    rewrite Hbs. exact Hfold3.
  - rewrite Hsame by done. apply array_set_lookup_eq.
Qed.

Lemma argsToSlice_last_write_wins_witness :
  ∃ slice,
    argsToSlice
      ([ {| arg_index := 1; arg_format := "byte"; arg_value := "5" |} ]
       ++ {| arg_index := 1; arg_format := "byte"; arg_value := "7" |}
          :: [ {| arg_index := 0; arg_format := "byte"; arg_value := "9" |} ])
    = inr slice
    ∧ slice !! 1%nat = Some (Bytes [7]).
Proof.
  destruct (argsToSlice_last_write_wins
              [ {| arg_index := 1; arg_format := "byte"; arg_value := "5" |} ]
              [ {| arg_index := 0; arg_format := "byte"; arg_value := "9" |} ]
              {| arg_index := 1; arg_format := "byte"; arg_value := "7" |})
    as (slice & bs & Hslice & Hbs & Hslot).
  - intros b Hb. cbn [app] in Hb. rewrite !elem_of_cons in Hb.
    destruct Hb as [->|[->|[->|Hb]]]; [by eexists..|].
    by apply not_elem_of_nil in Hb.
  - intros b Hb. apply list_elem_of_singleton in Hb as ->. simpl. lia.
  - exists slice. split; [exact Hslice|].
    injection Hbs as <-. exact Hslot.
Defined.

(** X7: [argsToSlice] fails with the error of the first argument, in the
    order of the list, that does not encode, whatever follows it. *)
Theorem argsToSlice_first_error (before after : list Arg) (a : Arg)
    (e : EncodingError) :
  (∀ b, b ∈ before → ∃ bs, argToBytes b = inr bs) →
  argToBytes a = inl e →
  argsToSlice (before ++ a :: after) = inl e.
Proof.
  intros Hok Ha. unfold argsToSlice.
  destruct (decide (length (before ++ a :: after) = 0%nat)) as [Hlen|_].
  { rewrite length_app in Hlen. simpl in Hlen. lia. }
  set (M := max_index (before ++ a :: after)).
  destruct (fold_place_spec M before (replicate M Null)) as (r1 & Hfold & _).
  { intros b Hb. apply max_index_upper, elem_of_app. auto. }
  { rewrite length_replicate. lia. }
  { done. }
  rewrite fold_left_app, Hfold. simpl. rewrite Ha. apply fold_place_error.
Qed.

Lemma argsToSlice_first_error_witness :
  argsToSlice
    ([ {| arg_index := 0; arg_format := "byte"; arg_value := "5" |} ]
     ++ {| arg_index := 1; arg_format := "byte"; arg_value := "256" |}
        :: [ {| arg_index := 2; arg_format := "byte"; arg_value := "-1" |} ])
  = inl {| err_format := "byte"; err_index := 1;
           err_reason := InvalidByteValue |}.
Proof.
  apply (argsToSlice_first_error
           [ {| arg_index := 0; arg_format := "byte"; arg_value := "5" |} ]
           [ {| arg_index := 2; arg_format := "byte"; arg_value := "-1" |} ]
           {| arg_index := 1; arg_format := "byte"; arg_value := "256" |}).
  - intros b Hb. apply list_elem_of_singleton in Hb as ->. by eexists.
  - reflexivity.
Defined.

Lemma buildDynamicArgs_from (l : list RawArg) :
  ∀ k,
    StronglySorted lt
      (arg_index <$> omap as_arg
         (filter (λ m, m_value m ≠ None) (imap (λ i, map_arg (k + i)) l)))
    ∧ Forall (λ a, (k ≤ arg_index a < k + length l)%nat)
        (omap as_arg
           (filter (λ m, m_value m ≠ None) (imap (λ i, map_arg (k + i)) l)))
    ∧ (length (omap as_arg
                 (filter (λ m, m_value m ≠ None)
                    (imap (λ i, map_arg (k + i)) l)))
       ≤ length l)%nat.
Proof.
  induction l as [|x l IH]; intros k.
  - split; [constructor|]. split; [constructor|done].
  - rewrite imap_cons.
    rewrite (imap_ext _ (λ i, map_arg (S k + i))) by (intros; simpl; f_equal; lia).
    destruct (IH (S k)) as (Hs & Hb & Hlen).
    set (rest := omap as_arg
                   (filter (λ m, m_value m ≠ None)
                      (imap (λ i, map_arg (S k + i)) l))) in *.
    assert (Forall (λ a, (k < arg_index a < k + length (x :: l))%nat) rest)
      as Hb'.
    { eapply Forall_impl; [exact Hb|]. simpl. intros a Ha. lia. }
    rewrite filter_cons.
    destruct (coerce (raw_value x)) as [v|] eqn:Hc.
    + rewrite decide_True by (unfold map_arg; simpl; by rewrite Hc).
      assert (omap as_arg
                (map_arg (k + 0) x
                 :: filter (λ m, m_value m ≠ None)
                      (imap (λ i, map_arg (S k + i)) l))
              = kept_arg (k + 0) x v :: rest) as ->.
      { unfold rest. cbn [omap list_omap]. unfold as_arg at 1.
        unfold map_arg at 1 2 3. simpl. by rewrite Hc. }
      split; [|split].
      * rewrite fmap_cons. constructor; [done|]. apply Forall_fmap.
        eapply Forall_impl; [exact Hb'|]. simpl. intros a Ha. lia.
      * constructor; [simpl; lia|].
        eapply Forall_impl; [exact Hb'|]. simpl. intros a Ha. lia.
      * simpl. lia.
    + rewrite decide_False by (unfold map_arg; simpl; rewrite Hc; auto).
      fold rest. split; [done|]. split; [|simpl; lia].
      eapply Forall_impl; [exact Hb'|]. simpl. intros a Ha. lia.
Qed.

(** X8: the indices of the arguments [buildDynamicArgs] returns are
    strictly increasing, hence pairwise different, and smaller than the
    length of the input; the result is no longer than the input. *)
Theorem buildDynamicArgs_indices (raw : list RawArg) :
  StronglySorted lt (arg_index <$> buildDynamicArgs raw)
  ∧ NoDup (arg_index <$> buildDynamicArgs raw)
  ∧ Forall (λ a, (arg_index a < length raw)%nat) (buildDynamicArgs raw)
  ∧ (length (buildDynamicArgs raw) ≤ length raw)%nat.
Proof.
  destruct (buildDynamicArgs_from raw 0) as (Hs & Hb & Hlen).
  change (StronglySorted lt (arg_index <$> buildDynamicArgs raw)) in Hs.
  change (Forall (λ a, (0 ≤ arg_index a < 0 + length raw)%nat)
            (buildDynamicArgs raw)) in Hb.
  split; [done|]. split; [|split; [|done]].
  - clear Hb. induction Hs as [|i l Hs IH Hall]; constructor; [|done].
    intros Hin. rewrite Forall_forall in Hall. specialize (Hall i Hin). lia.
  - eapply Forall_impl; [exact Hb|]. simpl. intros a Ha. lia.
Qed.

(** The slot of an argument that [buildDynamicArgs] keeps. *)
Lemma buildDynamicArgs_slice_lookup raw slice i a v :
  argsToSlice (buildDynamicArgs raw) = inr slice →
  raw !! i = Some a → coerce (raw_value a) = Some v →
  ∃ bs, argToBytes (kept_arg i a v) = inr bs ∧ slice !! i = Some (Bytes bs).
Proof.
  intros Hslice Hi Hv.
  assert (kept_arg i a v ∈ buildDynamicArgs raw) as Hin
    by (apply buildDynamicArgs_elem; by exists i, a, v).
  destruct (all_encode_or_not (buildDynamicArgs raw)) as [Hok|Hbad].
  2:{ apply argsToSlice_error in Hbad as (b & e & _ & _ & He). congruence. }
  destruct (argsToSlice_nonempty (buildDynamicArgs raw))
    as (slice' & Hslice' & _ & _ & Hset & Hfrom);
    [by intros E; rewrite E in Hin; apply not_elem_of_nil in Hin|done|].
  assert (slice' = slice) as -> by congruence.
  destruct (Hset _ Hin) as [bs Hbs]. simpl in Hbs.
  destruct (Hfrom _ _ Hbs) as (c & Hc & Hci & Hcb).
  apply buildDynamicArgs_elem in Hc as (i' & a' & v' & Hi' & Hv' & ->).
  simpl in Hci. subst i'. rewrite Hi in Hi'. injection Hi' as <-.
  rewrite Hv in Hv'. injection Hv' as <-. eauto.
Qed.

(** The slice of normalised arguments ends with the last argument that is
    kept. *)
Lemma buildDynamicArgs_slice_length raw slice :
  argsToSlice (buildDynamicArgs raw) = inr slice →
  slice = []
  ∨ ∃ i a v, length slice = S i ∧ raw !! i = Some a
             ∧ coerce (raw_value a) = Some v.
Proof.
  intros Hslice.
  destruct (buildDynamicArgs raw) as [|a0 rest] eqn:Hbda.
  { injection Hslice as <-. by left. }
  rewrite <- Hbda in *. right.
  destruct (all_encode_or_not (buildDynamicArgs raw)) as [Hok|Hbad].
  2:{ apply argsToSlice_error in Hbad as (b & e & _ & _ & He). congruence. }
  destruct (argsToSlice_nonempty (buildDynamicArgs raw))
    as (slice' & Hslice' & Hlen & _); [by rewrite Hbda|done|].
  assert (slice' = slice) as -> by congruence.
  destruct (max_index_attained (buildDynamicArgs raw))
    as (top & Htop & Hmax); [by rewrite Hbda|].
  apply buildDynamicArgs_elem in Htop as (i & a & v & Hi & Hv & ->).
  simpl in Hmax. exists i, a, v. split; [lia|done].
Qed.

(** ** Deployment arguments *)

Lemma hex_digit_hex_char n :
  0 ≤ n < 16 → hex_digit (hex_char n) = Some n.
Proof.
  intros Hn. assert (n ∈ seqZ 0 16) as Hin by (apply elem_of_seqZ; lia).
  vm_compute in Hin. repeat (apply elem_of_cons in Hin as [->|Hin]; [done|]).
  by apply not_elem_of_nil in Hin.
Qed.

Lemma hex_pairs_stringToHex s :
  hex_pairs (stringToHex s) = Some (JsString.bytes s).
Proof.
  induction s as [|c s IH]; [done|].
  cbn [stringToHex hex_pairs].
  assert (0 ≤ JsString.code c < 256) as Hc.
  { unfold JsString.code. pose proof (N_ascii_bounded c). lia. }
  rewrite !hex_digit_hex_char, IH.
  - unfold JsString.bytes. simpl. do 2 f_equal.
    pose proof (Z.div_mod (JsString.code c) 16 ltac:(lia)). lia.
  - apply Z.mod_pos_bound. lia.
  - split; [apply Z.div_pos; lia|apply Z.div_lt_upper_bound; lia].
Qed.

Lemma hexToUint8Array_no_prefix a b r :
  b ≠ "x"%char →
  hexToUint8Array (String a (String b r)) = hex_pairs (String a (String b r)).
Proof.
  intros Hb. unfold hexToUint8Array.
  destruct a as [[] [] [] [] [] [] [] []]; try reflexivity.
  destruct b as [[] [] [] [] [] [] [] []]; try reflexivity.
  by destruct Hb.
Qed.

(** X9: the hexadecimal text [objectToHex] makes of a JSON text has two
    digits for every byte, and with or without ["0x"] in front it decodes
    to the UTF-8 bytes of that text; they are what the first slot of the
    deployment slice holds. *)
Theorem objectToHex_decodes (index : nat) (json : string) :
  hexToUint8Array ("0x" ++ objectToHex json) = Some (JsString.bytes json)
  ∧ hexToUint8Array (objectToHex json) = Some (JsString.bytes json)
  ∧ argToBytes {| arg_index := index; arg_format := "hex";
                  arg_value := "0x" ++ objectToHex json |}
    = inr (JsString.bytes json)
  ∧ String.length (objectToHex json) = (2 * String.length json)%nat
  ∧ ∀ v slice,
      v_fact_json v = json →
      argsToSlice (buildContractDeploymentArgs v) = inr slice →
      slice !! 0%nat = Some (Bytes (JsString.bytes json)).
Proof.
  assert (hexToUint8Array ("0x" ++ objectToHex json)
          = Some (JsString.bytes json)) as H0x
    by apply hex_pairs_stringToHex.
  assert (argToBytes {| arg_index := index; arg_format := "hex";
                        arg_value := "0x" ++ objectToHex json |}
          = inr (JsString.bytes json)) as Hhex.
  { unfold argToBytes, argToBytes_try. cbn [arg_format arg_value arg_index].
    cbn [String.eqb Ascii.eqb Bool.eqb]. by rewrite H0x. }
  split; [done|]. split; [|split; [done|split]].
  - unfold objectToHex, hexToUint8Array.
    destruct json as [|c s]; [done|].
    rewrite <- (hex_pairs_stringToHex (String c s)).
    cbn [stringToHex].
    assert (0 ≤ JsString.code c mod 16 < 16) as Hm
      by (apply Z.mod_pos_bound; lia).
    assert (hex_char (JsString.code c mod 16) ≠ "x"%char) as Hx.
    { intros Hx. pose proof (hex_digit_hex_char _ Hm) as Hd.
      rewrite Hx in Hd. vm_compute in Hd. done. }
    by apply hexToUint8Array_no_prefix.
  - unfold objectToHex. clear H0x Hhex. induction json as [|c s IH]; [done|].
    cbn [stringToHex String.length]. rewrite IH. lia.
  - intros v slice Hv Hslice. unfold buildContractDeploymentArgs in Hslice.
    destruct (buildDynamicArgs_slice_lookup _ _ 0%nat _ _ Hslice
                eq_refl eq_refl) as (bs & Hbs & ->).
    unfold kept_arg in Hbs. simpl in Hbs. rewrite Hv in Hbs.
    do 2 f_equal.
    assert (argToBytes {| arg_index := 0; arg_format := "hex";
                          arg_value := "0x" ++ objectToHex json |}
            = inr (JsString.bytes json)) as Hhex0.
    { unfold argToBytes, argToBytes_try.
      cbn [arg_format arg_value arg_index].
      cbn [String.eqb Ascii.eqb Bool.eqb]. by rewrite H0x. }
    congruence.
Qed.

(** X10: every deployment argument has the format of its position (hex,
    uint64, uint64, uint64, byte, byte, uint64, dna, byte, dna, hex).  The
    fact and the start time are always present; a free voting has the
    minimal payment ["0"]; a winner threshold and an owner fee that are not
    given are ["66"] and ["0"]; and the owner address (position 10) is
    present exactly for a custom owner address that is not [null]. *)
Theorem buildContractDeploymentArgs_shape (v : Voting) :
  (∀ a, a ∈ buildContractDeploymentArgs v →
        deployment_formats !! arg_index a = Some (arg_format a))
  ∧ {| arg_index := 0; arg_format := "hex";
       arg_value := "0x" ++ objectToHex (v_fact_json v) |}
    ∈ buildContractDeploymentArgs v
  ∧ {| arg_index := 1; arg_format := "uint64"; arg_value := v_start_unix v |}
    ∈ buildContractDeploymentArgs v
  ∧ (v_isFreeVoting v = true →
     {| arg_index := 7; arg_format := "dna"; arg_value := "0" |}
     ∈ buildContractDeploymentArgs v)
  ∧ (v_winnerThreshold v = JsUndefined →
     {| arg_index := 4; arg_format := "byte"; arg_value := "66" |}
     ∈ buildContractDeploymentArgs v)
  ∧ (v_ownerFee v = JsUndefined →
     {| arg_index := 8; arg_format := "byte"; arg_value := "0" |}
     ∈ buildContractDeploymentArgs v)
  ∧ ((∃ a, a ∈ buildContractDeploymentArgs v ∧ arg_index a = 10%nat)
     ↔ v_isCustomOwnerAddress v = true ∧ coerce (v_ownerAddress v) ≠ None).
Proof.
  unfold buildContractDeploymentArgs.
  split; [|split; [|split; [|split; [|split; [|split]]]]].
  - intros a Ha. apply buildDynamicArgs_elem in Ha as (i & r & s & Hi & _ & ->).
    do 11 (destruct i as [|i]; [by injection Hi as <-|]). done.
  - apply buildDynamicArgs_elem. by eexists 0%nat, _, _.
  - apply buildDynamicArgs_elem. by eexists 1%nat, _, _.
  - intros Hfree. apply buildDynamicArgs_elem.
    eexists 7%nat, _, _. split; [done|]. rewrite Hfree. done.
  - intros Hwt. apply buildDynamicArgs_elem.
    eexists 4%nat, _, _. split; [done|]. rewrite Hwt. done.
  - intros Hfee. apply buildDynamicArgs_elem.
    eexists 8%nat, _, _. split; [done|]. rewrite Hfee. done.
  - split.
    + intros (a & Ha & Hidx).
      apply buildDynamicArgs_elem in Ha as (i & r & s & Hi & Hs & ->).
      simpl in Hidx. subst i. injection Hi as <-. simpl in Hs.
      destruct (v_isCustomOwnerAddress v); [|done]. split; [done|congruence].
    + intros [Hc Ho].
      destruct (coerce (v_ownerAddress v)) as [s|] eqn:Hs; [|done].
      exists {| arg_index := 10; arg_format := "hex"; arg_value := s |}.
      split; [|done]. apply buildDynamicArgs_elem.
      eexists 10%nat, _, s. split; [done|]. split; [|done].
      simpl. by rewrite Hc.
Qed.

(** X11: the slice of the deployment arguments, when every argument
    encodes, has between 2 and 11 slots, at most 10 without a custom owner
    address; the minimal payment of a free voting is the byte 0 whatever
    [votingMinPayment] holds, and a winner threshold and an owner fee that
    are not given are the bytes 66 and 0. *)
Theorem deployment_slice (v : Voting) (slice : list Slot) :
  argsToSlice (buildContractDeploymentArgs v) = inr slice →
  (2 ≤ length slice ≤ 11)%nat
  ∧ (v_isFreeVoting v = true → slice !! 7%nat = Some (Bytes [0]))
  ∧ (v_winnerThreshold v = JsUndefined → slice !! 4%nat = Some (Bytes [66]))
  ∧ (v_ownerFee v = JsUndefined → slice !! 8%nat = Some (Bytes [0]))
  ∧ (v_isCustomOwnerAddress v = false → (length slice ≤ 10)%nat).
Proof.
  unfold buildContractDeploymentArgs. intros Hslice.
  pose proof (buildDynamicArgs_slice_lookup _ _ 1%nat _ _ Hslice eq_refl eq_refl)
    as (bs1 & _ & Hs1).
  apply lookup_lt_Some in Hs1.
  pose proof (buildDynamicArgs_slice_length _ _ Hslice)
    as [->|(i & a & s & Hlen & Hi & Hs)]; [simpl in Hs1; lia|].
  pose proof (lookup_lt_Some _ _ _ Hi) as Hi11. simpl in Hi11.
  split; [lia|]. split; [|split; [|split]].
  - intros Hfree.
    destruct (buildDynamicArgs_slice_lookup _ _ 7%nat _ "0"%string
                Hslice eq_refl) as (bs & Hbs & Hs7);
      [simpl; by rewrite Hfree|].
    rewrite Hs7. do 2 f_equal. vm_compute in Hbs. congruence.
  - intros Hwt.
    destruct (buildDynamicArgs_slice_lookup _ _ 4%nat _ "66"%string
                Hslice eq_refl) as (bs & Hbs & Hs4);
      [simpl; by rewrite Hwt|].
    rewrite Hs4. do 2 f_equal. vm_compute in Hbs. congruence.
  - intros Hfee.
    destruct (buildDynamicArgs_slice_lookup _ _ 8%nat _ "0"%string
                Hslice eq_refl) as (bs & Hbs & Hs8);
      [simpl; by rewrite Hfee|].
    rewrite Hs8. do 2 f_equal. vm_compute in Hbs. congruence.
  - intros Hcustom.
    destruct (decide (i = 10%nat)) as [->|]; [exfalso|lia].
    injection Hi as <-. simpl in Hs. by rewrite Hcustom in Hs.
Qed.

Lemma deployment_slice_witness :
  (2 ≤ length example_deployment_slice ≤ 11)%nat
  ∧ example_deployment_slice !! 7%nat = Some (Bytes [0])
  ∧ example_deployment_slice !! 4%nat = Some (Bytes [66])
  ∧ (length example_deployment_slice ≤ 10)%nat.
Proof.
  destruct (deployment_slice example_voting example_deployment_slice)
    as (Hlen & Hfree & Hwt & _ & Hcustom); [by vm_compute|].
  split; [exact Hlen|]. split; [exact (Hfree eq_refl)|].
  split; [exact (Hwt eq_refl)|exact (Hcustom eq_refl)].
Defined.

(** ** Quorum, totals and durations *)

(** X12: on integers [quorumVotesCount] is the exact ceiling of
    [committeeSize * quorum / 100], and [hasQuorum] holds exactly when
    [committeeSize * quorum <= 100 * votesCount]; a quorum that is reached
    stays reached with more votes.  [winnerVotesCount] is the exact
    ceiling of [votesCount * winnerThreshold / 100] in the same way. *)
Theorem hasQuorum_integers (votesCount quorum committeeSize : Z) :
  0 ≤ votesCount < 2 ^ 53 → 0 ≤ quorum < 2 ^ 53 →
  0 ≤ committeeSize < 2 ^ 53 → committeeSize * quorum < 2 ^ 53 →
  quorumVotesCount (JsNumber.of_Z quorum) (JsNumber.of_Z committeeSize)
  = JsNumber.of_Z (exact_ceil_div_100 (committeeSize * quorum))
  ∧ (hasQuorum (JsNumber.of_Z votesCount) (JsNumber.of_Z quorum)
       (JsNumber.of_Z committeeSize) = true
     ↔ committeeSize * quorum ≤ 100 * votesCount)
  ∧ (∀ more, votesCount ≤ more < 2 ^ 53 →
       hasQuorum (JsNumber.of_Z votesCount) (JsNumber.of_Z quorum)
         (JsNumber.of_Z committeeSize) = true →
       hasQuorum (JsNumber.of_Z more) (JsNumber.of_Z quorum)
         (JsNumber.of_Z committeeSize) = true)
  ∧ (∀ winnerThreshold votes,
       0 ≤ winnerThreshold < 2 ^ 53 → 0 ≤ votes < 2 ^ 53 →
       votes * winnerThreshold < 2 ^ 53 →
       winnerVotesCount (JsNumber.of_Z winnerThreshold) (JsNumber.of_Z votes)
       = JsNumber.of_Z (exact_ceil_div_100 (votes * winnerThreshold))).
Proof.
  intros Hv Hq Hc Hcq.
  assert (quorumVotesCount (JsNumber.of_Z quorum) (JsNumber.of_Z committeeSize)
          = JsNumber.of_Z (exact_ceil_div_100 (committeeSize * quorum))) as Hqv.
  { unfold quorumVotesCount. rewrite mul_of_Z, ceil_div_100 by (done || lia).
    done. }
  assert (∀ v, 0 ≤ v < 2 ^ 53 →
    hasQuorum (JsNumber.of_Z v) (JsNumber.of_Z quorum)
      (JsNumber.of_Z committeeSize) = true
    ↔ committeeSize * quorum ≤ 100 * v) as Hiff.
  { intros v Hv'. unfold hasQuorum. rewrite Hqv.
    rewrite ge_of_Z by (done || apply exact_ceil_div_100_range; nia).
    rewrite Z.leb_le. apply exact_ceil_div_100_le. }
  split; [done|]. split; [by apply Hiff|]. split.
  - intros more Hmore. rewrite !Hiff by lia. lia.
  - intros wt votes Hwt Hvotes Hprod. unfold winnerVotesCount.
    rewrite mul_of_Z, ceil_div_100 by (done || lia). done.
Qed.

Lemma hasQuorum_integers_witness :
  hasQuorum (JsNumber.of_Z 40) (JsNumber.of_Z 50) (JsNumber.of_Z 80) = true
  ↔ 80 * 50 ≤ 100 * 40.
Proof.
  apply (hasQuorum_integers 40 50 80); lia.
Defined.

Lemma add_NaN_r x : JsNumber.add x JsNumber.NaN = JsNumber.NaN.
Proof. by destruct x. Qed.

(** X13: [sumAccountableVotes] is 0 for a list that is [undefined] or
    empty, the exact sum of integer counts, and NaN as soon as one entry
    is [undefined]; it is the total [hasWinner] computes the winner
    threshold from. *)
Theorem sumAccountableVotes_spec :
  sumAccountableVotes None = JsNumber.of_Z 0
  ∧ sumAccountableVotes (Some []) = JsNumber.of_Z 0
  ∧ (∀ counts, Forall (λ c, 0 ≤ c) counts → sum_Z counts < 2 ^ 53 →
       sumAccountableVotes (Some (Some ∘ option_count <$> counts))
       = JsNumber.of_Z (sum_Z counts))
  ∧ (∀ vs, None ∈ vs → sumAccountableVotes (Some vs) = JsNumber.NaN)
  ∧ (∀ votes votesCount winnerThreshold quorum committeeSize,
       hasWinner votes votesCount winnerThreshold quorum committeeSize
       = hasQuorum votesCount quorum committeeSize
         && existsb
              (λ v, JsNumber.ge (count v)
                      (winnerVotesCount winnerThreshold
                         (sumAccountableVotes (Some (Some <$> votes)))))
              votes).
Proof.
  assert (∀ (votes : list VoteOption) acc,
    fold_left
      (λ agg curr,
         JsNumber.add agg
           (match curr with Some v => count v | None => JsNumber.NaN end))
      (Some <$> votes) acc
    = fold_left JsNumber.add (count <$> votes) acc) as Hfold.
  { induction votes as [|v votes IH]; intros acc; [done|]. simpl. apply IH. }
  split; [done|]. split; [done|]. split; [|split].
  - intros counts Hall Hsum. unfold sumAccountableVotes.
    rewrite list_fmap_compose, Hfold, <- list_fmap_compose.
    change (count ∘ option_count) with JsNumber.of_Z.
    rewrite fold_add_of_Z by (done || lia). done.
  - intros vs Hin. unfold sumAccountableVotes.
    generalize (JsNumber.of_Z 0).
    induction vs as [|v vs IH]; intros acc.
    + by apply not_elem_of_nil in Hin.
    + apply elem_of_cons in Hin as [<-|Hin].
      * simpl. rewrite add_NaN_r. clear.
        induction vs as [|v vs IH]; [done|]. simpl. apply IH.
      * simpl. by apply IH.
  - intros. unfold hasWinner, sumAccountableVotes.
    by rewrite Hfold, fold_left_counts.
Qed.

Lemma round_examples :
  JsMath.round (S754_finite false 1 (-1)) = JsNumber.of_Z 1
  ∧ JsMath.round (S754_finite true 1 (-1)) = S754_zero true
  ∧ JsMath.round (S754_finite true 3 (-1)) = JsNumber.of_Z (-1)
  ∧ JsMath.round (S754_finite false 5 (-1)) = JsNumber.of_Z 3
  ∧ JsMath.round (S754_finite false 1 (-2)) = S754_zero false
  ∧ JsMath.round (S754_finite false 7 (-2)) = JsNumber.of_Z 2.
Proof. repeat split; reflexivity. Qed.

(** [Math.round] leaves the number of an integer as it is. *)
Lemma round_of_Z (k : Z) :
  0 ≤ k < 2 ^ 53 → JsMath.round (JsNumber.of_Z k) = JsNumber.of_Z k.
Proof.
  intros Hk. destruct k as [|pk|pk]; [done| |lia].
  pose proof (digits_le_53 pk ltac:(lia)) as Hdk.
  destruct (of_Z_pos pk ltac:(lia)) as (mk & Heq & Hmk & Hdmk).
  rewrite Heq. unfold JsMath.round.
  set (e := Z.pos (digits2_pos pk) - 53) in *.
  destruct (Z.leb_spec 0 e) as [|He]; [done|].
  cbn [cond_Zopp]. rewrite Z.shiftr_div_pow2 by lia.
  assert (Z.pos mk = Z.pos pk * 2 ^ (- e)) as Hmk'
    by (rewrite Hmk; do 2 f_equal; unfold e; lia).
  assert (0 < 2 ^ (- e)) as Hpow by (apply Z.pow_pos_nonneg; lia).
  replace (2 ^ (- e + 1)) with (2 * 2 ^ (- e))
    by (rewrite Z.pow_add_r by lia; change (2 ^ 1) with 2; ring).
  assert ((2 * Z.pos mk + 2 ^ (- e)) / (2 * 2 ^ (- e)) = Z.pos pk) as ->.
  { symmetry. apply (Z.div_unique_pos _ _ _ (2 ^ (- e))); [lia|].
    rewrite Hmk'. ring. }
  rewrite <- Heq. done.
Qed.

Lemma blocks_of_hours (h : Z) :
  0 ≤ h < 2 ^ 40 →
  JsMath.round
    (JsNumber.div
       (JsNumber.mul (JsNumber.mul (JsNumber.of_Z h) (JsNumber.of_Z 60))
          (JsNumber.of_Z 60))
       (JsNumber.of_Z 20))
  = JsNumber.of_Z (180 * h).
Proof.
  intros Hh. change (2 ^ 40) with 1099511627776 in Hh.
  assert (2 ^ 53 = 9007199254740992) as E by reflexivity.
  rewrite (mul_of_Z h 60), (mul_of_Z (h * 60) 60) by lia.
  replace (h * 60 * 60) with (20 * (180 * h)) by ring.
  rewrite div_of_Z_exact by lia.
  apply round_of_Z. lia.
Qed.

(** X14: a whole number [n] of hours, days or weeks is exactly
    [180 * n], [4320 * n] or [30240 * n] blocks; [hours] takes precedence
    over [days] and [weeks], and [days] over [weeks]; an interval without
    any of the three gives NaN. *)
Theorem blocksPerInterval_whole (n : Z) :
  0 ≤ n < 2 ^ 32 →
  (∀ weeks days,
     blocksPerInterval weeks days (Some (JsNumber.of_Z n))
     = JsNumber.of_Z (180 * n))
  ∧ (∀ weeks,
       blocksPerInterval weeks (Some (JsNumber.of_Z n)) None
       = JsNumber.of_Z (4320 * n))
  ∧ blocksPerInterval (Some (JsNumber.of_Z n)) None None
    = JsNumber.of_Z (30240 * n)
  ∧ blocksPerInterval None None None = JsNumber.NaN.
Proof.
  intros Hn. change (2 ^ 32) with 4294967296 in Hn.
  assert (2 ^ 53 = 9007199254740992) as E by reflexivity.
  assert (2 ^ 40 = 1099511627776) as E40 by reflexivity.
  unfold blocksPerInterval. cbn [default from_option id].
  split; [|split; [|split]].
  - intros _ _. apply blocks_of_hours. lia.
  - intros _. rewrite (mul_of_Z n 24) by lia.
    rewrite blocks_of_hours by lia. f_equal. lia.
  - rewrite (mul_of_Z n 7), (mul_of_Z (n * 7) 24) by lia.
    rewrite blocks_of_hours by lia. f_equal. lia.
  - reflexivity.
Qed.

Lemma blocksPerInterval_whole_witness :
  blocksPerInterval None (Some (JsNumber.of_Z 1)) None
  = JsNumber.of_Z (4320 * 1).
Proof.
  apply (blocksPerInterval_whole 1). lia.
Defined.

(** ** The scheduler of deferred votes *)

Lemma records_elem w x : x ∈ records w ↔ ∃ id, table w !! id = Some x.
Proof.
  unfold records. rewrite list_elem_of_fmap. split.
  - intros ([id y] & -> & Hin). rewrite merge_sort_Permutation in Hin.
    apply elem_of_map_to_list in Hin. eauto.
  - intros [id Hid]. exists (id, x). split; [done|].
    rewrite merge_sort_Permutation. by apply elem_of_map_to_list.
Qed.

Lemma getDeferredVotes_elem coinbase w x :
  x ∈ getDeferredVotes coinbase w
  ↔ (∃ id, table w !! id = Some x)
    ∧ vote_type x = VoteNone ∧ vote_coinbase x = coinbase.
Proof.
  unfold getDeferredVotes.
  rewrite list_elem_of_In, !filter_In, <- list_elem_of_In, records_elem.
  rewrite String.eqb_eq. unfold is_VoteNone.
  destruct (vote_type x); intuition congruence.
Qed.

(** X15: after a submission that succeeds, the stored vote has type
    [Success] and the hash of the transaction, no toast is shown, the
    cache is invalidated once, and the vote is no longer among the pending
    votes [getDeferredVotes] returns, all others still are. *)
Theorem sendVote_success (vote : DeferredVote) (node : Node) (w : World)
    (txHash : string) :
  submission node = inr txHash →
  table (sendVote vote node w) !! vote_id vote
  = set_success txHash <$> table w !! vote_id vote
  ∧ toasts (sendVote vote node w) = toasts w
  ∧ invalidations (sendVote vote node w) = S (invalidations w)
  ∧ ∀ coinbase x,
      x ∈ getDeferredVotes coinbase (sendVote vote node w)
      ↔ (∃ id, id ≠ vote_id vote ∧ table w !! id = Some x)
        ∧ vote_type x = VoteNone ∧ vote_coinbase x = coinbase.
Proof.
  intros Hsub. unfold sendVote. rewrite Hsub. simpl.
  split; [|split; [done|split; [done|]]].
  - rewrite lookup_alter. by case_decide.
  - intros coinbase x. rewrite getDeferredVotes_elem. simpl.
    split.
    + intros [[id Hid] [Ht Hc]]. split; [|done].
      exists id. rewrite lookup_alter in Hid. case_decide as Heq.
      * destruct (table w !! vote_id vote) as [y|]; simpl in Hid; [|done].
        injection Hid as <-. done.
      * done.
    + intros [(id & Hne & Hid) [Ht Hc]]. split; [|done].
      exists id. rewrite lookup_alter. case_decide; [congruence|done].
Qed.

Lemma sendVote_success_witness :
  table (sendVote (example_vote 120) accepting_node (example_world 120))
    !! vote_id (example_vote 120)
  = set_success "0xf00d"
    <$> table (example_world 120) !! vote_id (example_vote 120).
Proof.
  exact (proj1 (sendVote_success (example_vote 120) accepting_node
                  (example_world 120) "0xf00d" eq_refl)).
Defined.

(** X16: whatever the node answers, [sendVote] leaves the records of all
    other votes as they are, creates no record, and never changes the id,
    the coinbase or the contract hash of the record it updates. *)
Theorem sendVote_frame (vote : DeferredVote) (node : Node) (w : World)
    (id : Z) :
  (id ≠ vote_id vote → table (sendVote vote node w) !! id = table w !! id)
  ∧ (table w !! id = None → table (sendVote vote node w) !! id = None)
  ∧ (∀ stored stored',
       table w !! id = Some stored →
       table (sendVote vote node w) !! id = Some stored' →
       vote_id stored' = vote_id stored
       ∧ vote_coinbase stored' = vote_coinbase stored
       ∧ vote_contractHash stored' = vote_contractHash stored).
Proof.
  assert (∀ f, (∀ v, vote_id (f v) = vote_id v
                     ∧ vote_coinbase (f v) = vote_coinbase v
                     ∧ vote_contractHash (f v) = vote_contractHash v) →
    let t := alter f (vote_id vote) (table w) in
    (id ≠ vote_id vote → t !! id = table w !! id)
    ∧ (table w !! id = None → t !! id = None)
    ∧ (∀ stored stored',
       table w !! id = Some stored → t !! id = Some stored' →
       vote_id stored' = vote_id stored
       ∧ vote_coinbase stored' = vote_coinbase stored
       ∧ vote_contractHash stored' = vote_contractHash stored)) as Halter.
  { intros f Hf. simpl. destruct (decide (id = vote_id vote)) as [->|Hne].
    - rewrite lookup_alter_eq. split; [done|]. split; [by intros ->|].
      intros s s' -> [= <-]. apply Hf.
    - rewrite lookup_alter_ne by done.
      split; [done|]. split; [done|]. by intros s s' -> [= <-]. }
  assert (let t := delete (vote_id vote) (table w) in
    (id ≠ vote_id vote → t !! id = table w !! id)
    ∧ (table w !! id = None → t !! id = None)
    ∧ (∀ stored stored',
       table w !! id = Some stored → t !! id = Some stored' →
       vote_id stored' = vote_id stored
       ∧ vote_coinbase stored' = vote_coinbase stored
       ∧ vote_contractHash stored' = vote_contractHash stored)) as Hdelete.
  { simpl. split; [intros; by rewrite lookup_delete_ne|].
    split.
    - intros Hn. destruct (decide (id = vote_id vote)) as [->|];
        [apply lookup_delete_eq|by rewrite lookup_delete_ne].
    - intros s s' Hs Hs'. destruct (decide (id = vote_id vote)) as [->|].
      + by rewrite lookup_delete_eq in Hs'.
      + rewrite lookup_delete_ne in Hs' by done. by simplify_eq. }
  assert ((id ≠ vote_id vote → table w !! id = table w !! id)
    ∧ (table w !! id = None → table w !! id = None)
    ∧ (∀ stored stored',
       table w !! id = Some stored → table w !! id = Some stored' →
       vote_id stored' = vote_id stored
       ∧ vote_coinbase stored' = vote_coinbase stored
       ∧ vote_contractHash stored' = vote_contractHash stored)) as Hsame.
  { split; [done|]. split; [done|]. by intros s s' -> [= <-]. }
  unfold sendVote.
  destruct (submission node) as [message|txHash]; simpl.
  - repeat (case_match; simpl; try done);
      try (apply Halter; by intros []); try apply Hdelete.
  - apply Halter. by intros [].
Qed.

(** X17: the record of the vote is gone after [sendVote] exactly when it
    was not stored, or the submission failed with a message other than
    ['too early to accept open vote'] and ['insufficient funds'] and, for
    ['too late to accept open vote'] and ['quorum is not reachable'], the
    voting cannot be prolonged. *)
Theorem sendVote_removes (vote : DeferredVote) (node : Node) (w : World) :
  table (sendVote vote node w) !! vote_id vote = None
  ↔ table w !! vote_id vote = None
    ∨ ∃ message,
        submission node = inl message
        ∧ message ≠ too_early ∧ message ≠ insufficient_funds
        ∧ (message = too_late ∨ message = quorum_not_reachable →
           prolong_succeeds node = false).
Proof.
  assert (∀ f, alter f (vote_id vote) (table w) !! vote_id vote = None
               ↔ table w !! vote_id vote = None) as Halter.
  { intros f. rewrite lookup_alter_eq.
    destruct (table w !! vote_id vote); simpl; split; done. }
  unfold sendVote.
  destruct (submission node) as [message|txHash]; simpl.
  2:{ rewrite Halter. split; [auto|]. by intros [?|(m & [=] & _)]. }
  destruct (String.eqb_spec message too_early) as [->|Hearly].
  { assert (table (match read_startBlock node with
                   | Some startBlock =>
                       match read_votingDuration node with
                       | Some votingDuration =>
                           if startBlock + votingDuration >? vote_block vote
                           then invalidateQueries
                                  (updateDeferredVote (vote_id vote)
                                     (set_block (startBlock + votingDuration)) w)
                           else w
                       | None => console_error w
                       end
                   | None => console_error w
                   end) !! vote_id vote = None
            ↔ table w !! vote_id vote = None) as ->.
    { repeat case_match; simpl; rewrite ?Halter; done. }
    split; [auto|]. intros [?|(m & [= <-] & Hne & _)]; done. }
  destruct ((message =? too_late)%string
            || (message =? quorum_not_reachable)%string) eqn:Hlate.
  - apply orb_true_iff in Hlate.
    rewrite !String.eqb_eq in Hlate.
    destruct (prolong_succeeds node) eqn:Hp; simpl.
    + split; [auto|]. intros [?|(m & [= <-] & _ & _ & Himp)]; [done|].
      by specialize (Himp Hlate).
    + rewrite lookup_delete_eq. split; [|done]. intros _. right.
      exists message. split; [done|]. split; [done|]. split; [|done].
      destruct Hlate as [-> | ->]; done.
  - apply orb_false_iff in Hlate as [Hl1 Hl2].
    apply String.eqb_neq in Hl1, Hl2.
    destruct (String.eqb_spec message insufficient_funds) as [->|Hfunds]; simpl.
    + split; [auto|]. intros [?|(m & [= <-] & _ & Hne & _)]; done.
    + rewrite lookup_delete_eq. split; [|done]. intros _. right.
      exists message. split; [done|]. split; [done|]. split; [done|].
      intros [?|?]; done.
Qed.

(** X18: a submission that succeeds shows no toast; one that fails shows
    exactly one, after those shown before: the prompt to prolong the
    voting when the message is ['too late to accept open vote'] or ['quorum
    is not reachable'] and the voting can be prolonged, the error with its
    message otherwise.  The cache is invalidated at most once, and always
    when the table has changed. *)
Theorem sendVote_reports (vote : DeferredVote) (node : Node) (w : World) :
  match submission node with
  | inr _ => toasts (sendVote vote node w) = toasts w
  | inl message =>
      ∃ t, toasts (sendVote vote node w) = toasts w ++ [t]
           ∧ ((message = too_late ∨ message = quorum_not_reachable)
              ∧ prolong_succeeds node = true →
              t = ProlongPrompt (vote_contractHash vote))
           ∧ (¬ ((message = too_late ∨ message = quorum_not_reachable)
                 ∧ prolong_succeeds node = true) →
              t = ScheduledTxError message)
  end
  ∧ ((table (sendVote vote node w) = table w
      ∧ invalidations (sendVote vote node w) = invalidations w)
     ∨ invalidations (sendVote vote node w) = S (invalidations w)).
Proof.
  unfold sendVote.
  destruct (submission node) as [message|txHash]; simpl; [|auto].
  destruct (String.eqb_spec message too_early) as [->|Hearly].
  { split.
    - exists (ScheduledTxError too_early).
      split; [repeat case_match; done|].
      split; [|done]. by intros [[?|?] _].
    - repeat case_match; simpl; auto. }
  destruct ((message =? too_late)%string
            || (message =? quorum_not_reachable)%string) eqn:Hlate.
  - apply orb_true_iff in Hlate. rewrite !String.eqb_eq in Hlate.
    destruct (prolong_succeeds node) eqn:Hp; simpl.
    + split; [|auto]. exists (ProlongPrompt (vote_contractHash vote)).
      split; [done|]. split; [done|]. intros Hn. by destruct Hn.
    + split; [|auto]. exists (ScheduledTxError message).
      split; [done|]. split; [|done]. by intros [_ ?].
  - apply orb_false_iff in Hlate as [Hl1 Hl2].
    apply String.eqb_neq in Hl1, Hl2.
    destruct (String.eqb_spec message insufficient_funds) as [->|Hfunds]; simpl.
    + split; [|auto]. exists (ScheduledTxError insufficient_funds).
      split; [done|]. split; [|done]. by intros [[?|?] _].
    + split; [|auto]. exists (ScheduledTxError message).
      split; [done|]. split; [|done]. by intros [[?|?] _].
Qed.

(** X19: a vote that [addDeferredVote] stores is read back by
    [getDeferredVote] under its id, with type [None] when it had none, and
    no other record changes; [getDeferredVotes] returns it exactly for its
    own coinbase and type [None]; an update changes it, a delete removes
    it, and an update of an id that is not stored changes nothing. *)
Theorem deferredVotes_put_get (data : DeferredVoteData) (w : World) :
  getDeferredVote (data_id data) (addDeferredVote data w)
  = Some (with_default_type data)
  ∧ (∀ id, id ≠ data_id data →
           getDeferredVote id (addDeferredVote data w) = getDeferredVote id w)
  ∧ (∀ coinbase,
       with_default_type data ∈ getDeferredVotes coinbase (addDeferredVote data w)
       ↔ (data_type data = None ∨ data_type data = Some VoteNone)
         ∧ data_coinbase data = coinbase)
  ∧ (∀ changes,
       getDeferredVote (data_id data)
         (updateDeferredVote (data_id data) changes (addDeferredVote data w))
       = Some (changes (with_default_type data)))
  ∧ getDeferredVote (data_id data)
      (deleteDeferredVote (data_id data) (addDeferredVote data w)) = None
  ∧ (∀ id changes,
       getDeferredVote id w = None → updateDeferredVote id changes w = w).
Proof.
  unfold getDeferredVote, addDeferredVote, updateDeferredVote,
    deleteDeferredVote. simpl.
  split; [apply lookup_insert_eq|].
  split; [intros; by apply lookup_insert_ne|].
  split; [|split; [|split]].
  - intros coinbase. rewrite getDeferredVotes_elem. simpl. split.
    + intros [_ [Ht Hc]]. split; [|done].
      destruct (data_type data) as [[]|]; simpl in Ht; auto; done.
    + intros [Ht Hc]. split; [|split; [|done]].
      * exists (data_id data). apply lookup_insert_eq.
      * by destruct Ht as [-> | ->].
  - intros changes. by rewrite lookup_alter_eq, lookup_insert_eq.
  - apply lookup_delete_eq.
  - intros id changes Hid. destruct w as [t ts ce inv]. unfold with_table.
    simpl in *. f_equal. apply alter_id. intros x Hx. congruence.
Qed.

Lemma getDeferredVotes_table coinbase w w' :
  table w' = table w → getDeferredVotes coinbase w' = getDeferredVotes coinbase w.
Proof. intros H. unfold getDeferredVotes, records. by rewrite H. Qed.

Lemma available_elem votes currentBlock x :
  x ∈ available votes currentBlock
  ↔ x ∈ votes ∧ ∃ b, currentBlock = Some b ∧ vote_block x < b.
Proof.
  unfold available. rewrite !list_elem_of_In, filter_In. split.
  - intros [Hin Hlt]. split; [done|].
    destruct currentBlock as [b|]; [|done].
    exists b. split; [done|]. by apply Z.ltb_lt.
  - intros [Hin (b & -> & Hlt)]. split; [done|]. by apply Z.ltb_lt.
Qed.

(** X21: what the scheduler offers after an attempt.  After a submission
    that succeeds the votes offered are exactly those offered before that
    are stored under another id: the vote is not offered again, the others
    are as before.  After ['too early to accept open vote'] with a later
    block, the votes offered are the rescheduled vote, once the current
    block is past its new block, and those offered before that are stored
    under another id.  After ['insufficient funds'], or when the voting can
    be prolonged, exactly the same votes are offered as before, so that
    the attempt is repeated. *)
Theorem sendVote_then_available (vote : DeferredVote) (node : Node)
    (w : World) (coinbase : string) (currentBlock : option Z) :
  (∀ txHash x,
     submission node = inr txHash →
     (x ∈ available (getDeferredVotes coinbase (sendVote vote node w))
            currentBlock
      ↔ x ∈ available (getDeferredVotes coinbase w) currentBlock
        ∧ ∃ id, id ≠ vote_id vote ∧ table w !! id = Some x))
  ∧ (∀ startBlock votingDuration stored x,
       submission node = inl too_early →
       read_startBlock node = Some startBlock →
       read_votingDuration node = Some votingDuration →
       startBlock + votingDuration > vote_block vote →
       table w !! vote_id vote = Some stored →
       table (sendVote vote node w) !! vote_id vote = Some x →
       x = set_block (startBlock + votingDuration) stored
       ∧ (x ∈ available (getDeferredVotes coinbase (sendVote vote node w))
                currentBlock →
          ∃ b, currentBlock = Some b ∧ startBlock + votingDuration < b)
       ∧ ∀ y,
           y ∈ available (getDeferredVotes coinbase (sendVote vote node w))
                 currentBlock
           ↔ (y = x ∧ vote_type stored = VoteNone
              ∧ vote_coinbase stored = coinbase
              ∧ ∃ b, currentBlock = Some b ∧ startBlock + votingDuration < b)
             ∨ (y ∈ available (getDeferredVotes coinbase w) currentBlock
                ∧ ∃ id, id ≠ vote_id vote ∧ table w !! id = Some y))
  ∧ (submission node = inl insufficient_funds
     ∨ ((submission node = inl too_late
         ∨ submission node = inl quorum_not_reachable)
        ∧ prolong_succeeds node = true) →
     available (getDeferredVotes coinbase (sendVote vote node w)) currentBlock
     = available (getDeferredVotes coinbase w) currentBlock).
Proof.
  split; [|split].
  - intros txHash x Hsub. split.
    + intros Hx.
      apply available_elem in Hx as [Hx Hb].
      apply getDeferredVotes_elem in Hx as ([id Hid] & Ht & Hc).
      unfold sendVote in Hid. rewrite Hsub in Hid. simpl in Hid.
      destruct (decide (id = vote_id vote)) as [->|Hne].
      * rewrite lookup_alter_eq in Hid.
        destruct (table w !! vote_id vote); simpl in Hid; [|done].
        injection Hid as <-. done.
      * rewrite lookup_alter_ne in Hid by done. split; [|eauto].
        apply available_elem. split; [|done].
        apply getDeferredVotes_elem. eauto.
    + intros [Hx (id & Hne & Hid)].
      apply available_elem in Hx as [Hx Hb].
      apply getDeferredVotes_elem in Hx as (_ & Ht & Hc).
      apply available_elem. split; [|done].
      apply getDeferredVotes_elem. split; [|done].
      exists id. unfold sendVote. rewrite Hsub. simpl.
      by rewrite lookup_alter_ne.
  - intros sb vd stored x Hsub Hsb Hvd Hgt Hstored Hx.
    assert (table (sendVote vote node w)
            = alter (set_block (sb + vd)) (vote_id vote) (table w)) as Htable.
    { unfold sendVote. rewrite Hsub, Hsb, Hvd.
      change (too_early =? too_early)%string
        with (String.eqb too_early too_early).
      rewrite String.eqb_refl.
      destruct (Z.gtb_spec (sb + vd) (vote_block vote)) as [_|]; [|lia].
      reflexivity. }
    rewrite Htable, lookup_alter_eq, Hstored in Hx.
    injection Hx as <-. split; [done|]. split.
    { intros Hav. apply available_elem in Hav as [_ (b & -> & Hlt)].
      exists b. split; [done|]. exact Hlt. }
    intros y. rewrite !available_elem, !getDeferredVotes_elem, Htable.
    split.
    + intros [([id Hid] & Ht & Hc) Hb].
      destruct (decide (id = vote_id vote)) as [->|Hne].
      * rewrite lookup_alter_eq, Hstored in Hid. injection Hid as <-.
        left. done.
      * rewrite lookup_alter_ne in Hid by done. right. eauto 10.
    + intros [(-> & Ht & Hc & Hb)|[[([id0 Hid0] & Ht & Hc) Hb] (id & Hne & Hid)]].
      * split; [|done]. split; [|done].
        exists (vote_id vote). by rewrite lookup_alter_eq, Hstored.
      * split; [|done]. split; [|done].
        exists id. by rewrite lookup_alter_ne.
  - intros Hcase. f_equal. apply getDeferredVotes_table.
    unfold sendVote.
    destruct Hcase as [-> | [[-> | ->] ->]]; reflexivity.
Qed.

(** ** Comparison of identifiers *)

Lemma upper_lower_char c c' :
  JsString.code c < 128 → JsString.code c' < 128 →
  JsCase.upper c = JsCase.upper c' ↔ JsCase.lower c = JsCase.lower c'.
Proof.
  intros Hc Hc'.
  assert (∀ x, JsString.code x < 128 →
               x ∈ (λ n, ascii_of_N (N.of_nat n)) <$> seq 0 128) as Hall.
  { intros x Hx. apply list_elem_of_fmap.
    exists (N.to_nat (N_of_ascii x)). split.
    - by rewrite N2Nat.id, ascii_N_embedding.
    - apply elem_of_seq. unfold JsString.code in Hx. lia. }
  pose proof (Hall c Hc) as Hin. pose proof (Hall c' Hc') as Hin'.
  clear Hall Hc Hc'.
  assert (forallb (λ x, forallb (λ y,
            eqb (Ascii.eqb (JsCase.upper x) (JsCase.upper y))
                (Ascii.eqb (JsCase.lower x) (JsCase.lower y)))
            ((λ n, ascii_of_N (N.of_nat n)) <$> seq 0 128))
            ((λ n, ascii_of_N (N.of_nat n)) <$> seq 0 128) = true) as Hchk
    by (by vm_compute).
  rewrite forallb_forall in Hchk.
  apply list_elem_of_In in Hin, Hin'.
  specialize (Hchk c Hin). rewrite forallb_forall in Hchk.
  specialize (Hchk c' Hin'). apply eqb_prop in Hchk.
  rewrite <- !Ascii.eqb_eq. by rewrite Hchk.
Qed.

Lemma upper_lower s :
  ∀ s', JsCase.is_ascii s = true → JsCase.is_ascii s' = true →
        JsCase.toUpperCase s = JsCase.toUpperCase s'
        ↔ JsCase.toLowerCase s = JsCase.toLowerCase s'.
Proof.
  induction s as [|c s IH]; intros [|c' s'] Hs Hs'; try done.
  unfold JsCase.is_ascii in Hs, Hs'. simpl in Hs, Hs'.
  apply andb_true_iff in Hs as [Hc Hs], Hs' as [Hc' Hs'].
  apply Z.ltb_lt in Hc, Hc'.
  specialize (IH s' Hs Hs'). pose proof (upper_lower_char c c' Hc Hc') as Hch.
  unfold JsCase.toUpperCase, JsCase.toLowerCase in *. simpl.
  split; intros [= H1 H2]; f_equal; tauto.
Qed.

(** X20: [areSameCaseInsensitive] holds of two values that are both
    [undefined] and fails when only one is; it is reflexive, symmetric and
    transitive; on ASCII text it holds exactly when [normalizeId] gives
    the same result; and [eitherStatus] holds exactly when [isVotingStatus]
    does for one of the statuses. *)
Theorem areSameCaseInsensitive_spec :
  areSameCaseInsensitive None None = true
  ∧ (∀ s, areSameCaseInsensitive None (Some s) = false
          ∧ areSameCaseInsensitive (Some s) None = false)
  ∧ (∀ a, areSameCaseInsensitive a a = true)
  ∧ (∀ a b, areSameCaseInsensitive a b = areSameCaseInsensitive b a)
  ∧ (∀ a b c, areSameCaseInsensitive a b = true →
              areSameCaseInsensitive b c = true →
              areSameCaseInsensitive a c = true)
  ∧ (∀ s s', JsCase.is_ascii s = true → JsCase.is_ascii s' = true →
       (areSameCaseInsensitive (Some s) (Some s') = true
        ↔ normalizeId (Some s) = normalizeId (Some s')))
  ∧ (∀ statuses status,
       eitherStatus statuses status = true
       ↔ ∃ target, target ∈ statuses ∧ isVotingStatus target status = true).
Proof.
  unfold areSameCaseInsensitive.
  split; [done|]. split; [done|].
  split; [intros a; by apply bool_decide_eq_true|].
  split; [intros a b; apply bool_decide_ext; split; congruence|].
  split; [intros a b c; rewrite !bool_decide_eq_true; congruence|].
  split.
  - intros s s' Hs Hs'. rewrite bool_decide_eq_true. simpl.
    split; intros [= H]; f_equal; by apply (upper_lower s s').
  - intros statuses status. unfold eitherStatus, isVotingStatus.
    rewrite existsb_exists. setoid_rewrite list_elem_of_In.
    split; intros (t & Ht & Hsame); exists t; (split; [done|]);
      unfold areSameCaseInsensitive in *;
      apply bool_decide_eq_true; apply bool_decide_eq_true in Hsame; congruence.
Qed.

(** ** Dates *)

Lemma time_clip_of_Z (k : Z) :
  0 ≤ k ≤ 8640000000000000 → JsDate.time_clip (JsNumber.of_Z k) = JsNumber.of_Z k.
Proof.
  intros Hk. destruct k as [|pk|pk]; [done| |lia].
  assert (Z.pos pk < 2 ^ 53) as Hk53
    by (change (2 ^ 53) with 9007199254740992; lia).
  pose proof (digits_le_53 pk Hk53) as Hdk.
  destruct (of_Z_pos pk ltac:(lia)) as (mk & Heq & Hmk & Hdmk).
  rewrite Heq. unfold JsDate.time_clip.
  remember (Z.pos (digits2_pos pk)) as dk eqn:Edk.
  destruct (Z.leb_spec 0 (dk - 53)) as [He|He].
  - assert (dk = 53) as -> by lia.
    change (53 - 53) with 0 in *. change (2 ^ 0) with 1 in *.
    rewrite Z.mul_1_r in *. rewrite Hmk.
    by destruct (Z.leb_spec (Z.pos pk) 8640000000000000); [|lia].
  - cbn [cond_Zopp]. rewrite <- Heq. f_equal.
    replace (- (dk - 53)) with (53 - dk) by lia.
    rewrite Hmk. apply Z.quot_mul.
    assert (0 < 2 ^ (53 - dk)) by (apply Z.pow_pos_nonneg; lia). lia.
Qed.

Lemma add_seconds_of_Z (d n : Z) :
  0 ≤ d → 0 ≤ n → d + n * 1000 ≤ 8640000000000000 →
  JsDate.add_seconds (JsNumber.of_Z d) (JsNumber.of_Z n)
  = JsNumber.of_Z (d + n * 1000).
Proof.
  intros Hd Hn Hsum. unfold JsDate.add_seconds.
  assert (2 ^ 53 = 9007199254740992) as E by reflexivity.
  rewrite (mul_of_Z n 1000), add_of_Z by lia.
  apply time_clip_of_Z. lia.
Qed.

(** X22: for a start date and durations that are whole numbers,
    [votingFinishDate] is the start date plus exactly
    [(votingDuration + publicVotingDuration) * 20] seconds; a duration that
    is not given counts as 4320 blocks, one day, so that without any the
    voting finishes two days after its start; an invalid start date stays
    invalid. *)
Theorem votingFinishDate_whole (startDate votingDuration publicVotingDuration : Z) :
  0 ≤ startDate → 0 ≤ votingDuration → 0 ≤ publicVotingDuration →
  startDate + (votingDuration + publicVotingDuration) * 20000
  ≤ 8640000000000000 - 172800000 →
  votingFinishDate (JsNumber.of_Z startDate)
    (Some (JsNumber.of_Z votingDuration))
    (Some (JsNumber.of_Z publicVotingDuration))
  = JsNumber.of_Z
      (startDate + (votingDuration + publicVotingDuration) * 20000)
  ∧ votingFinishDate (JsNumber.of_Z startDate) None None
    = JsNumber.of_Z (startDate + 172800000)
  ∧ votingFinishDate (JsNumber.of_Z startDate)
      (Some (JsNumber.of_Z votingDuration)) None
    = JsNumber.of_Z (startDate + votingDuration * 20000 + 86400000)
  ∧ votingFinishDate JsNumber.NaN (Some (JsNumber.of_Z votingDuration))
      (Some (JsNumber.of_Z publicVotingDuration))
    = JsNumber.NaN.
Proof.
  intros Hs Hv Hp Hsum.
  assert (2 ^ 53 = 9007199254740992) as E by reflexivity.
  unfold votingFinishDate, BLOCK_TIME, defaultVotingDuration.
  cbn [default from_option id].
  split; [|split; [|split]].
  - rewrite (mul_of_Z votingDuration 20), (mul_of_Z publicVotingDuration 20)
      by lia.
    rewrite !add_seconds_of_Z by lia. f_equal. lia.
  - rewrite (mul_of_Z 4320 20) by lia.
    rewrite !add_seconds_of_Z by lia. f_equal. lia.
  - rewrite (mul_of_Z votingDuration 20), (mul_of_Z 4320 20) by lia.
    rewrite !add_seconds_of_Z by lia. f_equal. lia.
  - reflexivity.
Qed.

Lemma votingFinishDate_whole_witness :
  votingFinishDate (JsNumber.of_Z 1700000000000) None None
  = JsNumber.of_Z (1700000000000 + 172800000).
Proof.
  apply (votingFinishDate_whole 1700000000000 0 0); lia.
Defined.
